(** * The node store of the brainstorming app (src/App.js)

    A shallow embedding of the React component [App] of src/App.js: the
    three pieces of component state ([nodes], [selectedId], [queryingAI]),
    the callbacks that change them ([addNode], [updateNode], [removeNode],
    [onAskAI], [exportJSON], [importJSON]) and the parts of the JavaScript
    runtime those callbacks rely on: strings of UTF-16 code units, IEEE
    binary64 numbers with their rounding, plain objects and arrays with
    property order, object spread, [+], [JSON.stringify(_, null, 2)] and
    [JSON.parse].

    The two effects that load and save [nodes] in [localStorage] and the
    props that the JSX hands to [Sidebar] and [Canvas] ([onSelect],
    [onMove], the [onAskAI] wrapper) follow, with [JSON.stringify(_)].

    What the component does besides is left out: rendering, the download
    that [exportJSON] starts and the [FileReader] of [importJSON] (an
    import starts from the text of the file).  [expandWithAI] belongs to
    src/services/api; how its promise settles is an input of [onAskAI].

    Part I holds the definitions, layer by layer, Part II the lemmas and
    the theorems about them. *)

From Stdlib Require Import ZArith NArith List Lia Bool String Ascii.
Import ListNotations.
Open Scope Z_scope.

(* ================================================================== *)
(** * Part I: definitions                                              *)
(* ================================================================== *)

(** ** JavaScript strings

    A JavaScript string is a finite sequence of 16-bit code units. *)

Definition jsstring : Type := list N.

(** [lit "abc"] is the JavaScript string with the code units of an ASCII
    literal. *)
Definition lit (s : string) : jsstring :=
  map N_of_ascii (list_ascii_of_string s).

Fixpoint str_eqb (a b : jsstring) : bool :=
  match a, b with
  | [], [] => true
  | x :: a', y :: b' => N.eqb x y && str_eqb a' b'
  | _, _ => false
  end.

Definition is_empty (s : jsstring) : bool :=
  match s with
  | [] => true
  | _ :: _ => false
  end.

(** The code units that [String.prototype.trim] strips: ECMAScript's
    WhiteSpace and LineTerminator productions. *)
Definition is_white_space (c : N) : bool :=
  ((c =? 9) || (c =? 10) || (c =? 11) || (c =? 12) || (c =? 13) ||
   (c =? 32) || (c =? 160) || (c =? 5760) ||
   ((8192 <=? c) && (c <=? 8202)) ||
   (c =? 8232) || (c =? 8233) || (c =? 8239) || (c =? 8287) ||
   (c =? 12288) || (c =? 65279))%N.

Fixpoint trim_start (s : jsstring) : jsstring :=
  match s with
  | [] => []
  | c :: r => if is_white_space c then trim_start r else s
  end.

(** [text.trim()] *)
Definition trim (s : jsstring) : jsstring :=
  rev (trim_start (rev (trim_start s))).

(** ** JavaScript numbers

    A Number is an IEEE 754 binary64 value.  Every finite binary64 value is
    an integer multiple of [2^-1074], the smallest subnormal, so a finite
    number is kept as that integer: [Fin k] stands for [k * 2^-1074].  The
    two zeros are not told apart ([===] does not tell them apart either, and
    [JSON.stringify] prints both as [0]). *)

Inductive number : Type :=
| NaN
| Inf (neg : bool)
| Fin (k : Z).

(** [2^1074] units make 1. *)
Definition one_unit : Z := 2 ^ 1074.

(** The first magnitude that no longer fits: [2^1024], in units. *)
Definition overflow_bound : Z := 2 ^ 2098.

(** A value in the binade of [q] (in units) keeps 53 significant bits, so it
    is a multiple of [2 ^ shift_of q]. *)
Definition shift_of (q : Z) : Z := Z.max 0 (Z.log2 q - 52).

Definition representable (k : Z) : Prop :=
  Z.abs k < overflow_bound /\ Z.abs k mod 2 ^ shift_of (Z.abs k) = 0.

Definition representableb (k : Z) : bool :=
  (Z.abs k <? overflow_bound) && (Z.abs k mod 2 ^ shift_of (Z.abs k) =? 0).

(** [round_ratio n d], for [0 <= n] and [0 < d]: the exact value [n / d]
    (in units) rounded to the nearest value with 53 significant bits, ties
    to even; the exponent is not bounded above here. *)
Definition round_ratio (n d : Z) : Z :=
  let s := shift_of (n / d) in
  let m := d * 2 ^ s in
  let q := n / m in
  let up := match 2 * n ?= (2 * q + 1) * m with
            | Lt => false
            | Gt => true
            | Eq => Z.odd q
            end in
  (if up then q + 1 else q) * 2 ^ s.

(** Overflow to an infinity. *)
Definition pack (neg : bool) (k : Z) : number :=
  if overflow_bound <=? k then Inf neg else Fin (if neg then - k else k).

(** The Number nearest to the exact value [n / d] units, [0 < d]. *)
Definition round_to_number (n d : Z) : number :=
  if n <? 0 then pack true (round_ratio (- n) d)
  else pack false (round_ratio n d).

(** The Number for the mathematical integer [z]. *)
Definition of_int (z : Z) : number := round_to_number (z * one_unit) 1.

(** [a + b] on Numbers *)
Definition num_add (a b : number) : number :=
  match a, b with
  | NaN, _ | _, NaN => NaN
  | Inf s, Inf t => if Bool.eqb s t then Inf s else NaN
  | Inf s, Fin _ | Fin _, Inf s => Inf s
  | Fin x, Fin y => round_to_number (x + y) 1
  end.

(** [a * b] on Numbers *)
Definition num_mul (a b : number) : number :=
  match a, b with
  | NaN, _ | _, NaN => NaN
  | Inf s, Inf t => Inf (xorb s t)
  | Inf s, Fin x | Fin x, Inf s =>
      if x =? 0 then NaN else Inf (xorb s (x <? 0))
  | Fin x, Fin y => round_to_number (x * y) one_unit
  end.

(** [a === b] on Numbers *)
Definition num_eqb (a b : number) : bool :=
  match a, b with
  | Fin x, Fin y => x =? y
  | Inf s, Inf t => Bool.eqb s t
  | _, _ => false
  end.

(** [a < b] and [a <= b] on Numbers; both are false when an operand is NaN. *)
Definition num_ltb (a b : number) : bool :=
  match a, b with
  | NaN, _ | _, NaN => false
  | Inf s, Inf t => s && negb t
  | Inf s, Fin _ => s
  | Fin _, Inf t => negb t
  | Fin x, Fin y => x <? y
  end.

Definition num_leb (a b : number) : bool :=
  match a, b with
  | NaN, _ | _, NaN => false
  | _, _ => num_ltb a b || num_eqb a b
  end.

Definition is_finite (a : number) : bool :=
  match a with
  | Fin _ => true
  | _ => false
  end.

(** What [Math.random()] may return: a Number in [0, 1). *)
Definition unit_interval (r : number) : Prop :=
  exists k, r = Fin k /\ representable k /\ 0 <= k < one_unit.

(** *** Decimal digits *)

(** The decimal digits of [n >= 0], most significant first. *)
Fixpoint digits_fuel (fuel : nat) (n : Z) (acc : list Z) : list Z :=
  match fuel with
  | O => acc
  | S f =>
      if n <? 10 then n :: acc
      else digits_fuel f (n / 10) (n mod 10 :: acc)
  end.

Definition digits (n : Z) : list Z :=
  digits_fuel (S (Z.to_nat (Z.log2 n))) n [].

(** The integer a digit sequence denotes. *)
Definition undigits (ds : list Z) : Z :=
  fold_left (fun a d => 10 * a + d) ds 0.

Definition digit_char (d : Z) : N := Z.to_N (48 + d).

Definition digit_chars (ds : list Z) : jsstring := map digit_char ds.

Definition zeros (n : Z) : list Z := repeat 0 (Z.to_nat n).

(** *** Number::toString and the value of a decimal literal *)

(** [dec_round m e]: the decimal [m * 10^e], [0 <= m], rounded to units. *)
Definition dec_round (m e : Z) : Z :=
  if 0 <=? e then round_ratio (m * 10 ^ e * one_unit) 1
  else round_ratio (m * one_unit) (10 ^ (- e)).

(** The Number a decimal literal with sign [neg], digits [m] and exponent
    [e] denotes. *)
Definition dec_to_number (neg : bool) (m e : Z) : number :=
  pack neg (dec_round m e).

(** [floor (v / 10^e)] for the value [v] of [k] units. *)
Definition scaled_floor (k e : Z) : Z :=
  if 0 <=? e then k / (one_unit * 10 ^ e)
  else (k * 10 ^ (- e)) / one_unit.

(** Is [lo * 10^e] at least as near to the value of [k] units as
    [(lo + 1) * 10^e]? *)
Definition lo_is_nearer (k lo e : Z) : bool :=
  if 0 <=? e then 2 * k <=? (2 * lo + 1) * 10 ^ e * one_unit
  else 2 * k * 10 ^ (- e) <=? (2 * lo + 1) * one_unit.

(** The decimal exponent [n] of the value [v] of [k > 0] units:
    [10^(n-1) <= v < 10^n]. *)
Definition decimal_exponent (k : Z) : Z :=
  Z.of_nat (List.length (digits (k * 10 ^ 324 / one_unit))) - 324.

(** Is the value of [k] units exactly half-way between [lo * 10^e] and
    [(lo + 1) * 10^e]? *)
Definition half_way (k lo e : Z) : bool :=
  if 0 <=? e then 2 * k =? (2 * lo + 1) * 10 ^ e * one_unit
  else 2 * k * 10 ^ (- e) =? (2 * lo + 1) * one_unit.

(** A digit string [s] at exponent [e] that reads back as [k], if one of
    the two neighbours of the value at that exponent does.  When both do,
    it is the nearer one, and the even one when the value is half-way
    between them, as the engines choose. *)
Definition candidate (k e : Z) : option Z :=
  let lo := scaled_floor k e in
  match dec_round lo e =? k, dec_round (lo + 1) e =? k with
  | true, true =>
      Some (if half_way k lo e then (if Z.even lo then lo else lo + 1)
            else if lo_is_nearer k lo e then lo else lo + 1)
  | true, false => Some lo
  | false, true => Some (lo + 1)
  | false, false => None
  end.

(** ECMAScript asks for [s * 10^e] with as few digits as possible that
    reads back as the Number: one digit first, then two, and so on.
    Seventeen digits are enough for binary64; after them comes the exact
    decimal expansion [k * 5^1074 * 10^-1074]. *)
Fixpoint shortest_from (fuel : nat) (k e : Z) : Z * Z :=
  match fuel with
  | O => (k * 5 ^ 1074, - 1074)
  | S f =>
      match candidate k e with
      | Some s => (s, e)
      | None => shortest_from f k (e - 1)
      end
  end.

Definition shortest (k : Z) : Z * Z :=
  let (s, e) := shortest_from 17 k (decimal_exponent k - 1) in
  if s mod 10 =? 0 then (s / 10, e + 1) else (s, e).

(** Steps 6 to 10 of Number::toString: the digits [ds] of [s] (there are
    [k] of them) with the decimal point after the [n]-th. *)
Definition format_decimal (ds : list Z) (n : Z) : jsstring :=
  let k := Z.of_nat (List.length ds) in
  if (k <=? n) && (n <=? 21) then
    digit_chars (ds ++ zeros (n - k))
  else if (0 <? n) && (n <=? 21) then
    digit_chars (firstn (Z.to_nat n) ds) ++ lit "." ++
    digit_chars (skipn (Z.to_nat n) ds)
  else if (-6 <? n) && (n <=? 0) then
    lit "0." ++ digit_chars (zeros (- n) ++ ds)
  else
    let x := n - 1 in
    let exponent :=
      lit "e" ++ (if x <? 0 then lit "-" else lit "+") ++
      digit_chars (digits (Z.abs x)) in
    match ds with
    | [] => exponent
    | [d] => digit_chars [d] ++ exponent
    | d :: more => digit_chars [d] ++ lit "." ++ digit_chars more ++ exponent
    end.

Definition positive_to_string (k : Z) : jsstring :=
  let (s, e) := shortest k in
  let ds := digits s in
  format_decimal ds (Z.of_nat (List.length ds) + e).

(** [Number.prototype.toString.call(x)], also [String(x)] *)
Definition number_to_string (x : number) : jsstring :=
  match x with
  | NaN => lit "NaN"
  | Inf false => lit "Infinity"
  | Inf true => lit "-Infinity"
  | Fin k =>
      if k =? 0 then lit "0"
      else if k <? 0 then lit "-" ++ positive_to_string (- k)
      else positive_to_string k
  end.

(** ** JavaScript values

    The values that reach the store: primitives, arrays and plain objects
    (what [JSON.parse], object literals and object spread build).  An
    object is the list of its own enumerable properties in property order:
    array-index keys in ascending order first, then the other keys in the
    order they were created.  Arrays and objects carry no identity here;
    the values the program compares with [===] are primitives. *)

Inductive prim : Type :=
| PUndefined
| PNull
| PBool (b : bool)
| PNum (x : number)
| PStr (s : jsstring).

#[local] Unset Elimination Schemes.

Inductive value : Type :=
| VPrim (p : prim)
| VArr (items : list value)
| VObj (props : list (jsstring * value)).

#[local] Set Elimination Schemes.

Definition object : Type := list (jsstring * value).

Definition undefined : value := VPrim PUndefined.
Definition vstr (s : jsstring) : value := VPrim (PStr s).
Definition vnum (x : number) : value := VPrim (PNum x).

(** ToBoolean: what [!v], [v || w] and [if (v)] test. *)
Definition prim_truthy (p : prim) : bool :=
  match p with
  | PUndefined | PNull => false
  | PBool b => b
  | PNum NaN => false
  | PNum (Inf _) => true
  | PNum (Fin k) => negb (k =? 0)
  | PStr s => negb (is_empty s)
  end.

Definition truthy (v : value) : bool :=
  match v with
  | VPrim p => prim_truthy p
  | VArr _ | VObj _ => true
  end.

(** [a === b] on primitives *)
Definition prim_strict_eq (a b : prim) : bool :=
  match a, b with
  | PUndefined, PUndefined => true
  | PNull, PNull => true
  | PBool x, PBool y => Bool.eqb x y
  | PNum x, PNum y => num_eqb x y
  | PStr s, PStr t => str_eqb s t
  | _, _ => false
  end.

(** [v === p] for a primitive [p]: an array or an object is never equal to
    a primitive. *)
Definition strict_eq (v : value) (p : prim) : bool :=
  match v with
  | VPrim q => prim_strict_eq q p
  | VArr _ | VObj _ => false
  end.

(** *** Own properties *)

Fixpoint lookup (k : jsstring) (o : object) : option value :=
  match o with
  | [] => None
  | (k', v) :: o' => if str_eqb k' k then Some v else lookup k o'
  end.

Definition char_digit (c : N) : option Z :=
  if ((48 <=? c) && (c <=? 57))%N then Some (Z.of_N c - 48) else None.

Fixpoint all_digits (s : jsstring) : option (list Z) :=
  match s with
  | [] => Some []
  | c :: r =>
      match char_digit c, all_digits r with
      | Some d, Some ds => Some (d :: ds)
      | _, _ => None
      end
  end.

(** An array index is a canonical numeric string below [2^32 - 1]. *)
Definition array_index (k : jsstring) : option Z :=
  match all_digits k with
  | Some (d :: ds) =>
      let n := undigits (d :: ds) in
      if (negb (d =? 0) || match ds with [] => true | _ :: _ => false end)
         && (n <? 2 ^ 32 - 1)
      then Some n else None
  | _ => None
  end.

(** Where a new array-index key goes: before the first key that is not a
    smaller array index. *)
Fixpoint insert_index (i : Z) (k : jsstring) (v : value) (o : object) : object :=
  match o with
  | [] => [(k, v)]
  | (k', v') :: o' =>
      match array_index k' with
      | Some j =>
          if j <? i then (k', v') :: insert_index i k v o'
          else (k, v) :: o
      | None => (k, v) :: o
      end
  end.

Fixpoint replace (k : jsstring) (v : value) (o : object) : object :=
  match o with
  | [] => []
  | (k', v') :: o' =>
      if str_eqb k' k then (k', v) :: o' else (k', v') :: replace k v o'
  end.

(** CreateDataProperty on an ordinary object: an existing key keeps its
    place, a new one goes where property order puts it. *)
Definition define_property (o : object) (k : jsstring) (v : value) : object :=
  match lookup k o with
  | Some _ => replace k v o
  | None =>
      match array_index k with
      | Some i => insert_index i k v o
      | None => o ++ [(k, v)]
      end
  end.

Definition define_all (o : object) (kvs : object) : object :=
  fold_left (fun acc kv => define_property acc (fst kv) (snd kv)) kvs o.

Fixpoint indexed (i : Z) (l : list value) : object :=
  match l with
  | [] => []
  | x :: r => (digit_chars (digits i), x) :: indexed (i + 1) r
  end.

(** The own enumerable string-keyed properties that object spread copies. *)
Definition own_properties (v : value) : object :=
  match v with
  | VObj o => o
  | VArr l => indexed 0 l
  | VPrim (PStr s) => indexed 0 (map (fun c => vstr [c]) s)
  | VPrim _ => []
  end.

(** The object literal [{ ...a, ...b }] *)
Definition spread (a b : value) : value :=
  VObj (define_all (define_all [] (own_properties a)) (own_properties b)).

(** [v.k] for a key [k] that names no built-in property ([id], [content],
    [x], [y] in this program).  [None] is the TypeError that reading a
    property of [undefined] or [null] throws. *)
Definition get (v : value) (k : jsstring) : option value :=
  match v with
  | VPrim PUndefined | VPrim PNull => None
  | VObj o =>
      Some (match lookup k o with Some x => x | None => undefined end)
  | VPrim _ | VArr _ => Some undefined
  end.

(** *** Conversions and [+] *)

Definition prim_to_string (p : prim) : jsstring :=
  match p with
  | PUndefined => lit "undefined"
  | PNull => lit "null"
  | PBool true => lit "true"
  | PBool false => lit "false"
  | PNum x => number_to_string x
  | PStr s => s
  end.

(** ToString of a value; [None] is the TypeError of an object whose own
    [toString] is not callable.  An array joins its elements with commas,
    a plain object is [[object Object]]. *)
Fixpoint to_string (v : value) : option jsstring :=
  match v with
  | VPrim p => Some (prim_to_string p)
  | VArr l =>
      let fix join (first : bool) (l : list value) : option jsstring :=
        match l with
        | [] => Some []
        | x :: r =>
            let item :=
              match x with
              | VPrim PUndefined | VPrim PNull => Some []
              | _ => to_string x
              end in
            match item, join false r with
            | Some a, Some b =>
                Some ((if first then [] else lit ",") ++ a ++ b)
            | _, _ => None
            end
        end in
      join true l
  | VObj o =>
      match lookup (lit "toString") o with
      | Some _ => None
      | None => Some (lit "[object Object]")
      end
  end.

Definition to_primitive (v : value) : option prim :=
  match v with
  | VPrim p => Some p
  | _ => option_map PStr (to_string v)
  end.

(** ToNumber of a primitive that is not a string. *)
Definition to_number (p : prim) : number :=
  match p with
  | PUndefined => NaN
  | PNull => Fin 0
  | PBool true => of_int 1
  | PBool false => Fin 0
  | PNum x => x
  | PStr _ => NaN
  end.

(** [a + b]: concatenation once an operand is a string, addition of
    Numbers otherwise. *)
Definition js_plus (a b : value) : option value :=
  match to_primitive a, to_primitive b with
  | Some (PStr s), Some q => Some (vstr (s ++ prim_to_string q))
  | Some p, Some (PStr t) => Some (vstr (prim_to_string p ++ t))
  | Some p, Some q => Some (vnum (num_add (to_number p) (to_number q)))
  | _, _ => None
  end.

(** ** JSON.stringify(value, null, 2) *)

Definition hex_digit (d : N) : N :=
  (if d <? 10 then 48 + d else 87 + d)%N.

(** The escape [\uXXXX] of a code unit, in lower-case hexadecimal. *)
Definition unicode_escape (c : N) : jsstring :=
  [92; 117; hex_digit (c / 4096 mod 16); hex_digit (c / 256 mod 16);
   hex_digit (c / 16 mod 16); hex_digit (c mod 16)]%N.

Definition is_high_surrogate (c : N) : bool :=
  ((55296 <=? c) && (c <=? 56319))%N.

Definition is_low_surrogate (c : N) : bool :=
  ((56320 <=? c) && (c <=? 57343))%N.

(** One code unit that is no surrogate, as QuoteJSONString writes it. *)
Definition escape_unit (c : N) : jsstring :=
  (if c =? 8 then [92; 98]
   else if c =? 9 then [92; 116]
   else if c =? 10 then [92; 110]
   else if c =? 12 then [92; 102]
   else if c =? 13 then [92; 114]
   else if c =? 34 then [92; 34]
   else if c =? 92 then [92; 92]
   else if c <? 32 then unicode_escape c
   else [c])%N.

(** A surrogate pair is written as it is, a lone surrogate is escaped. *)
Fixpoint quote_body (s : jsstring) : jsstring :=
  match s with
  | [] => []
  | c :: r =>
      if is_high_surrogate c then
        match r with
        | d :: r' =>
            if is_low_surrogate d then c :: d :: quote_body r'
            else unicode_escape c ++ quote_body r
        | [] => unicode_escape c
        end
      else if is_low_surrogate c then unicode_escape c ++ quote_body r
      else escape_unit c ++ quote_body r
  end.

(** QuoteJSONString *)
Definition quote (s : jsstring) : jsstring :=
  [34%N] ++ quote_body s ++ [34%N].

Definition prim_to_json (p : prim) : jsstring :=
  match p with
  | PUndefined => lit "null"
  | PNull => lit "null"
  | PBool true => lit "true"
  | PBool false => lit "false"
  | PNum x => if is_finite x then number_to_string x else lit "null"
  | PStr s => quote s
  end.

Definition is_undefined (v : value) : bool :=
  match v with
  | VPrim PUndefined => true
  | _ => false
  end.

(** The indentation unit of [JSON.stringify(_, null, 2)]. *)
Definition gap : jsstring := lit "  ".

Definition newline : jsstring := [10%N].

(** SerializeJSONProperty at indentation [ind].  An undefined array element
    is written [null]; a property whose value is undefined is left out. *)
Fixpoint to_json (ind : jsstring) (v : value) : jsstring :=
  match v with
  | VPrim p => prim_to_json p
  | VArr l =>
      let fix elements (first : bool) (l : list value) : jsstring :=
        match l with
        | [] => if first then lit "]" else newline ++ ind ++ lit "]"
        | x :: r =>
            (if first then newline else lit "," ++ newline) ++
            (ind ++ gap) ++ to_json (ind ++ gap) x ++ elements false r
        end in
      lit "[" ++ elements true l
  | VObj o =>
      let fix members (first : bool) (o : object) : jsstring :=
        match o with
        | [] => if first then lit "}" else newline ++ ind ++ lit "}"
        | (k, x) :: r =>
            if is_undefined x then members first r
            else
              (if first then newline else lit "," ++ newline) ++
              (ind ++ gap) ++ quote k ++ lit ": " ++
              to_json (ind ++ gap) x ++ members false r
        end in
      lit "{" ++ members true o
  end.

(** [JSON.stringify(v, null, 2)]; the result is [undefined] (here [None])
    when [v] is. *)
Definition JSON_stringify (v : value) : option jsstring :=
  if is_undefined v then None else Some (to_json [] v).

(** ** JSON.parse

    The text is read by recursive descent.  A SyntaxError carries a message.
    Its wording differs from engine to engine (some add a position, some
    quote the text); the message here stands for it and names the
    unexpected code unit or the unexpected end of the text.  No statement
    below depends on the wording. *)

Inductive parsed (A : Type) : Type :=
| Parsed (a : A) (rest : jsstring)
| SyntaxError (message : jsstring).

Arguments Parsed {A} a rest.
Arguments SyntaxError {A} message.

Definition unexpected_end : jsstring := lit "Unexpected end of JSON input".

Definition unexpected_token (c : N) : jsstring :=
  lit "Unexpected token " ++ [c] ++ lit " in JSON".

Definition unexpected (s : jsstring) : jsstring :=
  match s with
  | [] => unexpected_end
  | c :: _ => unexpected_token c
  end.

(** JSON white space: tab, line feed, carriage return, space. *)
Definition is_json_space (c : N) : bool :=
  ((c =? 9) || (c =? 10) || (c =? 13) || (c =? 32))%N.

Fixpoint skip_space (s : jsstring) : jsstring :=
  match s with
  | [] => []
  | c :: r => if is_json_space c then skip_space r else s
  end.

Definition hex_value (c : N) : option N :=
  (if (48 <=? c) && (c <=? 57) then Some (c - 48)
   else if (97 <=? c) && (c <=? 102) then Some (c - 87)
   else if (65 <=? c) && (c <=? 70) then Some (c - 55)
   else None)%N.

Definition hex4 (a b c d : N) : option N :=
  match hex_value a, hex_value b, hex_value c, hex_value d with
  | Some x, Some y, Some z, Some w =>
      Some (x * 4096 + y * 256 + z * 16 + w)%N
  | _, _, _, _ => None
  end.

(** The code unit that follows a backslash, other than [u]. *)
Definition simple_escape (c : N) : option N :=
  (if c =? 34 then Some 34
   else if c =? 92 then Some 92
   else if c =? 47 then Some 47
   else if c =? 98 then Some 8
   else if c =? 102 then Some 12
   else if c =? 110 then Some 10
   else if c =? 114 then Some 13
   else if c =? 116 then Some 9
   else None)%N.

Definition push (c : N) (p : parsed jsstring) : parsed jsstring :=
  match p with
  | Parsed t rest => Parsed (c :: t) rest
  | SyntaxError m => SyntaxError m
  end.

(** The characters of a string literal after its opening quote. *)
Fixpoint parse_string_body (s : jsstring) : parsed jsstring :=
  match s with
  | [] => SyntaxError unexpected_end
  | c :: r =>
      if (c =? 34)%N then Parsed [] r
      else if (c =? 92)%N then
        match r with
        | [] => SyntaxError unexpected_end
        | e :: r1 =>
            match simple_escape e with
            | Some u => push u (parse_string_body r1)
            | None =>
                if (e =? 117)%N then
                  match r1 with
                  | h1 :: h2 :: h3 :: h4 :: r2 =>
                      match hex4 h1 h2 h3 h4 with
                      | Some u => push u (parse_string_body r2)
                      | None => SyntaxError (unexpected r1)
                      end
                  | _ => SyntaxError unexpected_end
                  end
                else SyntaxError (unexpected_token e)
            end
        end
      else if (c <? 32)%N then SyntaxError (unexpected_token c)
      else push c (parse_string_body r)
  end.

Fixpoint take_digits (s : jsstring) : list Z * jsstring :=
  match s with
  | [] => ([], [])
  | c :: r =>
      match char_digit c with
      | Some d => let (ds, rest) := take_digits r in (d :: ds, rest)
      | None => ([], s)
      end
  end.

(** [0], or a digit from 1 to 9 followed by digits. *)
Definition parse_int (s : jsstring) : parsed (list Z) :=
  match s with
  | [] => SyntaxError unexpected_end
  | c :: r =>
      if (c =? 48)%N then Parsed [0] r
      else
        match take_digits s with
        | ([], _) => SyntaxError (unexpected_token c)
        | (ds, rest) => Parsed ds rest
        end
  end.

(** An optional fraction: a point and at least one digit. *)
Definition parse_frac (s : jsstring) : parsed (list Z) :=
  match s with
  | c :: r =>
      if (c =? 46)%N then
        match take_digits r with
        | ([], rest) => SyntaxError (unexpected rest)
        | (ds, rest) => Parsed ds rest
        end
      else Parsed [] s
  | [] => Parsed [] s
  end.

Definition parse_exp_digits (neg : bool) (s : jsstring) : parsed Z :=
  match take_digits s with
  | ([], rest) => SyntaxError (unexpected rest)
  | (ds, rest) => Parsed (if neg then - undigits ds else undigits ds) rest
  end.

(** An optional exponent: [e] or [E], an optional sign, at least one digit. *)
Definition parse_exp (s : jsstring) : parsed Z :=
  match s with
  | c :: r =>
      if ((c =? 101) || (c =? 69))%N then
        match r with
        | g :: r' =>
            if (g =? 43)%N then parse_exp_digits false r'
            else if (g =? 45)%N then parse_exp_digits true r'
            else parse_exp_digits false r
        | [] => SyntaxError unexpected_end
        end
      else Parsed 0 s
  | [] => Parsed 0 s
  end.

(** A JSON number: its value is the Number nearest to the decimal. *)
Definition parse_number (s : jsstring) : parsed number :=
  let (neg, s1) :=
    match s with
    | c :: r => if (c =? 45)%N then (true, r) else (false, s)
    | [] => (false, s)
    end in
  match parse_int s1 with
  | SyntaxError m => SyntaxError m
  | Parsed ds s2 =>
      match parse_frac s2 with
      | SyntaxError m => SyntaxError m
      | Parsed fs s3 =>
          match parse_exp s3 with
          | SyntaxError m => SyntaxError m
          | Parsed x rest =>
              Parsed (dec_to_number neg (undigits (ds ++ fs))
                        (x - Z.of_nat (List.length fs))) rest
          end
      end
  end.

Fixpoint strip_prefix (p s : jsstring) : option jsstring :=
  match p, s with
  | [], _ => Some s
  | a :: p', b :: s' => if (a =? b)%N then strip_prefix p' s' else None
  | _ :: _, [] => None
  end.

(** [true], [false] or [null]. *)
Definition parse_literal (s : jsstring) : parsed value :=
  match strip_prefix (lit "true") s with
  | Some rest => Parsed (VPrim (PBool true)) rest
  | None =>
      match strip_prefix (lit "false") s with
      | Some rest => Parsed (VPrim (PBool false)) rest
      | None =>
          match strip_prefix (lit "null") s with
          | Some rest => Parsed (VPrim PNull) rest
          | None => SyntaxError (unexpected s)
          end
      end
  end.

(** The elements of a non-empty array after [[], up to and including []]:
    [pv] reads one value, [n] bounds the number of elements. *)
Fixpoint parse_elements (pv : jsstring -> parsed value) (n : nat)
    (s : jsstring) : parsed (list value) :=
  match n with
  | O => SyntaxError unexpected_end
  | S n' =>
      match pv s with
      | SyntaxError m => SyntaxError m
      | Parsed v rest =>
          match skip_space rest with
          | [] => SyntaxError unexpected_end
          | c :: r =>
              if (c =? 44)%N then
                match parse_elements pv n' r with
                | Parsed vs rest' => Parsed (v :: vs) rest'
                | SyntaxError m => SyntaxError m
                end
              else if (c =? 93)%N then Parsed [v] r
              else SyntaxError (unexpected_token c)
          end
      end
  end.

(** The members of a non-empty object after [{], up to and including [}]. *)
Fixpoint parse_members (pv : jsstring -> parsed value) (n : nat)
    (s : jsstring) : parsed object :=
  match n with
  | O => SyntaxError unexpected_end
  | S n' =>
      match skip_space s with
      | [] => SyntaxError unexpected_end
      | q :: r0 =>
          if negb (q =? 34)%N then SyntaxError (unexpected_token q)
          else
            match parse_string_body r0 with
            | SyntaxError m => SyntaxError m
            | Parsed k rest0 =>
                match skip_space rest0 with
                | [] => SyntaxError unexpected_end
                | c0 :: r1 =>
                    if negb (c0 =? 58)%N then SyntaxError (unexpected_token c0)
                    else
                      match pv r1 with
                      | SyntaxError m => SyntaxError m
                      | Parsed v rest =>
                          match skip_space rest with
                          | [] => SyntaxError unexpected_end
                          | c :: r =>
                              if (c =? 44)%N then
                                match parse_members pv n' r with
                                | Parsed kvs rest' => Parsed ((k, v) :: kvs) rest'
                                | SyntaxError m => SyntaxError m
                                end
                              else if (c =? 125)%N then Parsed [(k, v)] r
                              else SyntaxError (unexpected_token c)
                          end
                      end
                end
            end
      end
  end.

Definition starts_number (c : N) : bool :=
  ((c =? 45) || (48 <=? c) && (c <=? 57))%N.

(** One JSON value, after optional white space; [depth] bounds the nesting.
    The members of an object are defined in the order of the text, so a
    repeated key keeps its last value. *)
Fixpoint parse_value (depth : nat) (s : jsstring) : parsed value :=
  match depth with
  | O => SyntaxError unexpected_end
  | S d =>
      match skip_space s with
      | [] => SyntaxError unexpected_end
      | c :: r =>
          if (c =? 91)%N then
            match skip_space r with
            | [] => SyntaxError unexpected_end
            | c' :: r' =>
                if (c' =? 93)%N then Parsed (VArr []) r'
                else
                  match parse_elements (parse_value d) (List.length r) r with
                  | Parsed vs rest => Parsed (VArr vs) rest
                  | SyntaxError m => SyntaxError m
                  end
            end
          else if (c =? 123)%N then
            match skip_space r with
            | [] => SyntaxError unexpected_end
            | c' :: r' =>
                if (c' =? 125)%N then Parsed (VObj []) r'
                else
                  match parse_members (parse_value d) (List.length r) r with
                  | Parsed kvs rest => Parsed (VObj (define_all [] kvs)) rest
                  | SyntaxError m => SyntaxError m
                  end
            end
          else if (c =? 34)%N then
            match parse_string_body r with
            | Parsed t rest => Parsed (vstr t) rest
            | SyntaxError m => SyntaxError m
            end
          else if starts_number c then
            match parse_number (c :: r) with
            | Parsed x rest => Parsed (vnum x) rest
            | SyntaxError m => SyntaxError m
            end
          else parse_literal (c :: r)
      end
  end.

(** The completion of a call: a value, or a thrown error with its message. *)
Inductive completion (A : Type) : Type :=
| Normal (a : A)
| Throw (message : jsstring).

Arguments Normal {A} a.
Arguments Throw {A} message.

(** [JSON.parse(text)] *)
Definition JSON_parse (text : jsstring) : completion value :=
  match parse_value (S (List.length text)) text with
  | SyntaxError m => Throw m
  | Parsed v rest =>
      match skip_space rest with
      | [] => Normal v
      | c :: _ => Throw (unexpected_token c)
      end
  end.

(** ** The component [App]

    [nodes], [selectedId] and [queryingAI] are the three [useState] cells.
    [alerts] records the calls of [window.alert], oldest first.  The clock
    ([Date.now()]), the random source ([Math.random()]) and the outcome of
    [expandWithAI] are inputs of the callbacks that use them. *)

Record state : Type := mkState {
  nodes : list value;
  selectedId : prim;
  queryingAI : bool;
  alerts : list jsstring
}.

(** [useState([])], [useState(null)], [useState(false)] *)
Definition initial : state :=
  {| nodes := []; selectedId := PNull; queryingAI := false; alerts := [] |}.

Definition setNodes (l : list value) (st : state) : state :=
  {| nodes := l; selectedId := selectedId st;
     queryingAI := queryingAI st; alerts := alerts st |}.

Definition setSelectedId (id : prim) (st : state) : state :=
  {| nodes := nodes st; selectedId := id;
     queryingAI := queryingAI st; alerts := alerts st |}.

Definition setQueryingAI (b : bool) (st : state) : state :=
  {| nodes := nodes st; selectedId := selectedId st;
     queryingAI := b; alerts := alerts st |}.

Definition alert (message : jsstring) (st : state) : state :=
  {| nodes := nodes st; selectedId := selectedId st;
     queryingAI := queryingAI st; alerts := alerts st ++ [message] |}.

(** [Date.now().toString()] for the clock reading [now], in milliseconds. *)
Definition new_id (now : Z) : jsstring := number_to_string (of_int now).

(** The object literal [{ id, content, x, y }]. *)
Definition make_node (id content x y : value) : value :=
  VObj [(lit "id", id); (lit "content", content); (lit "x", x); (lit "y", y)].

(** [40 + Math.random() * width] *)
Definition spawn (r : number) (width : Z) : number :=
  num_add (of_int 40) (num_mul r (of_int width)).

(** [addNode(text)] at clock reading [now], with the two random draws [rx]
    and [ry]. *)
Definition addNode (text : jsstring) (now : Z) (rx ry : number)
    (st : state) : state :=
  if is_empty text || is_empty (trim text) then st
  else
    let node :=
      make_node (vstr (new_id now)) (vstr (trim text))
        (vnum (spawn rx 600)) (vnum (spawn ry 300)) in
    setSelectedId (PStr (new_id now)) (setNodes (node :: nodes st) st).

(** [n.id === id]; [None] when reading [n.id] throws. *)
Definition has_id (id : prim) (n : value) : option bool :=
  match get n (lit "id") with
  | Some v => Some (strict_eq v id)
  | None => None
  end.

(** [s.map(f)], where a call of [f] may throw. *)
Fixpoint map_nodes (f : value -> option value) (s : list value)
    : option (list value) :=
  match s with
  | [] => Some []
  | n :: r =>
      match f n with
      | None => None
      | Some n' =>
          match map_nodes f r with
          | None => None
          | Some r' => Some (n' :: r')
          end
      end
  end.

(** [s.filter(keep)], where a call of [keep] may throw. *)
Fixpoint filter_nodes (keep : value -> option bool) (s : list value)
    : option (list value) :=
  match s with
  | [] => Some []
  | n :: r =>
      match keep n with
      | None => None
      | Some b =>
          match filter_nodes keep r with
          | None => None
          | Some r' => Some (if b then n :: r' else r')
          end
      end
  end.

(** [updateNode(id, patch)] for a primitive [id].  [None]: the updater
    threw a TypeError (an element of [nodes] was [null] or [undefined]). *)
Definition updateNode (id : prim) (patch : value) (st : state)
    : option state :=
  match
    map_nodes
      (fun n =>
         match has_id id n with
         | Some true => Some (spread n patch)
         | Some false => Some n
         | None => None
         end) (nodes st)
  with
  | Some l => Some (setNodes l st)
  | None => None
  end.

(** [removeNode(id)] for a primitive [id].  [None] as for [updateNode].
    [selectedId] is the one of the state: this is a call of the callback
    of the last render, on the state that was rendered. *)
Definition removeNode (id : prim) (st : state) : option state :=
  match
    filter_nodes
      (fun n =>
         match has_id id n with
         | Some b => Some (negb b)
         | None => None
         end) (nodes st)
  with
  | Some l =>
      let st' := setNodes l st in
      Some (if prim_strict_eq (selectedId st) id
            then setSelectedId PNull st' else st')
  | None => None
  end.

(** [removeNode(id)] called before the next render.  [useCallback] makes
    a new callback when [selectedId] is rendered anew (l.57), so until then
    the test of l.56 reads [captured], the [selectedId] of the last render,
    while the updater of [setNodes] filters the current [nodes].
    [removeNode id st] is [removeNode_captured (selectedId st) id st]. *)
Definition removeNode_captured (captured id : prim) (st : state)
    : option state :=
  match
    filter_nodes
      (fun n =>
         match has_id id n with
         | Some b => Some (negb b)
         | None => None
         end) (nodes st)
  with
  | Some l =>
      let st' := setNodes l st in
      Some (if prim_strict_eq captured id
            then setSelectedId PNull st' else st')
  | None => None
  end.

(** The Error object a rejected [expandWithAI] call carries;
    [expandWithAI] itself (src/services/api) is outside this file. *)
Record js_error : Type := mkError {
  error_name : jsstring;
  error_message : jsstring
}.

(** How the promise of [expandWithAI] settles. *)
Inductive settled : Type :=
| Fulfilled (result : value)
| Rejected (e : js_error).

(** [e.message || e], converted to a string by the concatenation. *)
Definition error_text (e : js_error) : jsstring :=
  if is_empty (error_message e) then error_name e else error_message e.

(** The TypeError that a failed conversion inside the [try] block throws. *)
Definition conversion_error : js_error :=
  {| error_name := lit "TypeError";
     error_message := lit "Cannot convert object to primitive value" |}.

Definition no_suggestion : jsstring := lit "(AI had no suggestion)".

(** [onAskAI(node)] up to the [await]. *)
Definition onAskAI_call (node : value) (st : state) : state :=
  if truthy node then setQueryingAI true st else st.

(** The new node of [onAskAI]; [None] when building it throws. *)
Definition expansion_node (node result : value) (now : Z) : option value :=
  match get node (lit "x"), get node (lit "y") with
  | Some x, Some y =>
      match js_plus x (vnum (of_int 120)), js_plus y (vnum (of_int 20)) with
      | Some x', Some y' =>
          Some (make_node (vstr (new_id now))
                  (if truthy result then result else vstr no_suggestion)
                  x' y')
      | _, _ => None
      end
  | _, _ => None
  end.

Definition fail_request (e : js_error) (st : state) : state :=
  setQueryingAI false (alert (lit "AI request failed: " ++ error_text e) st).

(** [onAskAI(node)] from the [await] on: [outcome] is how the call settled,
    [now] the clock reading and [st] the state at that moment.  Nothing
    is pending when [node] was falsy: the callback had returned. *)
Definition onAskAI_resume (node : value) (outcome : settled) (now : Z)
    (st : state) : state :=
  if truthy node then
    match outcome with
    | Fulfilled result =>
        match expansion_node node result now with
        | Some newNode =>
            setQueryingAI false
              (setSelectedId (PStr (new_id now))
                 (setNodes (newNode :: nodes st) st))
        | None => fail_request conversion_error st
        end
    | Rejected e => fail_request e st
    end
  else st.

(** [nodes.find((n) => n.id === id)]: the first match, [undefined] when
    there is none, [None] when a callback throws. *)
Fixpoint find_node (id : prim) (s : list value) : option value :=
  match s with
  | [] => Some undefined
  | n :: r =>
      match has_id id n with
      | None => None
      | Some true => Some n
      | Some false => find_node id r
      end
  end.

(** The text that [exportJSON] puts in the downloaded file: the Blob made
    of [JSON.stringify(nodes, null, 2)]. *)
Definition exportJSON (st : state) : jsstring :=
  match JSON_stringify (VArr (nodes st)) with
  | Some text => text
  | None => lit "undefined"
  end.

(** [importJSON(file)] once the file is read: [file] is its text, [None]
    when no file was chosen. *)
Definition importJSON (file : option jsstring) (st : state) : state :=
  match file with
  | None => st
  | Some text =>
      match JSON_parse text with
      | Normal (VArr parsed) => setNodes parsed st
      | Normal _ =>
          alert (lit "Invalid file format: expected an array of nodes") st
      | Throw message => alert (lit "Failed to import: " ++ message) st
      end
  end.

(** *** Sequences of store operations *)

Inductive action : Type :=
| Add (text : jsstring) (now : Z) (rx ry : number)
| Update (id : prim) (patch : value)
| Remove (id : prim).

Definition step (a : action) (st : state) : option state :=
  match a with
  | Add text now rx ry => Some (addNode text now rx ry st)
  | Update id patch => updateNode id patch st
  | Remove id => removeNode id st
  end.

Fixpoint run (l : list action) (st : state) : option state :=
  match l with
  | [] => Some st
  | a :: l' =>
      match step a st with
      | Some st' => run l' st'
      | None => None
      end
  end.

(** ** Well-formed values

    What the statements below ask of the values they range over. *)

(** [undefined] and [null]: the values whose properties cannot be read. *)
Definition nullish (v : value) : bool :=
  match v with
  | VPrim PUndefined | VPrim PNull => true
  | _ => false
  end.

Fixpoint has_key (k : jsstring) (o : object) : bool :=
  match o with
  | [] => false
  | (k', _) :: o' => str_eqb k' k || has_key k o'
  end.

(** No key occurs twice, as in every JavaScript object. *)
Fixpoint distinct_keys (o : object) : bool :=
  match o with
  | [] => true
  | (k, _) :: o' => negb (has_key k o') && distinct_keys o'
  end.

(** A node of the store: an object.  [JSON.parse] lets other values into
    an imported array. *)
Definition is_node (v : value) : bool :=
  match v with
  | VObj o => distinct_keys o
  | _ => false
  end.

Definition patch_key (k : jsstring) : bool :=
  str_eqb k (lit "content") || str_eqb k (lit "x") || str_eqb k (lit "y").

(** A patch of [updateNode]: an object with any of the fields [content],
    [x], [y] and no other. *)
Definition is_patch (v : value) : bool :=
  match v with
  | VObj o => distinct_keys o && forallb (fun kv => patch_key (fst kv)) o
  | _ => false
  end.

(** [n.id === id], false when [n.id] cannot be read. *)
Definition matches (id : prim) (n : value) : bool :=
  match has_id id n with
  | Some b => b
  | None => false
  end.

(** The value of a field after a patch [o] was merged into a node. *)
Definition patched (o : object) (n : value) (k : jsstring) : option value :=
  match lookup k o with
  | Some v => Some v
  | None => get n k
  end.

(** *** The shape of number literals *)

(** A text that cannot continue a number literal: it is empty or its first
    code unit is no digit, no point and no exponent mark. *)
Definition number_ends (rest : jsstring) : bool :=
  match rest with
  | [] => true
  | c :: _ =>
      negb (((48 <=? c) && (c <=? 57)) || (c =? 46) || (c =? 101)
            || (c =? 69))%N
  end.

(** The shape of a number literal: integer digits [ip], fraction digits
    [fp] (none when empty) and an optional exponent. *)
Definition exponent_text (x : Z) : jsstring :=
  lit "e" ++ (if x <? 0 then lit "-" else lit "+") ++
  digit_chars (digits (Z.abs x)).

Definition fraction_text (fp : list Z) : jsstring :=
  match fp with
  | [] => []
  | _ :: _ => lit "." ++ digit_chars fp
  end.

Definition number_text (ip fp : list Z) (x : option Z) : jsstring :=
  digit_chars ip ++ fraction_text fp ++
  match x with
  | Some x => exponent_text x
  | None => []
  end.

(** [parse_number] after the optional sign. *)
Definition parse_unsigned (neg : bool) (s : jsstring) : parsed number :=
  match parse_int s with
  | SyntaxError m => SyntaxError m
  | Parsed ds s2 =>
      match parse_frac s2 with
      | SyntaxError m => SyntaxError m
      | Parsed fs s3 =>
          match parse_exp s3 with
          | SyntaxError m => SyntaxError m
          | Parsed x rest =>
              Parsed (dec_to_number neg (undigits (ds ++ fs))
                        (x - Z.of_nat (List.length fs))) rest
          end
      end
  end.

Definition sign_text (neg : bool) : jsstring :=
  if neg then lit "-" else [].

(** *** The invariants of the store *)

(** [n.id], when it can be read. *)
Definition node_id (n : value) : option value := get n (lit "id").

(** The selection is [null] or the id of a node of the collection. *)
Definition selection_ok (st : state) : Prop :=
  selectedId st = PNull \/
  exists n, In n (nodes st) /\ node_id n = Some (VPrim (selectedId st)).

(** The largest time value of ECMAScript, in milliseconds. *)
Definition max_time : Z := 8640000000000000.

(** Every [Add] reads a time value later than the one before it. *)
Fixpoint clock_increasing (last : Z) (l : list action) : bool :=
  match l with
  | [] => true
  | Add _ now _ _ :: l' =>
      (last <? now) && (now <=? max_time) && clock_increasing now l'
  | _ :: l' => clock_increasing last l'
  end.

(** Every [Update] carries a patch of [content], [x], [y]. *)
Fixpoint patches_ok (l : list action) : bool :=
  match l with
  | [] => true
  | Update _ patch :: l' => is_patch patch && patches_ok l'
  | _ :: l' => patches_ok l'
  end.

(** *** Values that JSON can carry *)

(** Property order: array-index keys in ascending order, then the other
    keys. *)
Definition key_precedes (k k' : jsstring) : bool :=
  match array_index k, array_index k' with
  | Some i, Some j => i <? j
  | Some _, None => true
  | None, Some _ => false
  | None, None => true
  end.

Fixpoint ordered (o : object) : bool :=
  match o with
  | [] => true
  | (k, _) :: o' =>
      forallb (fun kv => key_precedes k (fst kv)) o' && ordered o'
  end.

(** The own properties of an object as JavaScript keeps them. *)
Definition canonical (o : object) : bool := distinct_keys o && ordered o.

(** A value that [JSON.stringify] writes without loss: no [undefined], no
    [NaN] or infinity, every Number a binary64 value, every object in
    property order. *)
Fixpoint json_safe (v : value) : bool :=
  match v with
  | VPrim PUndefined => false
  | VPrim (PNum (Fin k)) => representableb k
  | VPrim (PNum _) => false
  | VPrim _ => true
  | VArr l =>
      (fix all (l : list value) : bool :=
         match l with
         | [] => true
         | x :: r => json_safe x && all r
         end) l
  | VObj o =>
      canonical o &&
      (fix all (o : object) : bool :=
         match o with
         | [] => true
         | (_, x) :: r => json_safe x && all r
         end) o
  end.

(** The nesting depth of a value, counting the value itself. *)
Fixpoint nesting (v : value) : nat :=
  match v with
  | VPrim _ => 1
  | VArr l =>
      S ((fix deepest (l : list value) : nat :=
            match l with
            | [] => O
            | x :: r => Nat.max (nesting x) (deepest r)
            end) l)
  | VObj o =>
      S ((fix deepest (o : object) : nat :=
            match o with
            | [] => O
            | (_, x) :: r => Nat.max (nesting x) (deepest r)
            end) o)
  end.

(** The text of the elements of an array and of the members of an object,
    as [to_json] writes them at indentation [ind]. *)
Fixpoint elements_text (ind : jsstring) (first : bool) (l : list value)
    : jsstring :=
  match l with
  | [] => if first then lit "]" else newline ++ ind ++ lit "]"
  | x :: r =>
      (if first then newline else lit "," ++ newline) ++
      (ind ++ gap) ++ to_json (ind ++ gap) x ++ elements_text ind false r
  end.

Fixpoint members_text (ind : jsstring) (first : bool) (o : object)
    : jsstring :=
  match o with
  | [] => if first then lit "}" else newline ++ ind ++ lit "}"
  | (k, x) :: r =>
      if is_undefined x then members_text ind first r
      else
        (if first then newline else lit "," ++ newline) ++
        (ind ++ gap) ++ quote k ++ lit ": " ++
        to_json (ind ++ gap) x ++ members_text ind false r
  end.

(** Every value of a list, every member of an object is JSON-safe. *)
Fixpoint all_safe (l : list value) : bool :=
  match l with
  | [] => true
  | x :: r => json_safe x && all_safe r
  end.

Fixpoint all_safe_members (o : object) : bool :=
  match o with
  | [] => true
  | (_, x) :: r => json_safe x && all_safe_members r
  end.

(** The deepest nesting among the values of a list, the members of an
    object. *)
Fixpoint deepest (l : list value) : nat :=
  match l with
  | [] => O
  | x :: r => Nat.max (nesting x) (deepest r)
  end.

Fixpoint deepest_member (o : object) : nat :=
  match o with
  | [] => O
  | (_, x) :: r => Nat.max (nesting x) (deepest_member r)
  end.

(** *** Sessions that keep the store JSON-safe *)

Definition named_key (k : jsstring) : bool :=
  match array_index k with
  | None => true
  | Some _ => false
  end.

(** An object with distinct keys, none of them an array index, and
    JSON-safe values: what [addNode] builds and a patch of [content], [x],
    [y] keeps. *)
Definition safe_node (n : value) : bool :=
  match n with
  | VObj o =>
      distinct_keys o && forallb (fun kv => named_key (fst kv)) o &&
      all_safe_members o
  | _ => false
  end.

Definition unit_intervalb (r : number) : bool :=
  match r with
  | Fin k => representableb k && (0 <=? k) && (k <? one_unit)
  | _ => false
  end.

(** Every [Add] draws from [[0, 1)], every [Update] carries a patch of
    [content], [x], [y] with JSON-safe values. *)
Fixpoint safe_session (l : list action) : bool :=
  match l with
  | [] => true
  | Add _ _ rx ry :: l' =>
      unit_intervalb rx && unit_intervalb ry && safe_session l'
  | Update _ patch :: l' =>
      is_patch patch && json_safe patch && safe_session l'
  | Remove _ :: l' => safe_session l'
  end.

(** ** The callbacks of the JSX

    The props that [App] hands to [Sidebar] and [Canvas] (src/App.js,
    l.120-139).  The ids the two components pass are primitives. *)

(** [onSelect={(id) => setSelectedId(id)}] *)
Definition onSelect (id : prim) (st : state) : state := setSelectedId id st.

(** [onMove={(id, x, y) => updateNode(id, { x, y })}] *)
Definition onMove (id : prim) (x y : value) (st : state) : option state :=
  updateNode id (VObj [(lit "x", x); (lit "y", y)]) st.

(** The [onAskAI] prop of [Sidebar], up to the [await] inside [onAskAI]:
    the node that [nodes.find] returns and the state after the call.
    [None] when a callback of [find] throws. *)
Definition askAI_click (id : prim) (st : state) : option (value * state) :=
  match find_node id (nodes st) with
  | Some node => Some (node, onAskAI_call node st)
  | None => None
  end.

(** The clock readings [ts], newest first: each one is earlier than the one
    before it, and none is later than [last]. *)
Fixpoint newest_first (last : Z) (ts : list Z) : Prop :=
  match ts with
  | [] => True
  | t :: r => t <= last /\ newest_first (t - 1) r
  end.

(** ** JSON.stringify(value)

    Without a third argument nothing is put between the tokens. *)
Fixpoint to_json_compact (v : value) : jsstring :=
  match v with
  | VPrim p => prim_to_json p
  | VArr l =>
      let fix elements (first : bool) (l : list value) : jsstring :=
        match l with
        | [] => lit "]"
        | x :: r =>
            (if first then [] else lit ",") ++
            to_json_compact x ++ elements false r
        end in
      lit "[" ++ elements true l
  | VObj o =>
      let fix members (first : bool) (o : object) : jsstring :=
        match o with
        | [] => lit "}"
        | (k, x) :: r =>
            if is_undefined x then members first r
            else
              (if first then [] else lit ",") ++
              quote k ++ lit ":" ++ to_json_compact x ++ members false r
        end in
      lit "{" ++ members true o
  end.

(** [JSON.stringify(v)]; the result is [undefined] (here [None]) when [v]
    is. *)
Definition JSON_stringify_compact (v : value) : option jsstring :=
  if is_undefined v then None else Some (to_json_compact v).

(** The text of the elements of an array and of the members of an object,
    as [to_json_compact] writes them. *)
Fixpoint elements_compact (first : bool) (l : list value) : jsstring :=
  match l with
  | [] => lit "]"
  | x :: r =>
      (if first then [] else lit ",") ++
      to_json_compact x ++ elements_compact false r
  end.

Fixpoint members_compact (first : bool) (o : object) : jsstring :=
  match o with
  | [] => lit "}"
  | (k, x) :: r =>
      if is_undefined x then members_compact first r
      else
        (if first then [] else lit ",") ++
        quote k ++ lit ":" ++ to_json_compact x ++ members_compact false r
  end.

(** *** What a JSON text keeps of a value

    [JSON.stringify] writes [null] for [NaN], for the infinities and for
    an [undefined] array element, and leaves out the properties whose
    value is [undefined]; [json_image v] is the value with these changes
    made. *)
Fixpoint json_image (v : value) : value :=
  match v with
  | VPrim PUndefined => VPrim PNull
  | VPrim (PNum (Fin k)) => VPrim (PNum (Fin k))
  | VPrim (PNum _) => VPrim PNull
  | VPrim p => VPrim p
  | VArr l => VArr (map json_image l)
  | VObj o =>
      VObj ((fix members (o : object) : object :=
               match o with
               | [] => []
               | (k, x) :: r =>
                   if is_undefined x then members r
                   else (k, json_image x) :: members r
               end) o)
  end.

Fixpoint image_members (o : object) : object :=
  match o with
  | [] => []
  | (k, x) :: r =>
      if is_undefined x then image_members r
      else (k, json_image x) :: image_members r
  end.

(** A value as JavaScript holds it: every finite Number a binary64 value,
    every object in property order.  [undefined], [NaN] and the
    infinities are allowed. *)
Fixpoint well_formed (v : value) : bool :=
  match v with
  | VPrim (PNum (Fin k)) => representableb k
  | VPrim _ => true
  | VArr l =>
      (fix all (l : list value) : bool :=
         match l with
         | [] => true
         | x :: r => well_formed x && all r
         end) l
  | VObj o =>
      canonical o &&
      (fix all (o : object) : bool :=
         match o with
         | [] => true
         | (_, x) :: r => well_formed x && all r
         end) o
  end.

Fixpoint all_well_formed (l : list value) : bool :=
  match l with
  | [] => true
  | x :: r => well_formed x && all_well_formed r
  end.

Fixpoint all_well_formed_members (o : object) : bool :=
  match o with
  | [] => true
  | (_, x) :: r => well_formed x && all_well_formed_members r
  end.

(** ** localStorage and the two effects

    What the page keeps outside the component: the items of
    [localStorage] (keys and values are strings) and the warnings written
    to the console, oldest first, each with the error it reports. *)

Definition STORAGE_KEY : jsstring := lit "brainstorm:nodes:v1".

Definition storage : Type := list (jsstring * jsstring).

Record browser : Type := mkBrowser {
  localStorage : storage;
  console : list (jsstring * js_error)
}.

(** [localStorage.getItem(key)]; [None] is [null]. *)
Fixpoint getItem (key : jsstring) (s : storage) : option jsstring :=
  match s with
  | [] => None
  | (k, v) :: r => if str_eqb k key then Some v else getItem key r
  end.

(** [localStorage.setItem(key, value)] when the write is accepted. *)
Fixpoint setItem (key value : jsstring) (s : storage) : storage :=
  match s with
  | [] => [(key, value)]
  | (k, v) :: r =>
      if str_eqb k key then (k, value) :: r else (k, v) :: setItem key value r
  end.

(** [console.warn(text, e)] *)
Definition warn (text : jsstring) (e : js_error) (b : browser) : browser :=
  {| localStorage := localStorage b; console := console b ++ [(text, e)] |}.

(** The first effect (l.20-28): the argument of [setNodes] when it is
    called, and the browser afterwards.  There is no [Array.isArray] test
    here: whatever value the record denotes becomes [nodes]. *)
Definition load_effect (b : browser) : option value * browser :=
  match getItem STORAGE_KEY (localStorage b) with
  | None => (None, b)
  | Some raw =>
      if is_empty raw then (None, b)
      else
        match JSON_parse raw with
        | Normal v => (Some v, b)
        | Throw message =>
            (None,
             warn (lit "Failed to parse saved nodes")
               (mkError (lit "SyntaxError") message) b)
        end
  end.

(** The second effect (l.30-36) for the current value of [nodes].
    [failure] is the error that [setItem] throws, [None] when the write
    is accepted.  [setItem] converts its argument to a string, so an
    [undefined] result of [JSON.stringify] is stored as that word. *)
Definition save_effect (failure : option js_error) (current : value)
    (b : browser) : browser :=
  match failure with
  | None =>
      {| localStorage :=
           setItem STORAGE_KEY
             (match JSON_stringify_compact current with
              | Some text => text
              | None => lit "undefined"
              end) (localStorage b);
         console := console b |}
  | Some e => warn (lit "Failed to save nodes") e b
  end.

(** The effects of the first commit, in the order of the source: the load,
    then the save with the [nodes] of the first render, [[]].  A value
    that was loaded reaches [nodes] in the render after. *)
Definition first_commit (failure : option js_error) (b : browser)
    : option value * browser :=
  let (loaded, b1) := load_effect b in
  (loaded, save_effect failure (VArr []) b1).

(** *** Sessions with expansions

    What can happen to the store in any order: a store operation, a call
    of [onAskAI] (up to its [await]) and, later, the settling of such a
    call.  A [Settle] carries the node that the call was made for. *)

Inductive event : Type :=
| Store (a : action)
| Call (node : value)
| Settle (node : value) (outcome : settled) (now : Z).

Definition occur (e : event) (st : state) : option state :=
  match e with
  | Store a => step a st
  | Call node => Some (onAskAI_call node st)
  | Settle node outcome now => Some (onAskAI_resume node outcome now st)
  end.

Fixpoint session (l : list event) (st : state) : option state :=
  match l with
  | [] => Some st
  | e :: l' =>
      match occur e st with
      | Some st' => session l' st'
      | None => None
      end
  end.

(** Every [Update] of the session carries a patch of [content], [x], [y]. *)
Fixpoint session_patches_ok (l : list event) : bool :=
  match l with
  | [] => true
  | Store (Update _ patch) :: l' => is_patch patch && session_patches_ok l'
  | _ :: l' => session_patches_ok l'
  end.

(** *** Everything that can happen to the store

    The events above, a selection in [Sidebar] or [Canvas], and an import. *)

Inductive interaction : Type :=
| Happen (e : event)
| Select (id : prim)
| Import (file : option jsstring).

Definition interact (i : interaction) (st : state) : option state :=
  match i with
  | Happen e => occur e st
  | Select id => Some (onSelect id st)
  | Import file => Some (importJSON file st)
  end.

Fixpoint interactions (l : list interaction) (st : state) : option state :=
  match l with
  | [] => Some st
  | i :: l' =>
      match interact i st with
      | Some st' => interactions l' st'
      | None => None
      end
  end.

(** The values that come in from outside, the patches of [updateNode] and
    the results of [expandWithAI], are well-formed. *)
Fixpoint inputs_well_formed (l : list interaction) : bool :=
  match l with
  | [] => true
  | Happen (Store (Update _ patch)) :: l' =>
      well_formed patch && inputs_well_formed l'
  | Happen (Settle _ (Fulfilled result) _) :: l' =>
      well_formed result && inputs_well_formed l'
  | _ :: l' => inputs_well_formed l'
  end.

(* ================================================================== *)
(** * Part II: lemmas and theorems                                     *)
(* ================================================================== *)

(** ** Rounding *)

Section Rounding.

Lemma shift_of_nonneg q : 0 <= shift_of q.
Proof. unfold shift_of; lia. Qed.

Lemma shift_of_mono p q : p <= q -> shift_of p <= shift_of q.
Proof.
  intros H. unfold shift_of.
  pose proof (Z.log2_le_mono p q H). lia.
Qed.

Lemma pow2_shift_pos q : 0 < 2 ^ shift_of q.
Proof. apply Z.pow_pos_nonneg; [lia | apply shift_of_nonneg]. Qed.

(** Rounding does not step over a point of its own grid: from below ... *)
Lemma round_ratio_le_grid n d b :
  0 <= n -> 0 < d -> n <= b * 2 ^ shift_of (n / d) * d ->
  round_ratio n d <= b * 2 ^ shift_of (n / d).
Proof.
  intros Hn Hd Hb. unfold round_ratio.
  pose proof (pow2_shift_pos (n / d)) as Hs.
  set (s := shift_of (n / d)) in *.
  set (m := d * 2 ^ s).
  assert (Hm : 0 < m) by (unfold m; nia).
  pose proof (Z.div_mod n m ltac:(lia)) as E.
  pose proof (Z.mod_pos_bound n m Hm) as R.
  set (q := n / m) in *.
  assert (Hq : q <= b) by (unfold m in *; nia).
  destruct (Z.eq_dec q b) as [->|Hne].
  - assert (n mod m = 0) by (unfold m in *; nia).
    assert (C : (2 * n ?= (2 * b + 1) * m) = Lt)
      by (apply Z.compare_lt_iff; nia).
    rewrite C. lia.
  - destruct (match 2 * n ?= (2 * q + 1) * m with
              | Lt => false | Gt => true | Eq => Z.odd q end); nia.
Qed.

(** ... and from above. *)
Lemma round_ratio_ge_grid n d b :
  0 <= n -> 0 < d -> b * 2 ^ shift_of (n / d) * d <= n ->
  b * 2 ^ shift_of (n / d) <= round_ratio n d.
Proof.
  intros Hn Hd Hb. unfold round_ratio.
  pose proof (pow2_shift_pos (n / d)) as Hs.
  set (s := shift_of (n / d)) in *.
  set (m := d * 2 ^ s).
  assert (Hm : 0 < m) by (unfold m; nia).
  pose proof (Z.div_mod n m ltac:(lia)) as E.
  pose proof (Z.mod_pos_bound n m Hm) as R.
  set (q := n / m) in *.
  assert (Hq : b <= q) by (unfold m in *; nia).
  destruct (match 2 * n ?= (2 * q + 1) * m with
            | Lt => false | Gt => true | Eq => Z.odd q end); nia.
Qed.

Lemma round_ratio_nonneg n d : 0 <= n -> 0 < d -> 0 <= round_ratio n d.
Proof.
  intros Hn Hd.
  pose proof (round_ratio_ge_grid n d 0 Hn Hd) as H. simpl in H.
  apply H. lia.
Qed.

(** Rounding is monotone. *)
Lemma round_ratio_mono n n' d :
  0 <= n <= n' -> 0 < d -> round_ratio n d <= round_ratio n' d.
Proof.
  intros [Hn Hnn] Hd.
  assert (Hdiv : n / d <= n' / d) by (apply Z.div_le_mono; lia).
  pose proof (shift_of_mono _ _ Hdiv) as Hs.
  destruct (Z.eq_dec (shift_of (n / d)) (shift_of (n' / d))) as [E|NE].
  - unfold round_ratio. rewrite <- E.
    pose proof (pow2_shift_pos (n / d)) as Hp.
    set (s := shift_of (n / d)) in *.
    set (m := d * 2 ^ s).
    assert (Hm : 0 < m) by (unfold m; nia).
    pose proof (Z.div_mod n m ltac:(lia)) as E1.
    pose proof (Z.mod_pos_bound n m Hm) as R1.
    pose proof (Z.div_mod n' m ltac:(lia)) as E2.
    pose proof (Z.mod_pos_bound n' m Hm) as R2.
    assert (Hq : n / m <= n' / m) by (apply Z.div_le_mono; lia).
    set (q := n / m) in *. set (q' := n' / m) in *.
    destruct (Z.eq_dec q q') as [Eq|Nq].
    + rewrite <- Eq.
      destruct (Z.compare_spec (2 * n) ((2 * q + 1) * m));
      destruct (Z.compare_spec (2 * n') ((2 * q + 1) * m));
      destruct (Z.odd q); nia.
    + destruct (match 2 * n ?= (2 * q + 1) * m with
                | Lt => false | Gt => true | Eq => Z.odd q end);
      destruct (match 2 * n' ?= (2 * q' + 1) * m with
                | Lt => false | Gt => true | Eq => Z.odd q' end); nia.
  - assert (Hlt : shift_of (n / d) < shift_of (n' / d)) by lia.
    pose proof (shift_of_nonneg (n / d)) as Hs0.
    assert (Hs' : shift_of (n' / d) = Z.log2 (n' / d) - 52)
      by (unfold shift_of in *; lia).
    assert (Hlog : Z.log2 (n / d) < Z.log2 (n' / d))
      by (unfold shift_of in *; lia).
    assert (Hq0 : 0 <= n / d) by (apply Z.div_pos; lia).
    assert (Hq'pos : 0 < n' / d).
    { destruct (Z.eq_dec (n' / d) 0) as [Z0|]; [|lia].
      rewrite Z0 in Hlog. simpl in Hlog.
      pose proof (Z.log2_nonneg (n / d)). lia. }
    set (P := 2 ^ Z.log2 (n' / d)).
    assert (HP' : P <= n' / d) by (apply Z.log2_spec; lia).
    assert (HP : n / d < P).
    { destruct (Z.eq_dec (n / d) 0) as [Z0|].
      - rewrite Z0. apply Z.pow_pos_nonneg; [lia | apply Z.log2_nonneg].
      - apply Z.lt_le_trans with (2 ^ Z.succ (Z.log2 (n / d))).
        + apply Z.log2_spec; lia.
        + apply Z.pow_le_mono_r; lia. }
    apply Z.le_trans with P.
    + assert (EP : P = 2 ^ (Z.log2 (n' / d) - shift_of (n / d))
                       * 2 ^ shift_of (n / d)).
      { unfold P. rewrite <- Z.pow_add_r by lia. f_equal. lia. }
      rewrite EP. apply round_ratio_le_grid; try lia.
      rewrite <- EP.
      assert (n < P * d); [|lia].
      pose proof (Z.div_mod n d ltac:(lia)).
      pose proof (Z.mod_pos_bound n d Hd). nia.
    + assert (EP : P = 2 ^ 52 * 2 ^ shift_of (n' / d)).
      { unfold P. rewrite <- Z.pow_add_r by lia. f_equal. lia. }
      rewrite EP. apply round_ratio_ge_grid; try lia.
      rewrite <- EP.
      pose proof (Z.div_mod n' d ltac:(lia)).
      pose proof (Z.mod_pos_bound n' d Hd). nia.
Qed.

(** A value that already has 53 significant bits is not changed. *)
Lemma round_ratio_exact b d :
  0 <= b -> 0 < d -> b mod 2 ^ shift_of b = 0 ->
  round_ratio (b * d) d = b.
Proof.
  intros Hb Hd Hm.
  assert (E : b * d / d = b) by (apply Z.div_mul; lia).
  pose proof (pow2_shift_pos b) as Hp.
  assert (Eb : b = b / 2 ^ shift_of b * 2 ^ shift_of b).
  { pose proof (Z.div_mod b (2 ^ shift_of b) ltac:(lia)). lia. }
  pose proof (round_ratio_le_grid (b * d) d (b / 2 ^ shift_of b)) as L.
  pose proof (round_ratio_ge_grid (b * d) d (b / 2 ^ shift_of b)) as G.
  rewrite E in L, G. rewrite <- Eb in L, G.
  assert (0 <= b * d) by nia.
  specialize (L ltac:(lia) Hd ltac:(lia)).
  specialize (G ltac:(lia) Hd ltac:(lia)). lia.
Qed.

(** Two fractions of equal value round alike. *)
Lemma round_ratio_ext n d n' d' :
  0 <= n -> 0 < d -> 0 < d' -> n * d' = n' * d ->
  round_ratio n d = round_ratio n' d'.
Proof.
  intros Hn Hd Hd' E.
  assert (Hn' : 0 <= n') by nia.
  assert (Q : forall m, 0 < m -> n / (d * m) = n' / (d' * m)).
  { intros m Hm.
    assert (D1 : 0 < d * m) by nia. assert (D2 : 0 < d' * m) by nia.
    pose proof (Z.div_mod n (d * m) ltac:(lia)) as E1.
    pose proof (Z.mod_pos_bound n (d * m) D1) as R1.
    pose proof (Z.div_mod n' (d' * m) ltac:(lia)) as E2.
    pose proof (Z.mod_pos_bound n' (d' * m) D2) as R2.
    set (q := n / (d * m)) in *. set (q' := n' / (d' * m)) in *.
    assert (q * (d * m) * d' <= n * d' < (q + 1) * (d * m) * d') by nia.
    assert (q' * (d' * m) * d <= n' * d < (q' + 1) * (d' * m) * d) by nia.
    assert (0 < d * d' * m) by nia.
    assert (~ q < q') by nia. assert (~ q' < q) by nia. lia. }
  assert (Q1 : n / d = n' / d').
  { specialize (Q 1 ltac:(lia)). now rewrite !Z.mul_1_r in Q. }
  unfold round_ratio. rewrite <- Q1.
  pose proof (pow2_shift_pos (n / d)) as Hp.
  set (s := shift_of (n / d)) in *.
  rewrite <- (Q (2 ^ s) Hp).
  set (q := n / (d * 2 ^ s)).
  assert (C : (2 * n ?= (2 * q + 1) * (d * 2 ^ s)) =
              (2 * n' ?= (2 * q + 1) * (d' * 2 ^ s))).
  { destruct (Z.compare_spec (2 * n) ((2 * q + 1) * (d * 2 ^ s)));
    destruct (Z.compare_spec (2 * n') ((2 * q + 1) * (d' * 2 ^ s)));
    try reflexivity; exfalso; nia. }
  rewrite C. reflexivity.
Qed.

End Rounding.

(** ** The spawn region of [addNode] *)

Section Spawn.

Lemma one_unit_pos : 0 < one_unit.
Proof. unfold one_unit. apply Z.pow_pos_nonneg; lia. Qed.

Lemma one_unit_split : one_unit = 2 ^ 1021 * 2 ^ 53.
Proof. unfold one_unit. rewrite <- Z.pow_add_r by lia. reflexivity. Qed.

(** The largest Number below 1 is [1 - 2^-53]. *)
Lemma below_one k :
  representable k -> 0 <= k < one_unit -> k <= one_unit - 2 ^ 1021.
Proof.
  intros [_ Hm] [H0 H1].
  rewrite Z.abs_eq in Hm by lia.
  assert (P0 : 0 < 2 ^ 1021) by (apply Z.pow_pos_nonneg; lia).
  assert (P1 : 2 ^ 1073 = 2 ^ 1021 * 2 ^ 52)
    by (rewrite <- Z.pow_add_r by lia; reflexivity).
  assert (P2 : (2 : Z) ^ 53 = 2 * 2 ^ 52) by reflexivity.
  assert (P3 : 0 < 2 ^ 52) by reflexivity.
  destruct (Z.lt_ge_cases k (2 ^ 1073)) as [Hlt|Hge].
  - rewrite one_unit_split. nia.
  - assert (L : Z.log2 k = 1073).
    { apply Z.log2_unique; [lia|]. split; [exact Hge|].
      change (2 ^ Z.succ 1073) with one_unit. exact H1. }
    unfold shift_of in Hm. rewrite L in Hm.
    change (Z.max 0 (1073 - 52)) with 1021 in Hm.
    pose proof (Z.div_mod k (2 ^ 1021) ltac:(lia)) as E.
    rewrite Hm in E. rewrite one_unit_split in *.
    set (P := 2 ^ 1021) in *. set (j := k / P) in *.
    assert (j < 2 ^ 53) by nia.
    nia.
Qed.

Lemma round_to_number_nonneg n d :
  0 <= n -> round_ratio n d < overflow_bound ->
  round_to_number n d = Fin (round_ratio n d).
Proof.
  intros Hn Hb. unfold round_to_number, pack.
  destruct (Z.ltb_spec n 0); [lia|].
  destruct (Z.leb_spec overflow_bound (round_ratio n d)); [lia|reflexivity].
Qed.

(** [40 + r * w] stays in [[40, top)] once the largest draw does. *)
Lemma spawn_within r w top B B' :
  unit_interval r -> 0 < w ->
  of_int w = Fin (w * one_unit) ->
  round_ratio ((one_unit - 2 ^ 1021) * (w * one_unit)) one_unit = B ->
  round_ratio (40 * one_unit + B) 1 = B' ->
  B < overflow_bound ->
  B' < top * one_unit -> top * one_unit < overflow_bound ->
  exists k, spawn r w = Fin k /\ 40 * one_unit <= k < top * one_unit.
Proof.
  intros (k & -> & Hrep & Hk) Hw Ew HB HB' HBov Htop Hov.
  pose proof one_unit_pos as HU.
  pose proof (below_one k Hrep Hk) as Hmax.
  assert (E40 : of_int 40 = Fin (40 * one_unit)) by (vm_compute; reflexivity).
  assert (R40 : round_ratio (40 * one_unit) 1 = 40 * one_unit)
    by (vm_compute; reflexivity).
  unfold spawn. rewrite Ew, E40. cbn [num_mul].
  assert (N0 : 0 <= k * (w * one_unit)) by nia.
  assert (M : round_ratio (k * (w * one_unit)) one_unit <= B).
  { rewrite <- HB. apply round_ratio_mono; [|lia]. split; [lia|].
    apply Z.mul_le_mono_nonneg_r; nia. }
  pose proof (round_ratio_nonneg _ one_unit N0 HU) as P0.
  set (p := round_ratio (k * (w * one_unit)) one_unit) in *.
  assert (S1 : round_ratio (40 * one_unit + p) 1 <= B').
  { rewrite <- HB'. apply round_ratio_mono; lia. }
  assert (S0 : 40 * one_unit <= round_ratio (40 * one_unit + p) 1).
  { rewrite <- R40 at 1. apply round_ratio_mono; lia. }
  assert (S2 : 0 <= round_ratio (40 * one_unit + B) 1)
    by (apply round_ratio_nonneg; nia).
  rewrite round_to_number_nonneg by (fold p; lia). fold p.
  cbn [num_add].
  rewrite round_to_number_nonneg by lia.
  eexists. split; [reflexivity|]. lia.
Qed.

Definition within (lo hi : Z) (x : number) : Prop :=
  num_leb (of_int lo) x = true /\ num_ltb x (of_int hi) = true.

Lemma within_units lo hi k :
  of_int lo = Fin (lo * one_unit) -> of_int hi = Fin (hi * one_unit) ->
  lo * one_unit <= k < hi * one_unit -> within lo hi (Fin k).
Proof.
  intros El Eh [H1 H2]. unfold within. rewrite El, Eh.
  unfold num_leb, num_ltb, num_eqb. split.
  - apply orb_true_iff.
    destruct (Z.eq_dec (lo * one_unit) k) as [E|N].
    + right. apply Z.eqb_eq. exact E.
    + left. apply Z.ltb_lt. lia.
  - apply Z.ltb_lt. exact H2.
Qed.

(** [x] of a new node: [40 + Math.random() * 600] is in [[40, 640)]. *)
Lemma spawn_x r : unit_interval r -> within 40 640 (spawn r 600).
Proof.
  intros Hr.
  destruct (spawn_within r 600 640
              (600 * one_unit - 2 ^ 1031) (640 * one_unit - 2 ^ 1031) Hr)
    as (k & E & Hk); [vm_compute; reflexivity .. |].
  rewrite E. apply within_units; [vm_compute; reflexivity .. |]. exact Hk.
Qed.

(** [y] of a new node: [40 + Math.random() * 300] is in [[40, 340)]. *)
Lemma spawn_y r : unit_interval r -> within 40 340 (spawn r 300).
Proof.
  intros Hr.
  destruct (spawn_within r 300 340
              (300 * one_unit - 2 ^ 1030) (340 * one_unit - 2 ^ 1030) Hr)
    as (k & E & Hk); [vm_compute; reflexivity .. |].
  rewrite E. apply within_units; [vm_compute; reflexivity .. |]. exact Hk.
Qed.

End Spawn.

(** ** Strings and own properties *)

Section Properties.

Lemma str_eqb_eq a b : str_eqb a b = true <-> a = b.
Proof.
  revert b. induction a as [|x a IH]; intros [|y b]; simpl;
    try (split; [discriminate | discriminate]); [tauto|].
  rewrite andb_true_iff, N.eqb_eq, IH.
  split; [intros [-> ->]; reflexivity | intros E; inversion E; auto].
Qed.

Lemma str_eqb_refl a : str_eqb a a = true.
Proof. apply str_eqb_eq. reflexivity. Qed.

Lemma str_eqb_neq a b : str_eqb a b = false <-> a <> b.
Proof.
  rewrite <- str_eqb_eq. destruct (str_eqb a b); split; congruence.
Qed.

Lemma str_eqb_sym a b : str_eqb a b = str_eqb b a.
Proof.
  destruct (str_eqb a b) eqn:E.
  - apply str_eqb_eq in E. subst. symmetry. apply str_eqb_refl.
  - symmetry. apply str_eqb_neq. apply str_eqb_neq in E. congruence.
Qed.

Lemma has_key_lookup k o : has_key k o = false <-> lookup k o = None.
Proof.
  induction o as [|[k' v] o IH]; simpl; [tauto|].
  destruct (str_eqb k' k); simpl; [split; discriminate | exact IH].
Qed.

Lemma lookup_replace k k' v o :
  lookup k' o <> None ->
  lookup k (replace k' v o) = if str_eqb k' k then Some v else lookup k o.
Proof.
  induction o as [|[k0 v0] o IH]; simpl; [congruence|].
  intros H. destruct (str_eqb k0 k') eqn:E0.
  - apply str_eqb_eq in E0. subst k0. simpl.
    destruct (str_eqb k' k); reflexivity.
  - simpl. specialize (IH H).
    destruct (str_eqb k0 k) eqn:E1; [|exact IH].
    apply str_eqb_eq in E1. subst k0. now rewrite (str_eqb_sym k' k), E0.
Qed.

Lemma lookup_insert_index k i k' v o :
  lookup k' o = None ->
  lookup k (insert_index i k' v o) =
  if str_eqb k' k then Some v else lookup k o.
Proof.
  induction o as [|[k0 v0] o IH]; simpl; intros H.
  - reflexivity.
  - destruct (str_eqb k0 k') eqn:E0; [discriminate|].
    assert (G : lookup k ((k', v) :: (k0, v0) :: o) =
                if str_eqb k' k then Some v
                else if str_eqb k0 k then Some v0 else lookup k o)
      by reflexivity.
    destruct (array_index k0) as [j|]; [|exact G].
    destruct (j <? i); [|exact G].
    simpl. rewrite (IH H).
    destruct (str_eqb k0 k) eqn:E1; [|reflexivity].
    apply str_eqb_eq in E1. subst k0. now rewrite (str_eqb_sym k' k), E0.
Qed.

Lemma lookup_app_one k k' v o :
  lookup k' o = None ->
  lookup k (o ++ [(k', v)]) = if str_eqb k' k then Some v else lookup k o.
Proof.
  induction o as [|[k0 v0] o IH]; simpl; intros H; [reflexivity|].
  destruct (str_eqb k0 k') eqn:E0; [discriminate|].
  rewrite (IH H).
  destruct (str_eqb k0 k) eqn:E1; [|reflexivity].
  apply str_eqb_eq in E1. subst k0. now rewrite (str_eqb_sym k' k), E0.
Qed.

(** Defining a property sets that key and no other. *)
Lemma lookup_define_property k o k' v :
  lookup k (define_property o k' v) =
  if str_eqb k' k then Some v else lookup k o.
Proof.
  unfold define_property. destruct (lookup k' o) eqn:E.
  - apply lookup_replace. congruence.
  - destruct (array_index k').
    + now apply lookup_insert_index.
    + now apply lookup_app_one.
Qed.

Lemma lookup_define_all k kvs : forall o,
  distinct_keys kvs = true ->
  lookup k (define_all o kvs) =
  match lookup k kvs with
  | Some v => Some v
  | None => lookup k o
  end.
Proof.
  induction kvs as [|[k1 v1] kvs IH]; intros o D; simpl in *; [reflexivity|].
  apply andb_true_iff in D. destruct D as [D1 D2].
  unfold define_all in *. simpl. rewrite (IH _ D2).
  rewrite lookup_define_property.
  destruct (str_eqb k1 k) eqn:E; [|reflexivity].
  apply str_eqb_eq in E. subst k1.
  apply negb_true_iff, has_key_lookup in D1. now rewrite D1.
Qed.

(** The fields of [{ ...n, ...patch }] for a node and an object patch. *)
Lemma get_spread o p k :
  distinct_keys o = true -> distinct_keys p = true ->
  get (spread (VObj o) (VObj p)) k = patched p (VObj o) k.
Proof.
  intros Do Dp. unfold spread, patched. simpl.
  rewrite (lookup_define_all k p _ Dp), (lookup_define_all k o [] Do).
  simpl. destruct (lookup k p); [reflexivity|].
  destruct (lookup k o); reflexivity.
Qed.

Lemma trim_empty : trim [] = [].
Proof. reflexivity. Qed.

Lemma is_empty_true s : is_empty s = true <-> s = [].
Proof. destruct s; simpl; split; congruence. Qed.

End Properties.

(** ** Decimal digits *)

Section Decimal.

Lemma undigits_from a l :
  fold_left (fun a d => 10 * a + d) l a =
  a * 10 ^ Z.of_nat (List.length l) + undigits l.
Proof.
  revert a.
  induction l as [|d l IH]; intros a; cbn [fold_left].
  - unfold undigits. simpl. lia.
  - change (undigits (d :: l))
      with (fold_left (fun a d => 10 * a + d) l (10 * 0 + d)).
    rewrite IH, (IH (10 * 0 + d)).
    replace (Z.of_nat (List.length (d :: l)))
      with (Z.succ (Z.of_nat (List.length l)))
      by (simpl List.length; lia).
    rewrite Z.pow_succ_r by lia. ring.
Qed.

Lemma undigits_app a b :
  undigits (a ++ b) = undigits a * 10 ^ Z.of_nat (List.length b) + undigits b.
Proof.
  unfold undigits at 1. rewrite fold_left_app.
  fold (undigits a). apply undigits_from.
Qed.

Lemma undigits_zeros n : undigits (zeros n) = 0.
Proof.
  unfold zeros. induction (Z.to_nat n) as [|m IH]; [reflexivity|].
  change (repeat 0 (S m)) with ([0] ++ repeat 0 m).
  rewrite undigits_app, IH. reflexivity.
Qed.

Lemma length_zeros n : 0 <= n -> Z.of_nat (List.length (zeros n)) = n.
Proof. intros H. unfold zeros. rewrite repeat_length. lia. Qed.

Lemma digits_fuel_acc f : forall n acc,
  digits_fuel f n acc = digits_fuel f n [] ++ acc.
Proof.
  induction f as [|f IH]; intros n acc; simpl; [reflexivity|].
  destruct (n <? 10); [reflexivity|].
  rewrite (IH (n / 10) (n mod 10 :: acc)), (IH (n / 10) [n mod 10]).
  rewrite <- app_assoc. reflexivity.
Qed.

Lemma undigits_digits_fuel f : forall n,
  0 <= n < 10 ^ Z.of_nat f -> undigits (digits_fuel f n []) = n.
Proof.
  induction f as [|f IH]; intros n Hn.
  - change (10 ^ Z.of_nat 0) with 1 in Hn.
    change (undigits (digits_fuel 0 n [])) with 0. lia.
  - simpl digits_fuel. destruct (Z.ltb_spec n 10) as [L|G].
    + change (undigits [n]) with (10 * 0 + n). lia.
    + rewrite digits_fuel_acc, undigits_app.
      rewrite Nat2Z.inj_succ, Z.pow_succ_r in Hn by lia.
      rewrite IH.
      * change (undigits [n mod 10]) with (10 * 0 + n mod 10).
        simpl List.length. pose proof (Z.div_mod n 10 ltac:(lia)). lia.
      * split; [apply Z.div_pos; lia|].
        apply Z.div_lt_upper_bound; lia.
Qed.

Lemma digits_fuel_enough n : 0 <= n -> n < 10 ^ Z.of_nat (S (Z.to_nat (Z.log2 n))).
Proof.
  intros Hn. destruct (Z.eq_dec n 0) as [->|N0].
  - simpl. lia.
  - pose proof (Z.log2_nonneg n) as L0.
    rewrite Nat2Z.inj_succ, Z2Nat.id by lia.
    apply Z.lt_le_trans with (2 ^ Z.succ (Z.log2 n)).
    + apply Z.log2_spec. lia.
    + apply Z.pow_le_mono_l. lia.
Qed.

(** [digits] and [undigits] are inverse. *)
Lemma undigits_digits n : 0 <= n -> undigits (digits n) = n.
Proof.
  intros Hn. unfold digits. apply undigits_digits_fuel.
  split; [lia | now apply digits_fuel_enough].
Qed.

Definition is_digit (d : Z) : Prop := 0 <= d < 10.

Lemma digits_fuel_range f : forall n,
  0 <= n -> Forall is_digit (digits_fuel f n []).
Proof.
  induction f as [|f IH]; intros n Hn; simpl; [constructor|].
  destruct (Z.ltb_spec n 10) as [L|G].
  - constructor; [split; lia | constructor].
  - rewrite digits_fuel_acc. apply Forall_app. split.
    + apply IH. apply Z.div_pos; lia.
    + constructor; [|constructor]. apply Z.mod_pos_bound. lia.
Qed.

Lemma digits_range n : 0 <= n -> Forall is_digit (digits n).
Proof. intros Hn. now apply digits_fuel_range. Qed.

Lemma digits_fuel_head f : forall n,
  0 < n < 10 ^ Z.of_nat f ->
  exists d ds, digits_fuel f n [] = d :: ds /\ 0 < d.
Proof.
  induction f as [|f IH]; intros n Hn.
  - simpl in Hn. lia.
  - simpl digits_fuel. destruct (Z.ltb_spec n 10) as [L|G].
    + exists n, []. split; [reflexivity | lia].
    + rewrite Nat2Z.inj_succ, Z.pow_succ_r in Hn by lia.
      destruct (IH (n / 10)) as (d & ds & E & Hd).
      * split; [apply Z.div_str_pos; lia|].
        apply Z.div_lt_upper_bound; lia.
      * rewrite digits_fuel_acc, E. exists d, (ds ++ [n mod 10]).
        split; [reflexivity | exact Hd].
Qed.

(** The digits of a positive number start with a digit that is not 0. *)
Lemma digits_head n :
  0 < n -> exists d ds, digits n = d :: ds /\ 0 < d.
Proof.
  intros Hn. unfold digits. apply digits_fuel_head.
  split; [lia | apply digits_fuel_enough; lia].
Qed.

Lemma digits_nonempty n : digits n <> [].
Proof.
  unfold digits. simpl. destruct (n <? 10); [discriminate|].
  rewrite digits_fuel_acc. destruct (digits_fuel _ _ []); discriminate.
Qed.

Lemma char_digit_digit_char d :
  is_digit d -> char_digit (digit_char d) = Some d.
Proof.
  intros [H0 H1]. unfold char_digit, digit_char.
  assert (E : Z.of_N (Z.to_N (48 + d)) = 48 + d) by (apply Z2N.id; lia).
  assert (B : ((48 <=? Z.to_N (48 + d)) && (Z.to_N (48 + d) <=? 57))%N
              = true).
  { apply andb_true_iff. split; apply N.leb_le; lia. }
  rewrite B, E. f_equal. lia.
Qed.

Definition no_digit_ahead (rest : jsstring) : Prop :=
  match rest with
  | [] => True
  | c :: _ => char_digit c = None
  end.

Lemma take_digits_none rest :
  no_digit_ahead rest -> take_digits rest = ([], rest).
Proof.
  destruct rest as [|c r]; simpl; [reflexivity|]. now intros ->.
Qed.

Lemma take_digits_chars ds rest :
  Forall is_digit ds -> no_digit_ahead rest ->
  take_digits (digit_chars ds ++ rest) = (ds, rest).
Proof.
  intros F R. induction F as [|d ds Hd F IH].
  - now apply take_digits_none.
  - change (digit_chars (d :: ds) ++ rest)
      with (digit_char d :: (digit_chars ds ++ rest)).
    cbn [take_digits].
    now rewrite (char_digit_digit_char d Hd), IH.
Qed.

Lemma number_ends_no_digit rest :
  number_ends rest = true -> no_digit_ahead rest.
Proof.
  destruct rest as [|c r]; simpl; [trivial|].
  intros H. apply negb_true_iff in H. unfold char_digit.
  destruct ((48 <=? c)%N && (c <=? 57)%N); [discriminate | reflexivity].
Qed.

End Decimal.

(** ** Numbers as text *)

Section NumberText.

Lemma pow10_pos x : 0 <= x -> 0 < 10 ^ x.
Proof. intros H. apply Z.pow_pos_nonneg; lia. Qed.

Lemma round_ratio_zero d : 0 < d -> round_ratio 0 d = 0.
Proof.
  intros Hd. apply (round_ratio_exact 0 d); [lia | exact Hd | reflexivity].
Qed.

(** The value [m * 10^e] does not depend on how it is split into digits
    and exponent. *)
Lemma dec_round_shift m e j :
  0 <= m -> 0 <= j -> dec_round (m * 10 ^ j) (e - j) = dec_round m e.
Proof.
  intros Hm Hj. unfold dec_round.
  pose proof one_unit_pos as HU. pose proof (pow10_pos j Hj) as Pj.
  destruct (Z.leb_spec 0 (e - j)) as [A|A];
    destruct (Z.leb_spec 0 e) as [B|B]; try lia.
  - f_equal. replace e with (j + (e - j)) at 2 by lia.
    rewrite Z.pow_add_r by lia. ring.
  - pose proof (pow10_pos (- (e - j)) ltac:(lia)) as P1.
    pose proof (pow10_pos e B) as P2.
    apply round_ratio_ext; try nia.
    replace j with (e + - (e - j)) at 1 by lia.
    rewrite Z.pow_add_r by lia. ring.
  - pose proof (pow10_pos (- (e - j)) ltac:(lia)) as P1.
    pose proof (pow10_pos (- e) ltac:(lia)) as P2.
    apply round_ratio_ext; try nia.
    replace (- (e - j)) with (j + - e) by lia.
    rewrite Z.pow_add_r by lia. ring.
Qed.

Lemma dec_round_zero e : dec_round 0 e = 0.
Proof.
  unfold dec_round. destruct (Z.leb_spec 0 e).
  - rewrite !Z.mul_0_l. apply round_ratio_zero. lia.
  - rewrite Z.mul_0_l. apply round_ratio_zero, pow10_pos. lia.
Qed.

Lemma scaled_floor_nonneg k e : 0 <= k -> 0 <= scaled_floor k e.
Proof.
  intros Hk. pose proof one_unit_pos. unfold scaled_floor.
  destruct (Z.leb_spec 0 e).
  - apply Z.div_pos; [lia|]. pose proof (pow10_pos e ltac:(lia)). nia.
  - apply Z.div_pos; [|lia]. pose proof (pow10_pos (- e) ltac:(lia)). nia.
Qed.

Lemma candidate_ok k e s :
  0 <= k -> candidate k e = Some s -> dec_round s e = k /\ 0 <= s.
Proof.
  intros Hk. unfold candidate.
  pose proof (scaled_floor_nonneg k e Hk) as L.
  set (lo := scaled_floor k e) in *. clearbody lo.
  destruct (Z.eqb_spec (dec_round lo e) k) as [E1|N1];
    destruct (Z.eqb_spec (dec_round (lo + 1) e) k) as [E2|N2];
    try destruct (half_way k lo e); try destruct (Z.even lo);
    try destruct (lo_is_nearer k lo e);
    intros H; try discriminate H; injection H as <-;
    (split; [assumption | lia]).
Qed.

Lemma exact_expansion k :
  0 <= k -> k mod 2 ^ shift_of k = 0 ->
  dec_round (k * 5 ^ 1074) (- 1074) = k.
Proof.
  intros Hk Hm. unfold dec_round.
  change (0 <=? - 1074) with false. cbv iota.
  change (- - 1074) with 1074.
  replace (k * 5 ^ 1074 * one_unit) with (k * 10 ^ 1074).
  - apply round_ratio_exact; [exact Hk | apply pow10_pos; lia | exact Hm].
  - unfold one_unit. change 10 with (5 * 2) at 1.
    rewrite Z.pow_mul_l. ring.
Qed.

Lemma shortest_from_ok k fuel : forall e s e',
  0 <= k -> k mod 2 ^ shift_of k = 0 ->
  shortest_from fuel k e = (s, e') -> dec_round s e' = k /\ 0 <= s.
Proof.
  induction fuel as [|fuel IH]; intros e s e' Hk Hm; simpl.
  - intros H. injection H as <- <-. split.
    + now apply exact_expansion.
    + assert (0 < 5 ^ 1074) by (apply Z.pow_pos_nonneg; lia). nia.
  - destruct (candidate k e) as [c|] eqn:C.
    + intros H. injection H as <- <-. now apply (candidate_ok k e).
    + apply IH; assumption.
Qed.

(** The digits that [Number::toString] chooses read back as the Number. *)
Lemma shortest_ok k s e :
  0 < k -> k mod 2 ^ shift_of k = 0 ->
  shortest k = (s, e) -> dec_round s e = k /\ 0 < s.
Proof.
  intros Hk Hm. unfold shortest.
  destruct (shortest_from 17 k (decimal_exponent k - 1)) as [s0 e0] eqn:E.
  destruct (shortest_from_ok k 17 _ s0 e0 ltac:(lia) Hm E) as [R S0].
  assert (P : 0 < s0).
  { destruct (Z.eq_dec s0 0) as [->|]; [|lia].
    rewrite dec_round_zero in R. lia. }
  destruct (Z.eqb_spec (s0 mod 10) 0) as [M|M]; intros H;
    injection H as <- <-.
  - pose proof (Z.div_mod s0 10 ltac:(lia)) as D. rewrite M in D.
    split; [|lia].
    rewrite <- R.
    replace e0 with (e0 + 1 - 1) at 2 by lia.
    replace s0 with (s0 / 10 * 10 ^ 1) at 2 by (change (10 ^ 1) with 10; lia).
    symmetry. apply dec_round_shift; lia.
  - split; assumption.
Qed.

Lemma digit_char_range d :
  is_digit d -> (48 <= digit_char d <= 57)%N.
Proof. intros [H0 H1]. unfold digit_char. lia. Qed.

Lemma parse_exp_text x rest :
  no_digit_ahead rest ->
  parse_exp (exponent_text x ++ rest) = Parsed x rest.
Proof.
  intros R. unfold exponent_text.
  assert (T : take_digits (digit_chars (digits (Z.abs x)) ++ rest)
              = (digits (Z.abs x), rest)).
  { apply take_digits_chars; [apply digits_range; lia | exact R]. }
  pose proof (digits_nonempty (Z.abs x)) as NE.
  pose proof (undigits_digits (Z.abs x) ltac:(lia)) as U.
  destruct (Z.ltb_spec x 0) as [N|P].
  - change (parse_exp ((lit "e" ++ lit "-" ++
              digit_chars (digits (Z.abs x))) ++ rest))
      with (parse_exp_digits true
              (digit_chars (digits (Z.abs x)) ++ rest)).
    unfold parse_exp_digits. rewrite T.
    destruct (digits (Z.abs x)) as [|d ds]; [congruence|].
    f_equal. lia.
  - change (parse_exp ((lit "e" ++ lit "+" ++
              digit_chars (digits (Z.abs x))) ++ rest))
      with (parse_exp_digits false
              (digit_chars (digits (Z.abs x)) ++ rest)).
    unfold parse_exp_digits. rewrite T.
    destruct (digits (Z.abs x)) as [|d ds]; [congruence|].
    f_equal. lia.
Qed.

Lemma parse_exp_none rest :
  number_ends rest = true -> parse_exp rest = Parsed 0 rest.
Proof.
  destruct rest as [|c r]; [reflexivity|]. simpl.
  intros H. apply negb_true_iff in H.
  rewrite !orb_false_iff in H. destruct H as [[_ H1] H2].
  now rewrite H1, H2.
Qed.

Lemma parse_frac_none rest :
  match rest with [] => True | c :: _ => (c =? 46)%N = false end ->
  parse_frac rest = Parsed [] rest.
Proof. destruct rest as [|c r]; [reflexivity|]. simpl. now intros ->. Qed.

Lemma parse_frac_text fp rest :
  Forall is_digit fp -> fp <> [] -> no_digit_ahead rest ->
  parse_frac (fraction_text fp ++ rest) = Parsed fp rest.
Proof.
  intros F NE R. destruct fp as [|d fp]; [congruence|].
  change (parse_frac (fraction_text (d :: fp) ++ rest))
    with (match take_digits (digit_chars (d :: fp) ++ rest) with
          | ([], rest') => SyntaxError (unexpected rest')
          | (ds, rest') => Parsed ds rest'
          end).
  now rewrite (take_digits_chars _ _ F R).
Qed.

Lemma parse_int_text ip rest :
  Forall is_digit ip ->
  (ip = [0] \/ exists d ds, ip = d :: ds /\ 0 < d) ->
  no_digit_ahead rest ->
  parse_int (digit_chars ip ++ rest) = Parsed ip rest.
Proof.
  intros F [->|(d & ds & -> & Hd)] R; [reflexivity|].
  pose proof (take_digits_chars _ _ F R) as T.
  inversion F as [|? ? Dd _]; subst.
  unfold parse_int.
  change (digit_chars (d :: ds) ++ rest)
    with (digit_char d :: (digit_chars ds ++ rest)) in *.
  assert (N : (digit_char d =? 48)%N = false).
  { apply N.eqb_neq. unfold digit_char. destruct Dd. lia. }
  cbv beta iota. now rewrite N, T.
Qed.

Lemma parse_number_unsigned neg s :
  match s with [] => True | c :: _ => (c =? 45)%N = false end ->
  parse_number (sign_text neg ++ s) = parse_unsigned neg s.
Proof.
  intros H. destruct neg; [reflexivity|].
  unfold parse_number, sign_text. cbn [app].
  destruct s as [|c r]; [reflexivity|]. now rewrite H.
Qed.

(** A number literal is read as the Number nearest to its value. *)
Lemma parse_number_text neg ip fp x rest :
  Forall is_digit ip -> Forall is_digit fp ->
  (ip = [0] \/ exists d ds, ip = d :: ds /\ 0 < d) ->
  number_ends rest = true ->
  parse_number (sign_text neg ++ number_text ip fp x ++ rest) =
  Parsed
    (dec_to_number neg (undigits (ip ++ fp))
       (match x with Some x => x | None => 0 end
        - Z.of_nat (List.length fp))) rest.
Proof.
  intros Fi Ff Hi R.
  pose proof (number_ends_no_digit rest R) as R'.
  set (ex := match x with Some x => exponent_text x | None => [] end).
  assert (Rex : no_digit_ahead (ex ++ rest)).
  { unfold ex. destruct x; [reflexivity | exact R']. }
  assert (Rfr : no_digit_ahead (fraction_text fp ++ ex ++ rest)).
  { destruct fp; [exact Rex | reflexivity]. }
  assert (E : number_text ip fp x ++ rest
              = digit_chars ip ++ fraction_text fp ++ ex ++ rest).
  { unfold number_text. fold ex. now rewrite <- !app_assoc. }
  rewrite E. rewrite parse_number_unsigned.
  2:{ destruct Hi as [->|(d & ds & -> & Hd)]; [reflexivity|].
      inversion Fi as [|? ? Dd _]; subst.
      change (digit_chars (d :: ds) ++ fraction_text fp ++ ex ++ rest)
        with (digit_char d ::
              (digit_chars ds ++ fraction_text fp ++ ex ++ rest)).
      cbv beta iota.
      apply N.eqb_neq. pose proof (digit_char_range d Dd). lia. }
  unfold parse_unsigned.
  rewrite (parse_int_text ip _ Fi Hi Rfr).
  assert (PF : parse_frac (fraction_text fp ++ ex ++ rest)
               = Parsed fp (ex ++ rest)).
  { destruct fp as [|d fp'].
    - apply parse_frac_none. unfold ex. destruct x; [reflexivity|].
      destruct rest as [|c0 r0]; [exact I|]. simpl in R.
      apply negb_true_iff in R. rewrite !orb_false_iff in R. tauto.
    - apply parse_frac_text; [exact Ff | discriminate | exact Rex]. }
  rewrite PF.
  assert (PE : parse_exp (ex ++ rest)
               = Parsed (match x with Some x => x | None => 0 end) rest).
  { unfold ex. destruct x as [x|].
    - now apply parse_exp_text.
    - now apply parse_exp_none. }
  rewrite PE. reflexivity.
Qed.

Lemma undigits_nonneg ds : Forall is_digit ds -> 0 <= undigits ds.
Proof.
  intros F. unfold undigits.
  assert (G : forall a, 0 <= a ->
            0 <= fold_left (fun a d => 10 * a + d) ds a).
  { induction F as [|d ds [Hd _] F IH]; intros a Ha; cbn [fold_left].
    - exact Ha.
    - apply IH. lia. }
  apply G. lia.
Qed.

Lemma firstn_head {A} n (d : A) ds :
  (0 < n)%nat -> exists ds', firstn n (d :: ds) = d :: ds'.
Proof. destruct n; [lia|]. intros _. simpl. now eexists. Qed.

(** The text of steps 6 to 10 of Number::toString reads back as
    [s * 10^(n - k)]. *)
Lemma format_decimal_parse neg ds n rest :
  Forall is_digit ds -> (exists d ds', ds = d :: ds' /\ 0 < d) ->
  number_ends rest = true ->
  parse_number (sign_text neg ++ format_decimal ds n ++ rest) =
  Parsed (dec_to_number neg (undigits ds) (n - Z.of_nat (List.length ds)))
    rest.
Proof.
  intros F Hd R. pose proof (undigits_nonneg ds F) as U0.
  unfold format_decimal.
  set (k := Z.of_nat (List.length ds)).
  destruct ((k <=? n) && (n <=? 21)) eqn:C1.
  - apply andb_true_iff in C1. destruct C1 as [A B].
    apply Z.leb_le in A. apply Z.leb_le in B.
    replace (digit_chars (ds ++ zeros (n - k)))
      with (number_text (ds ++ zeros (n - k)) [] None)
      by (unfold number_text; cbn; now rewrite app_nil_r).
    rewrite parse_number_text; try assumption.
    + f_equal. unfold dec_to_number. f_equal.
      rewrite app_nil_r, undigits_app, undigits_zeros, length_zeros by lia.
      rewrite Z.add_0_r. cbn [List.length].
      replace (0 - Z.of_nat 0) with (n - k - (n - k)) by lia.
      apply dec_round_shift; lia.
    + apply Forall_app. split; [exact F|].
      unfold zeros. apply Forall_forall. intros z Hz.
      apply repeat_spec in Hz. subst. split; lia.
    + constructor.
    + right. destruct Hd as (d & ds' & -> & P).
      exists d, (ds' ++ zeros (n - k)). split; [reflexivity | exact P].
  - destruct ((0 <? n) && (n <=? 21)) eqn:C2.
    + apply andb_true_iff in C2. destruct C2 as [A B].
      apply Z.ltb_lt in A. apply Z.leb_le in B.
      assert (Hnk : n < k).
      { apply andb_false_iff in C1.
        destruct C1 as [C|C]; [apply Z.leb_gt in C | apply Z.leb_gt in C];
          lia. }
      assert (L : List.length (skipn (Z.to_nat n) ds)
                  = (List.length ds - Z.to_nat n)%nat) by apply length_skipn.
      assert (NE : skipn (Z.to_nat n) ds <> []).
      { intros E. rewrite E in L. simpl in L. unfold k in Hnk. lia. }
      replace (digit_chars (firstn (Z.to_nat n) ds) ++ lit "." ++
               digit_chars (skipn (Z.to_nat n) ds))
        with (number_text (firstn (Z.to_nat n) ds)
                (skipn (Z.to_nat n) ds) None).
      2:{ unfold number_text, fraction_text.
          destruct (skipn (Z.to_nat n) ds); [congruence|].
          now rewrite app_nil_r. }
      rewrite parse_number_text; try assumption.
      * rewrite firstn_skipn, L. f_equal. f_equal. unfold k in *. lia.
      * apply Forall_forall. intros z Hz.
        rewrite Forall_forall in F. apply F.
        rewrite <- (firstn_skipn (Z.to_nat n) ds). apply in_or_app. now left.
      * apply Forall_forall. intros z Hz.
        rewrite Forall_forall in F. apply F.
        rewrite <- (firstn_skipn (Z.to_nat n) ds). apply in_or_app. now right.
      * right. destruct Hd as (d & ds' & -> & P).
        destruct (firstn_head (Z.to_nat n) d ds' ltac:(lia)) as (t & ->).
        exists d, t. split; [reflexivity | exact P].
    + destruct ((-6 <? n) && (n <=? 0)) eqn:C3.
      * apply andb_true_iff in C3. destruct C3 as [A B].
        apply Z.ltb_lt in A. apply Z.leb_le in B.
        destruct Hd as (d & ds' & E & P).
        replace (lit "0." ++ digit_chars (zeros (- n) ++ ds))
          with (number_text [0] (zeros (- n) ++ ds) None).
        2:{ unfold number_text, fraction_text.
            destruct (zeros (- n) ++ ds) eqn:Z0.
            - apply app_eq_nil in Z0. destruct Z0. subst. discriminate.
            - now rewrite app_nil_r. }
        rewrite parse_number_text; try assumption.
        -- f_equal.
           change ([0] ++ zeros (- n) ++ ds) with (0 :: (zeros (- n) ++ ds)).
           change (undigits (0 :: (zeros (- n) ++ ds)))
             with (fold_left (fun a d => 10 * a + d) (zeros (- n) ++ ds)
                     (10 * 0 + 0)).
           change (10 * 0 + 0) with 0. fold (undigits (zeros (- n) ++ ds)).
           rewrite undigits_app, undigits_zeros, Z.mul_0_l, Z.add_0_l.
           rewrite length_app, Nat2Z.inj_add, length_zeros by lia.
           f_equal. fold k. lia.
        -- constructor; [split; lia | constructor].
        -- apply Forall_app. split; [|exact F].
           unfold zeros. apply Forall_forall. intros z Hz.
           apply repeat_spec in Hz. subst. split; lia.
        -- now left.
      * destruct Hd as (d & ds' & E & P). subst ds.
        inversion F as [|? ? Dd F']; subst.
        set (t := lit "e" ++ (if n - 1 <? 0 then lit "-" else lit "+") ++
                  digit_chars (digits (Z.abs (n - 1)))).
        destruct ds' as [|d2 ds2].
        -- replace (digit_chars [d] ++ t)
             with (number_text [d] [] (Some (n - 1))) by reflexivity.
           rewrite parse_number_text; try assumption.
           ++ f_equal. f_equal. subst k. cbn [List.length]. lia.
           ++ right. exists d, []. split; [reflexivity | exact P].
        -- replace (digit_chars [d] ++ lit "." ++
                    digit_chars (d2 :: ds2) ++ t)
             with (number_text [d] (d2 :: ds2) (Some (n - 1)))
             by reflexivity.
           rewrite parse_number_text; try assumption.
           ++ f_equal. f_equal. subst k. cbn [List.length]. lia.
           ++ constructor; [exact Dd | constructor].
           ++ right. exists d, []. split; [reflexivity | exact P].
Qed.

Lemma pack_below neg k :
  k < overflow_bound -> pack neg k = Fin (if neg then - k else k).
Proof.
  intros H. unfold pack.
  destruct (Z.leb_spec overflow_bound k); [lia | reflexivity].
Qed.

(** The text of a finite Number reads back as that Number. *)
Theorem number_roundtrip k rest :
  representable k -> number_ends rest = true ->
  parse_number (number_to_string (Fin k) ++ rest) = Parsed (Fin k) rest.
Proof.
  intros [Hb Hm] R. unfold number_to_string.
  assert (pos : forall neg j, 0 < j -> j < overflow_bound ->
            j mod 2 ^ shift_of j = 0 ->
            parse_number (sign_text neg ++ positive_to_string j ++ rest)
            = Parsed (Fin (if neg then - j else j)) rest).
  { intros neg j Hj Hjb Hjm. unfold positive_to_string.
    destruct (shortest j) as [s e] eqn:S.
    destruct (shortest_ok j s e Hj Hjm S) as [Rd Ps].
    rewrite format_decimal_parse.
    - f_equal. unfold dec_to_number.
      rewrite (undigits_digits s) by lia.
      replace (Z.of_nat (List.length (digits s)) + e
               - Z.of_nat (List.length (digits s))) with e by lia.
      rewrite Rd. now apply pack_below.
    - apply digits_range. lia.
    - now apply digits_head.
    - exact R. }
  destruct (Z.eqb_spec k 0) as [->|NZ].
  - change (lit "0" ++ rest)
      with (sign_text false ++ number_text [0] [] None ++ rest).
    rewrite parse_number_text; try assumption.
    + reflexivity.
    + constructor; [split; lia | constructor].
    + constructor.
    + now left.
  - destruct (Z.ltb_spec k 0) as [N|P].
    + rewrite Z.abs_neq in Hb, Hm by lia.
      rewrite <- app_assoc.
      change (lit "-") with (sign_text true).
      rewrite (pos true (- k)) by lia. f_equal. f_equal. lia.
    + rewrite Z.abs_eq in Hb, Hm by lia.
      change (positive_to_string k ++ rest)
        with (sign_text false ++ positive_to_string k ++ rest).
      rewrite (pos false k) by lia. reflexivity.
Qed.

(** Some texts of Numbers, as a JavaScript engine prints them. *)
Example three_tenths :
  number_to_string
    (num_add (dec_to_number false 1 (-1)) (dec_to_number false 2 (-1)))
  = lit "0.30000000000000004".
Proof. vm_compute. reflexivity. Qed.

Example ten_to_the_21 :
  number_to_string (dec_to_number false 1 21) = lit "1e+21".
Proof. vm_compute. reflexivity. Qed.

Example smallest_number : number_to_string (Fin 1) = lit "5e-324".
Proof. vm_compute. reflexivity. Qed.

(** [600.00018310546875] is half-way between two sixteen-digit decimals:
    the even one is written. *)
Example half_way_to_even :
  number_to_string (Fin (9830403 * 2 ^ 1060)) = lit "600.0001831054688".
Proof. vm_compute. reflexivity. Qed.

Example id_of_a_clock_reading : new_id 1761000000000 = lit "1761000000000".
Proof. vm_compute. reflexivity. Qed.

Example numbers_in_an_array :
  JSON_parse (lit "[1e400, -0, 2.50]")
  = Normal (VArr [vnum (Inf false); vnum (Fin 0);
                  vnum (dec_to_number false 25 (-1))]).
Proof. vm_compute. reflexivity. Qed.

End NumberText.

(** ** Strings as JSON text *)

Section StringText.

Lemma hex_value_hex_digit d :
  (d < 16)%N -> hex_value (hex_digit d) = Some d.
Proof.
  intros H. unfold hex_digit, hex_value.
  destruct (N.ltb_spec d 10) as [L|G].
  - replace ((48 <=? 48 + d) && (48 + d <=? 57))%N with true
      by (symmetry; apply andb_true_iff; split; apply N.leb_le; lia).
    f_equal. lia.
  - replace ((48 <=? 87 + d) && (87 + d <=? 57))%N with false
      by (symmetry; apply andb_false_iff; right; apply N.leb_gt; lia).
    replace ((97 <=? 87 + d) && (87 + d <=? 102))%N with true
      by (symmetry; apply andb_true_iff; split; apply N.leb_le; lia).
    f_equal. lia.
Qed.

(** An escape [\uXXXX] is read back as its code unit. *)
Lemma parse_unicode_escape c rest :
  (c < 65536)%N ->
  parse_string_body (unicode_escape c ++ rest)
  = push c (parse_string_body rest).
Proof.
  intros H. unfold unicode_escape.
  cbn [app parse_string_body].
  change (92 =? 34)%N with false. change (92 =? 92)%N with true.
  change (simple_escape 117) with (@None N).
  change (117 =? 117)%N with true. cbv iota.
  unfold hex4.
  assert (D0 : (c mod 16 < 16)%N) by (apply N.mod_lt; lia).
  assert (D1 : (c / 16 mod 16 < 16)%N) by (apply N.mod_lt; lia).
  assert (D2 : (c / 256 mod 16 < 16)%N) by (apply N.mod_lt; lia).
  assert (D3 : (c / 4096 mod 16 < 16)%N) by (apply N.mod_lt; lia).
  rewrite !hex_value_hex_digit by assumption.
  replace (c / 4096 mod 16 * 4096 + c / 256 mod 16 * 256
           + c / 16 mod 16 * 16 + c mod 16)%N with c; [reflexivity|].
  replace (c / 4096)%N with (c / 16 / 16 / 16)%N
    by (rewrite !N.Div0.div_div; reflexivity).
  replace (c / 256)%N with (c / 16 / 16)%N
    by (rewrite !N.Div0.div_div; reflexivity).
  pose proof (N.div_mod c 16 ltac:(lia)) as E0.
  pose proof (N.div_mod (c / 16) 16 ltac:(lia)) as E1.
  pose proof (N.div_mod (c / 16 / 16) 16 ltac:(lia)) as E2.
  assert (S3 : (c / 16 / 16 / 16 < 16)%N).
  { rewrite !N.Div0.div_div. apply N.Div0.div_lt_upper_bound; lia. }
  rewrite (N.mod_small _ _ S3) in *.
  set (m0 := (c mod 16)%N) in *. set (q0 := (c / 16)%N) in *.
  set (m1 := (q0 mod 16)%N) in *. set (q1 := (q0 / 16)%N) in *.
  set (m2 := (q1 mod 16)%N) in *. set (q2 := (q1 / 16)%N) in *.
  lia.
Qed.

Lemma parse_plain_unit c rest :
  (c =? 34)%N = false -> (c =? 92)%N = false -> (c <? 32)%N = false ->
  parse_string_body (c :: rest) = push c (parse_string_body rest).
Proof. intros A B C. cbn [parse_string_body]. now rewrite A, B, C. Qed.

Lemma parse_escape_unit c rest :
  is_high_surrogate c = false -> is_low_surrogate c = false ->
  parse_string_body (escape_unit c ++ rest)
  = push c (parse_string_body rest).
Proof.
  intros _ _. unfold escape_unit.
  destruct (N.eqb_spec c 8) as [->|N8]; [reflexivity|].
  destruct (N.eqb_spec c 9) as [->|N9]; [reflexivity|].
  destruct (N.eqb_spec c 10) as [->|N10]; [reflexivity|].
  destruct (N.eqb_spec c 12) as [->|N12]; [reflexivity|].
  destruct (N.eqb_spec c 13) as [->|N13]; [reflexivity|].
  destruct (N.eqb_spec c 34) as [->|N34]; [reflexivity|].
  destruct (N.eqb_spec c 92) as [->|N92]; [reflexivity|].
  destruct (N.ltb_spec c 32) as [L|G].
  - apply parse_unicode_escape. lia.
  - apply parse_plain_unit; [apply N.eqb_neq | apply N.eqb_neq
                            | apply N.ltb_ge]; assumption.
Qed.

Lemma surrogate_units c :
  is_high_surrogate c = true \/ is_low_surrogate c = true ->
  (c < 65536)%N /\ (c =? 34)%N = false /\ (c =? 92)%N = false /\
  (c <? 32)%N = false.
Proof.
  unfold is_high_surrogate, is_low_surrogate.
  intros [H|H]; apply andb_true_iff in H; destruct H as [A B];
    apply N.leb_le in A; apply N.leb_le in B;
    (split; [lia|]); (split; [apply N.eqb_neq; lia|]);
    (split; [apply N.eqb_neq; lia | apply N.ltb_ge; lia]).
Qed.

Lemma quote_body_parse_bounded n : forall s rest,
  (List.length s <= n)%nat ->
  parse_string_body (quote_body s ++ 34%N :: rest) = Parsed s rest.
Proof.
  induction n as [|n IH]; intros s rest Hn.
  - destruct s; [reflexivity | simpl in Hn; lia].
  - destruct s as [|c r]; [reflexivity|].
    simpl in Hn. cbn [quote_body].
    destruct (is_high_surrogate c) eqn:Hh.
    + destruct (surrogate_units c (or_introl Hh)) as (B & A1 & A2 & A3).
      destruct r as [|d r'].
      * rewrite parse_unicode_escape by exact B. reflexivity.
      * destruct (is_low_surrogate d) eqn:Hl.
        -- destruct (surrogate_units d (or_intror Hl))
             as (_ & D1 & D2 & D3).
           cbn [app].
           rewrite (parse_plain_unit c _ A1 A2 A3).
           rewrite (parse_plain_unit d _ D1 D2 D3).
           now rewrite (IH r' rest ltac:(simpl in Hn; lia)).
        -- rewrite <- app_assoc, parse_unicode_escape by exact B.
           now rewrite (IH (d :: r') rest ltac:(lia)).
    + destruct (is_low_surrogate c) eqn:Hl.
      * destruct (surrogate_units c (or_intror Hl)) as (B & _).
        rewrite <- app_assoc, parse_unicode_escape by exact B.
        now rewrite (IH r rest ltac:(lia)).
      * rewrite <- app_assoc, parse_escape_unit by assumption.
        now rewrite (IH r rest ltac:(lia)).
Qed.

(** QuoteJSONString followed by the string parser is the identity, for
    every sequence of code units. *)
Lemma quote_parse s rest :
  parse_string_body (quote_body s ++ 34%N :: rest) = Parsed s rest.
Proof. now apply (quote_body_parse_bounded (List.length s)). Qed.

End StringText.

(** ** Values as JSON text *)

Section ValueText.

Lemma to_json_array ind l :
  to_json ind (VArr l) = lit "[" ++ elements_text ind true l.
Proof.
  cbn [to_json]. f_equal.
  match goal with
  | |- ?f true l = _ =>
      enough (H : forall b, f b l = elements_text ind b l) by apply H
  end.
  induction l as [|x r IH]; intros b; [reflexivity|].
  cbn [elements_text]. now rewrite <- IH.
Qed.

Lemma to_json_object ind o :
  to_json ind (VObj o) = lit "{" ++ members_text ind true o.
Proof.
  cbn [to_json]. f_equal.
  match goal with
  | |- ?f true o = _ =>
      enough (H : forall b, f b o = members_text ind b o) by apply H
  end.
  induction o as [|[k x] r IH]; intros b; [reflexivity|].
  cbn [members_text]. rewrite <- !IH. reflexivity.
Qed.

Lemma json_safe_array l : json_safe (VArr l) = all_safe l.
Proof.
  reflexivity.
Qed.

Lemma json_safe_object o :
  json_safe (VObj o) = canonical o && all_safe_members o.
Proof.
  reflexivity.
Qed.

Lemma nesting_array l : nesting (VArr l) = S (deepest l).
Proof.
  reflexivity.
Qed.

Lemma nesting_object o : nesting (VObj o) = S (deepest_member o).
Proof.
  reflexivity.
Qed.

Lemma skip_space_app ws s :
  forallb is_json_space ws = true -> skip_space (ws ++ s) = skip_space s.
Proof.
  induction ws as [|c ws IH]; simpl; intros H; [reflexivity|].
  apply andb_true_iff in H. destruct H as [-> H]. now apply IH.
Qed.

Lemma skip_space_head c s :
  is_json_space c = false -> skip_space (c :: s) = c :: s.
Proof. intros H. simpl. now rewrite H. Qed.

Lemma has_key_app k a b : has_key k (a ++ b) = has_key k a || has_key k b.
Proof.
  induction a as [|[k0 v0] a IH]; simpl; [reflexivity|].
  now rewrite IH, orb_assoc.
Qed.

Lemma distinct_app_key acc k v rest :
  distinct_keys (acc ++ (k, v) :: rest) = true -> has_key k acc = false.
Proof.
  induction acc as [|[k0 v0] acc IH]; simpl; intros D; [reflexivity|].
  apply andb_true_iff in D. destruct D as [D0 D1].
  rewrite (IH D1), orb_false_r.
  apply negb_true_iff in D0. rewrite has_key_app in D0.
  apply orb_false_iff in D0. destruct D0 as [_ D0]. simpl in D0.
  apply orb_false_iff in D0. destruct D0 as [D0 _].
  now rewrite str_eqb_sym.
Qed.

Lemma ordered_app_precedes acc k v rest :
  ordered (acc ++ (k, v) :: rest) = true ->
  forallb (fun kv => key_precedes (fst kv) k) acc = true.
Proof.
  induction acc as [|[k0 v0] acc IH]; simpl; intros O; [reflexivity|].
  apply andb_true_iff in O. destruct O as [O0 O1].
  rewrite (IH O1), andb_true_r.
  rewrite forallb_app in O0. apply andb_true_iff in O0.
  destruct O0 as [_ O0]. simpl in O0.
  apply andb_true_iff in O0. tauto.
Qed.

Lemma insert_index_end i k v acc :
  array_index k = Some i ->
  forallb (fun kv => key_precedes (fst kv) k) acc = true ->
  insert_index i k v acc = acc ++ [(k, v)].
Proof.
  intros Ek. induction acc as [|[k0 v0] acc IH]; simpl; intros H;
    [reflexivity|].
  apply andb_true_iff in H. destruct H as [H0 H1].
  unfold key_precedes in H0. rewrite Ek in H0.
  destruct (array_index k0) as [j|]; [|discriminate].
  rewrite H0. now rewrite (IH H1).
Qed.

(** Defining the properties of an object in property order, one after the
    other, builds that object. *)
Lemma define_all_canonical rest : forall acc,
  canonical (acc ++ rest) = true -> define_all acc rest = acc ++ rest.
Proof.
  induction rest as [|[k v] rest IH]; intros acc C.
  - now rewrite app_nil_r.
  - assert (E : define_property acc k v = acc ++ [(k, v)]).
    { unfold canonical in C. apply andb_true_iff in C. destruct C as [D O].
      unfold define_property.
      pose proof (distinct_app_key _ _ _ _ D) as NK.
      apply has_key_lookup in NK. rewrite NK.
      destruct (array_index k) as [i|] eqn:Ek; [|reflexivity].
      apply insert_index_end; [exact Ek|].
      now apply (ordered_app_precedes acc k v rest). }
    unfold define_all in *. cbn [fold_left fst snd]. rewrite E.
    rewrite (IH (acc ++ [(k, v)])); rewrite <- app_assoc; [reflexivity|].
    exact C.
Qed.

Lemma parse_number_starts s x rest :
  parse_number s = Parsed x rest ->
  exists c r, s = c :: r /\ starts_number c = true.
Proof.
  destruct s as [|c r]; [discriminate|].
  intros H. exists c, r. split; [reflexivity|].
  unfold starts_number.
  destruct (N.eqb_spec c 45) as [->|N45]; [reflexivity|].
  unfold parse_number in H.
  replace (c =? 45)%N with false in H by (symmetry; now apply N.eqb_neq).
  unfold parse_int in H.
  destruct (N.eqb_spec c 48) as [->|N48]; [reflexivity|].
  cbn [take_digits] in H. unfold char_digit in H.
  destruct ((48 <=? c)%N && (c <=? 57)%N); [reflexivity|discriminate].
Qed.

Lemma starts_number_head c :
  starts_number c = true ->
  is_json_space c = false /\ (c =? 91)%N = false /\
  (c =? 123)%N = false /\ (c =? 34)%N = false /\ (c =? 93)%N = false.
Proof.
  unfold starts_number, is_json_space. intros H.
  apply orb_true_iff in H.
  assert (R : c = 45%N \/ (48 <= c <= 57)%N).
  { destruct H as [H|H]; [left; now apply N.eqb_eq|right].
    apply andb_true_iff in H. destruct H as [A B].
    apply N.leb_le in A. apply N.leb_le in B. lia. }
  repeat split; try (apply N.eqb_neq; lia).
  rewrite !orb_false_iff. repeat split; apply N.eqb_neq; lia.
Qed.

(** The text of a finite Number starts with a sign or a digit. *)
Lemma number_to_string_head k :
  representable k ->
  exists c r, number_to_string (Fin k) = c :: r /\ starts_number c = true.
Proof.
  intros Hk.
  pose proof (number_roundtrip k [] Hk eq_refl) as P.
  destruct (parse_number_starts _ _ _ P) as (c & r & E & S).
  destruct (number_to_string (Fin k)) as [|c' r']; [discriminate|].
  injection E as -> _. now exists c, r'.
Qed.

Lemma representableb_true k : representableb k = true -> representable k.
Proof.
  unfold representableb, representable. intros H.
  apply andb_true_iff in H. destruct H as [A B].
  apply Z.ltb_lt in A. apply Z.eqb_eq in B. now split.
Qed.

Lemma parse_value_skip d ws s :
  forallb is_json_space ws = true ->
  parse_value (S d) (ws ++ s) = parse_value (S d) s.
Proof. intros H. cbn [parse_value]. now rewrite skip_space_app. Qed.

(** A primitive is read back from its text. *)
Lemma parse_prim d p rest :
  json_safe (VPrim p) = true -> number_ends rest = true ->
  parse_value (S d) (to_json [] (VPrim p) ++ rest) = Parsed (VPrim p) rest.
Proof.
  intros S R. destruct p as [| |[|]|x|s]; try discriminate;
    try reflexivity.
  - destruct x as [| |k]; try discriminate.
    cbn [json_safe] in S. apply representableb_true in S.
    destruct (number_to_string_head k S) as (c & r & E & H).
    pose proof (number_roundtrip k rest S R) as P.
    cbn [to_json prim_to_json is_finite]. rewrite E in *.
    destruct (starts_number_head c H) as (A0 & A1 & A2 & A3 & _).
    cbn [parse_value app]. rewrite (skip_space_head c _ A0).
    rewrite A1, A2, A3, H.
    cbn [app] in P. now rewrite P.
  - cbn [to_json prim_to_json]. unfold quote.
    cbn [parse_value app skip_space]. cbv beta iota.
    change (is_json_space 34) with false. cbv iota.
    change (34 =? 91)%N with false. change (34 =? 123)%N with false.
    change (34 =? 34)%N with true. cbv iota.
    rewrite <- app_assoc. cbn [app].
    now rewrite quote_parse.
Qed.

Lemma json_safe_defined x : json_safe x = true -> is_undefined x = false.
Proof. destruct x as [[| | | |]| |]; simpl; congruence. Qed.

(** Every JSON text starts with a code unit that is no white space and
    closes no array or object. *)
Lemma to_json_head ind v :
  json_safe v = true ->
  exists c r, to_json ind v = c :: r /\ is_json_space c = false /\
              (c =? 93)%N = false /\ (c =? 125)%N = false.
Proof.
  intros S. destruct v as [p|l|o].
  - destruct p as [| |[|]|x|s]; try discriminate;
      try (eexists _, _; split; [reflexivity|]; repeat split).
    destruct x as [| |k]; try discriminate.
    cbn [json_safe] in S. apply representableb_true in S.
    destruct (number_to_string_head k S) as (c & r & E & H).
    exists c, r. cbn [to_json prim_to_json is_finite].
    split; [exact E|].
    destruct (starts_number_head c H) as (A0 & _ & _ & _ & A4).
    split; [exact A0|]. split; [exact A4|].
    unfold starts_number in H. apply N.eqb_neq. intros ->. discriminate.
  - rewrite to_json_array.
    eexists _, _; split; [reflexivity|]; repeat split.
  - rewrite to_json_object.
    eexists _, _; split; [reflexivity|]; repeat split.
Qed.

Lemma indent_space ind :
  forallb is_json_space ind = true ->
  forallb is_json_space (newline ++ ind ++ gap) = true.
Proof.
  intros H. rewrite !forallb_app, H. reflexivity.
Qed.

Lemma number_ends_elements ind l rest :
  number_ends (elements_text ind false l ++ rest) = true.
Proof. destruct l; reflexivity. Qed.

Lemma number_ends_members ind o rest :
  all_safe_members o = true ->
  number_ends (members_text ind false o ++ rest) = true.
Proof.
  destruct o as [|[k x] o]; [reflexivity|].
  cbn [all_safe_members members_text]. intros H.
  apply andb_true_iff in H. destruct H as [H _].
  now rewrite (json_safe_defined x H).
Qed.

(** What the main induction provides for the values one level down. *)
Definition reads_back (pv : jsstring -> parsed value) (ind : jsstring)
    (y : value) : Prop :=
  forall ws rest,
    forallb is_json_space ws = true -> number_ends rest = true ->
    pv (ws ++ to_json ind y ++ rest) = Parsed y rest.

Lemma elements_text_nil ind rest :
  elements_text ind false [] ++ rest = (newline ++ ind) ++ 93%N :: rest.
Proof. cbn [elements_text]. now rewrite <- !app_assoc. Qed.

Lemma elements_text_cons ind first y l rest :
  elements_text ind first (y :: l) ++ rest =
  (if first then [] else [44%N]) ++
  (newline ++ ind ++ gap) ++ to_json (ind ++ gap) y ++
  (elements_text ind false l ++ rest).
Proof.
  cbn [elements_text]. destruct first; now rewrite <- !app_assoc.
Qed.

Lemma members_text_nil ind rest :
  members_text ind false [] ++ rest = (newline ++ ind) ++ 125%N :: rest.
Proof. cbn [members_text]. now rewrite <- !app_assoc. Qed.

Lemma members_text_cons ind first k y o rest :
  json_safe y = true ->
  members_text ind first ((k, y) :: o) ++ rest =
  (if first then [] else [44%N]) ++
  (newline ++ ind ++ gap) ++
  34%N :: (quote_body k ++ 34%N :: 58%N :: 32%N ::
           (to_json (ind ++ gap) y ++
            (members_text ind false o ++ rest))).
Proof.
  intros Hy. cbn [members_text]. rewrite (json_safe_defined y Hy).
  unfold quote. destruct first; now rewrite <- !app_assoc.
Qed.

Lemma parse_elements_text pv ind rest :
  forallb is_json_space ind = true ->
  forall l n x,
    (forall y, In y (x :: l) -> reads_back pv (ind ++ gap) y) ->
    (List.length (x :: l) <= n)%nat ->
    parse_elements pv n
      ((newline ++ ind ++ gap) ++ to_json (ind ++ gap) x ++
       (elements_text ind false l ++ rest))
    = Parsed (x :: l) rest.
Proof.
  intros Hind. induction l as [|y l IH]; intros n x Hpv Hn;
    (destruct n as [|n]; [simpl in Hn; lia|]); cbn [parse_elements];
    rewrite (Hpv x (or_introl eq_refl)) by
      (try apply indent_space; try apply number_ends_elements; assumption).
  - rewrite elements_text_nil.
    rewrite (skip_space_app (newline ++ ind))
      by (rewrite forallb_app, Hind; reflexivity).
    reflexivity.
  - rewrite elements_text_cons. cbn [app skip_space].
    change (is_json_space 44) with false.
    cbv iota. change (44 =? 44)%N with true. cbv iota.
    rewrite IH; [reflexivity | | simpl in *; lia].
    intros z Hz. apply Hpv. now right.
Qed.

Lemma parse_members_text pv ind rest :
  forallb is_json_space ind = true ->
  forall o n k x,
    (forall kv, In kv ((k, x) :: o) -> reads_back pv (ind ++ gap) (snd kv)) ->
    all_safe_members ((k, x) :: o) = true ->
    (List.length ((k, x) :: o) <= n)%nat ->
    parse_members pv n
      ((newline ++ ind ++ gap) ++
       34%N :: (quote_body k ++ 34%N :: 58%N :: 32%N ::
                (to_json (ind ++ gap) x ++
                 (members_text ind false o ++ rest))))
    = Parsed ((k, x) :: o) rest.
Proof.
  intros Hind. induction o as [|[k' y] o IH]; intros n k x Hpv Hs Hn;
    (destruct n as [|n]; [simpl in Hn; lia|]); cbn [parse_members];
    rewrite (skip_space_app (newline ++ ind ++ gap))
      by (now apply indent_space);
    cbn [skip_space];
    change (is_json_space 34) with false; cbv iota;
    change (negb (34 =? 34)%N) with false; cbv iota;
    rewrite quote_parse; cbn [skip_space];
    change (is_json_space 58) with false; cbv iota;
    change (negb (58 =? 58)%N) with false; cbv iota;
    cbn [all_safe_members] in Hs; apply andb_true_iff in Hs;
    destruct Hs as [Hx Hs];
    match goal with
    | |- context [pv (32%N :: ?t)] => change (32%N :: t) with ([32%N] ++ t)
    end.
  - rewrite (Hpv (k, x) (or_introl eq_refl)); [|reflexivity|reflexivity].
    cbn [snd]. rewrite members_text_nil.
    rewrite (skip_space_app (newline ++ ind))
      by (rewrite forallb_app, Hind; reflexivity).
    reflexivity.
  - rewrite (Hpv (k, x) (or_introl eq_refl));
      [|reflexivity | now apply number_ends_members].
    cbn [snd]. pose proof Hs as Hs'. cbn [all_safe_members] in Hs'.
    apply andb_true_iff in Hs'. destruct Hs' as [Hy _].
    rewrite (members_text_cons ind false k' y o rest Hy).
    cbn [app skip_space]. change (is_json_space 44) with false.
    cbv iota. change (44 =? 44)%N with true. cbv iota.
    rewrite IH; [reflexivity | | exact Hs | simpl in *; lia].
    intros z Hz. apply Hpv. now right.
Qed.

Lemma elements_text_length ind l : forall first,
  (List.length l <= List.length (elements_text ind first l))%nat.
Proof.
  induction l as [|x l IH]; intros first; [simpl; lia|].
  cbn [elements_text]. rewrite !length_app.
  specialize (IH false). destruct first; simpl in *; lia.
Qed.

Lemma members_text_length ind o : forall first,
  all_safe_members o = true ->
  (List.length o <= List.length (members_text ind first o))%nat.
Proof.
  induction o as [|[k x] o IH]; intros first Hs; [simpl; lia|].
  cbn [all_safe_members] in Hs. apply andb_true_iff in Hs.
  destruct Hs as [Hx Hs].
  cbn [members_text]. rewrite (json_safe_defined x Hx), !length_app.
  specialize (IH false Hs). destruct first; simpl in *; lia.
Qed.

Lemma deepest_in y l : In y l -> (nesting y <= deepest l)%nat.
Proof.
  induction l as [|x l IH]; simpl; [tauto|].
  intros [->|H]; [lia|]. specialize (IH H). lia.
Qed.

Lemma deepest_member_in kv o :
  In kv o -> (nesting (snd kv) <= deepest_member o)%nat.
Proof.
  induction o as [|[k x] o IH]; simpl; [tauto|].
  intros [<-|H]; [simpl; lia|]. specialize (IH H). lia.
Qed.

Lemma all_safe_in y l : all_safe l = true -> In y l -> json_safe y = true.
Proof.
  induction l as [|x l IH]; simpl; [tauto|].
  intros H [->|Hy]; apply andb_true_iff in H; [tauto|].
  apply IH; tauto.
Qed.

Lemma all_safe_members_in kv o :
  all_safe_members o = true -> In kv o -> json_safe (snd kv) = true.
Proof.
  induction o as [|[k x] o IH]; simpl; [tauto|].
  intros H [<-|Hy]; apply andb_true_iff in H; [tauto|].
  apply IH; tauto.
Qed.

(** The parser reads every JSON-safe value back from its text, whatever
    the indentation and whatever white space comes before it. *)
Lemma parse_to_json d : forall v ind,
  (nesting v <= d)%nat -> json_safe v = true ->
  forallb is_json_space ind = true ->
  reads_back (parse_value d) ind v.
Proof.
  induction d as [|d IH]; intros v ind Hd Hs Hind ws rest Hws Hrest.
  - destruct v; simpl in Hd; lia.
  - rewrite (parse_value_skip d ws _ Hws).
    destruct v as [p|l|o].
    + now apply parse_prim.
    + rewrite to_json_array. rewrite nesting_array in Hd.
      rewrite json_safe_array in Hs.
      change (lit "[") with [91%N]. cbn [parse_value app skip_space].
      change (is_json_space 91) with false. cbv iota.
      change (91 =? 91)%N with true. cbv iota.
      destruct l as [|x l]; [reflexivity|].
      pose proof (elements_text_length ind (x :: l) true) as Len.
      assert (Hx : json_safe x = true)
        by (apply (all_safe_in x (x :: l) Hs); now left).
      destruct (to_json_head (ind ++ gap) x Hx) as (c & r & E & C0 & C1 & _).
      assert (Sk : skip_space (elements_text ind true (x :: l) ++ rest)
                   = c :: r ++ elements_text ind false l ++ rest).
      { rewrite elements_text_cons. cbn [app].
        rewrite (skip_space_app _ _ (indent_space ind Hind)), E.
        cbn [app]. now apply skip_space_head. }
      rewrite Sk, C1.
      rewrite (elements_text_cons ind true x l rest) at 2. cbn [app].
      rewrite parse_elements_text; [reflexivity | exact Hind | |].
      * intros y Hy. apply IH.
        -- pose proof (deepest_in y (x :: l) Hy). lia.
        -- now apply (all_safe_in y (x :: l)).
        -- rewrite forallb_app, Hind. reflexivity.
      * rewrite length_app. lia.
    + rewrite to_json_object. rewrite nesting_object in Hd.
      rewrite json_safe_object in Hs. apply andb_true_iff in Hs.
      destruct Hs as [Hc Hs].
      change (lit "{") with [123%N]. cbn [parse_value app skip_space].
      change (is_json_space 123) with false. cbv iota.
      change (123 =? 91)%N with false. change (123 =? 123)%N with true.
      cbv iota.
      destruct o as [|[k x] o]; [reflexivity|].
      pose proof (members_text_length ind ((k, x) :: o) true Hs) as Len.
      assert (Hx : json_safe x = true)
        by (apply (all_safe_members_in (k, x) ((k, x) :: o) Hs); now left).
      assert (Sk : skip_space (members_text ind true ((k, x) :: o) ++ rest)
                   = 34%N :: (quote_body k ++ 34%N :: 58%N :: 32%N ::
                       (to_json (ind ++ gap) x ++
                        (members_text ind false o ++ rest)))).
      { rewrite (members_text_cons ind true k x o rest Hx). cbn [app].
        rewrite (skip_space_app _ _ (indent_space ind Hind)).
        now apply skip_space_head. }
      rewrite Sk. change (34 =? 125)%N with false. cbv iota.
      rewrite (members_text_cons ind true k x o rest Hx) at 2. cbn [app].
      rewrite parse_members_text; [| exact Hind | | exact Hs |].
      * now rewrite (define_all_canonical ((k, x) :: o) [] Hc).
      * intros kv Hkv. apply IH.
        -- pose proof (deepest_member_in kv ((k, x) :: o) Hkv). lia.
        -- now apply (all_safe_members_in kv ((k, x) :: o)).
        -- rewrite forallb_app, Hind. reflexivity.
      * rewrite length_app. lia.
Qed.

Lemma nesting_le_length n : forall v ind,
  (nesting v <= n)%nat -> json_safe v = true ->
  (nesting v <= List.length (to_json ind v))%nat.
Proof.
  induction n as [|n IH]; intros v ind Hn Hs.
  - destruct v; simpl in Hn; lia.
  - destruct v as [p|l|o].
    + destruct (to_json_head ind (VPrim p) Hs) as (c & r & E & _).
      rewrite E. simpl. lia.
    + rewrite to_json_array, nesting_array in *.
      rewrite json_safe_array in Hs.
      change (lit "[") with [91%N]. cbn [app List.length].
      apply le_n_S.
      assert (G : forall first,
                (deepest l <= List.length (elements_text ind first l))%nat).
      { induction l as [|x l IHl]; intros first; [simpl; lia|].
        cbn [all_safe] in Hs. apply andb_true_iff in Hs.
        destruct Hs as [Hx Hl]. cbn [deepest] in Hn.
        cbn [elements_text deepest]. rewrite !length_app.
        specialize (IHl ltac:(lia) Hl false).
        specialize (IH x (ind ++ gap) ltac:(lia) Hx). lia. }
      apply G.
    + rewrite to_json_object, nesting_object in *.
      rewrite json_safe_object in Hs. apply andb_true_iff in Hs.
      destruct Hs as [_ Hs].
      change (lit "{") with [123%N]. cbn [app List.length].
      apply le_n_S.
      assert (G : forall first,
                (deepest_member o
                 <= List.length (members_text ind first o))%nat).
      { induction o as [|[k x] o IHo]; intros first; [simpl; lia|].
        cbn [all_safe_members] in Hs. apply andb_true_iff in Hs.
        destruct Hs as [Hx Ho]. cbn [deepest_member] in Hn.
        cbn [members_text deepest_member].
        rewrite (json_safe_defined x Hx), !length_app.
        specialize (IHo ltac:(lia) Ho false).
        specialize (IH x (ind ++ gap) ltac:(lia) Hx). lia. }
      apply G.
Qed.

(** [JSON.parse(JSON.stringify(v, null, 2))] is [v] for every JSON-safe
    value. *)
Theorem JSON_roundtrip v :
  json_safe v = true -> JSON_parse (to_json [] v) = Normal v.
Proof.
  intros Hs. unfold JSON_parse.
  pose proof (nesting_le_length (nesting v) v [] (le_n _) Hs) as Hn.
  pose proof (parse_to_json (S (List.length (to_json [] v))) v []
                ltac:(lia) Hs eq_refl [] [] eq_refl eq_refl) as P.
  cbn [app] in P. rewrite app_nil_r in P. now rewrite P.
Qed.

End ValueText.

(** ** The store operations *)

Section Store.

Lemma matches_has_id id n :
  nullish n = false -> has_id id n = Some (matches id n).
Proof.
  unfold matches, has_id.
  destruct n as [[| | | |]| |]; simpl; intros H;
    try discriminate; reflexivity.
Qed.

(** On an array without [undefined] and [null], the filter of
    [removeNode] is [filter]. *)
Lemma filter_nodes_filter id l :
  forallb (fun n => negb (nullish n)) l = true ->
  filter_nodes
    (fun n => match has_id id n with
              | Some b => Some (negb b)
              | None => None
              end) l
  = Some (filter (fun n => negb (matches id n)) l).
Proof.
  induction l as [|n l IH]; simpl; intros H; [reflexivity|].
  apply andb_true_iff in H. destruct H as [Hn Hl].
  apply negb_true_iff in Hn.
  rewrite (matches_has_id id n Hn), (IH Hl). reflexivity.
Qed.

(** ... and the map of [updateNode] is [map]. *)
Lemma map_nodes_map id patch l :
  forallb (fun n => negb (nullish n)) l = true ->
  map_nodes
    (fun n => match has_id id n with
              | Some true => Some (spread n patch)
              | Some false => Some n
              | None => None
              end) l
  = Some (map (fun n => if matches id n then spread n patch else n) l).
Proof.
  induction l as [|n l IH]; simpl; intros H; [reflexivity|].
  apply andb_true_iff in H. destruct H as [Hn Hl].
  apply negb_true_iff in Hn.
  rewrite (matches_has_id id n Hn), (IH Hl).
  destruct (matches id n); reflexivity.
Qed.

Lemma removeNode_filter id st :
  forallb (fun n => negb (nullish n)) (nodes st) = true ->
  removeNode id st =
  Some {| nodes := filter (fun n => negb (matches id n)) (nodes st);
          selectedId := if prim_strict_eq (selectedId st) id
                        then PNull else selectedId st;
          queryingAI := queryingAI st;
          alerts := alerts st |}.
Proof.
  intros H. unfold removeNode. rewrite (filter_nodes_filter id _ H).
  destruct (prim_strict_eq (selectedId st) id); reflexivity.
Qed.

Lemma filter_all_true {A} (f : A -> bool) l :
  (forall x, In x l -> f x = true) -> filter f l = l.
Proof.
  induction l as [|x l IH]; simpl; intros H; [reflexivity|].
  rewrite (H x (or_introl eq_refl)). f_equal. apply IH.
  intros y Hy. apply H. now right.
Qed.

Lemma is_node_readable l :
  forallb is_node l = true ->
  forallb (fun n => negb (nullish n)) l = true.
Proof.
  induction l as [|n l IH]; simpl; [reflexivity|].
  intros H. apply andb_true_iff in H. destruct H as [Hn Hl].
  rewrite (IH Hl), andb_true_r.
  destruct n as [p| |]; simpl in *; try reflexivity; discriminate.
Qed.

(** C3: [addNode(text)] changes nothing when the trimmed text is empty;
    otherwise the new node holds the trimmed text, its [x] is in
    [[40, 640)] and its [y] in [[40, 340)], it is put at the front of the
    collection, and the selection becomes its id. *)
Theorem addNode_spec text now rx ry st :
  unit_interval rx -> unit_interval ry ->
  (trim text = [] -> addNode text now rx ry st = st) /\
  (trim text <> [] ->
   exists x y,
     let node := make_node (vstr (new_id now)) (vstr (trim text))
                   (vnum x) (vnum y) in
     within 40 640 x /\ within 40 340 y /\
     nodes (addNode text now rx ry st) = node :: nodes st /\
     selectedId (addNode text now rx ry st) = PStr (new_id now) /\
     has_id (PStr (new_id now)) node = Some true /\
     queryingAI (addNode text now rx ry st) = queryingAI st /\
     alerts (addNode text now rx ry st) = alerts st).
Proof.
  intros Hx Hy. unfold addNode. split.
  - intros E. rewrite E. simpl. rewrite orb_true_r. reflexivity.
  - intros NE.
    assert (T : is_empty (trim text) = false).
    { destruct (is_empty (trim text)) eqn:E; [|reflexivity].
      apply is_empty_true in E. contradiction. }
    assert (T0 : is_empty text = false).
    { destruct text; [|reflexivity]. exfalso. apply NE. reflexivity. }
    rewrite T, T0. cbn [orb].
    exists (spawn rx 600), (spawn ry 300). cbn zeta.
    split; [apply spawn_x; assumption|].
    split; [apply spawn_y; assumption|].
    split; [reflexivity|]. split; [reflexivity|].
    split; [|split; reflexivity].
    unfold has_id, make_node, get. cbn [lookup].
    replace (str_eqb (lit "id") (lit "id")) with true by reflexivity.
    unfold vstr. cbn [strict_eq prim_strict_eq].
    now rewrite str_eqb_refl.
Qed.

(** C4: [removeNode(id)] keeps, in order, exactly the nodes whose id is
    not [id]; the selection becomes [null] if it was [id] and is left as it
    was otherwise; the collection is unchanged when no node has that id. *)
Theorem removeNode_spec id st :
  forallb (fun n => negb (nullish n)) (nodes st) = true ->
  exists st',
    removeNode id st = Some st' /\
    nodes st' = filter (fun n => negb (matches id n)) (nodes st) /\
    (forall n, In n (nodes st') -> has_id id n = Some false) /\
    (prim_strict_eq (selectedId st) id = true -> selectedId st' = PNull) /\
    (prim_strict_eq (selectedId st) id = false ->
     selectedId st' = selectedId st) /\
    ((forall n, In n (nodes st) -> has_id id n = Some false) ->
     nodes st' = nodes st).
Proof.
  intros H. rewrite (removeNode_filter id st H).
  eexists. split; [reflexivity|]. cbn [nodes selectedId].
  split; [reflexivity|]. split; [|split; [|split]].
  - intros n Hn. apply filter_In in Hn. destruct Hn as [Hin Hm].
    rewrite matches_has_id.
    + apply negb_true_iff in Hm. now rewrite Hm.
    + rewrite forallb_forall in H. specialize (H n Hin).
      now apply negb_true_iff in H.
  - intros E. now rewrite E.
  - intros E. now rewrite E.
  - intros Hno. apply filter_all_true. intros n Hn.
    unfold matches. now rewrite (Hno n Hn).
Qed.

(** C10: when several nodes carry the id, [removeNode(id)] removes every
    one of them: none is left, and the collection shrinks by their
    number. *)
Theorem removeNode_removes_all id st :
  forallb (fun n => negb (nullish n)) (nodes st) = true ->
  exists st',
    removeNode id st = Some st' /\
    (forall n, In n (nodes st') -> matches id n = false) /\
    (List.length (nodes st') + List.length (filter (matches id) (nodes st))
     = List.length (nodes st))%nat.
Proof.
  intros H. rewrite (removeNode_filter id st H).
  eexists. split; [reflexivity|]. cbn [nodes]. split.
  - intros n Hn. apply filter_In in Hn. destruct Hn as [_ Hm].
    now apply negb_true_iff in Hm.
  - clear H. induction (nodes st) as [|n l IH]; simpl; [reflexivity|].
    destruct (matches id n); simpl; lia.
Qed.

(** C5: [updateNode(id, patch)], for a patch with fields among [content],
    [x] and [y]: every node whose id is [id] gets the fields of the patch
    and keeps its other fields, its id among them; every other node is the
    same value at the same place; nothing changes when no node has the id.
    The content may be patched to the empty string. *)
Theorem updateNode_spec id patch st :
  is_patch patch = true ->
  forallb is_node (nodes st) = true ->
  exists st' p,
    patch = VObj p /\
    updateNode id patch st = Some st' /\
    selectedId st' = selectedId st /\
    Forall2
      (fun n n' =>
         if matches id n
         then (forall k, get n' k = patched p n k) /\
              get n' (lit "id") = get n (lit "id")
         else n' = n)
      (nodes st) (nodes st') /\
    ((forall n, In n (nodes st) -> has_id id n = Some false) ->
     nodes st' = nodes st) /\
    (lookup (lit "content") p = Some (vstr []) ->
     forall n', In n' (nodes st') -> matches id n' = true ->
       get n' (lit "content") = Some (vstr [])).
Proof.
  intros Hp Hn. destruct patch as [| |p]; try discriminate.
  simpl in Hp. apply andb_true_iff in Hp. destruct Hp as [Dp Kp].
  unfold updateNode.
  rewrite (map_nodes_map id (VObj p) _ (is_node_readable _ Hn)).
  eexists. exists p. split; [reflexivity|]. split; [reflexivity|].
  cbn [nodes selectedId setNodes]. split; [reflexivity|].
  assert (Hid : lookup (lit "id") p = None).
  { apply has_key_lookup. clear Dp.
    induction p as [|[k v] p IH]; [reflexivity|].
    simpl in Kp. apply andb_true_iff in Kp. destruct Kp as [K1 K2].
    simpl. rewrite (IH K2), orb_false_r.
    destruct (str_eqb k (lit "id")) eqn:E; [|reflexivity].
    apply str_eqb_eq in E. subst k. discriminate. }
  assert (F : forall n, In n (nodes st) -> matches id n = true ->
            (forall k, get (spread n (VObj p)) k = patched p n k) /\
            get (spread n (VObj p)) (lit "id") = get n (lit "id")).
  { intros n Hin _. rewrite forallb_forall in Hn. specialize (Hn n Hin).
    destruct n as [| |o]; try discriminate. simpl in Hn.
    split; [intros k; now apply get_spread|].
    rewrite (get_spread o p _ Hn Dp). unfold patched. now rewrite Hid. }
  split; [|split].
  - clear Hn. induction (nodes st) as [|n l IH]; simpl; constructor.
    + destruct (matches id n) eqn:M; [|reflexivity].
      apply F; [now left | exact M].
    + apply IH. intros m Hm. apply F. now right.
  - intros Hno. clear F Hn.
    induction (nodes st) as [|n l IH]; simpl; [reflexivity|].
    unfold matches at 1. rewrite (Hno n (or_introl eq_refl)).
    f_equal. apply IH. intros m Hm. apply Hno. now right.
  - intros Hc n' Hin' M'. apply in_map_iff in Hin'.
    destruct Hin' as (n & E & Hin).
    destruct (matches id n) eqn:M.
    + subst n'. destruct (F n Hin M) as [G _]. rewrite G.
      unfold patched. now rewrite Hc.
    + subst n'. congruence.
Qed.

End Store.

(** ** Concrete runs of the store operations *)

Section StoreRuns.

Lemma unit_interval_zero : unit_interval (Fin 0).
Proof.
  exists 0. split; [reflexivity|]. split.
  - split; vm_compute; reflexivity.
  - pose proof one_unit_pos. lia.
Qed.

Lemma unit_interval_half : unit_interval (Fin (2 ^ 1073)).
Proof.
  exists (2 ^ 1073). split; [reflexivity|]. split.
  - split; vm_compute; reflexivity.
  - split; [vm_compute; discriminate | vm_compute; reflexivity].
Qed.

(** Adding the idea [" Idea A "] to the empty store. *)
Lemma addNode_spec_witness :
  unit_interval (Fin 0) /\ unit_interval (Fin (2 ^ 1073)) /\
  exists x y,
    within 40 640 x /\ within 40 340 y /\
    nodes (addNode (lit " Idea A ") 1761000000000 (Fin 0) (Fin (2 ^ 1073))
             initial)
    = [make_node (vstr (new_id 1761000000000)) (vstr (lit "Idea A"))
         (vnum x) (vnum y)] /\
    selectedId (addNode (lit " Idea A ") 1761000000000 (Fin 0)
                  (Fin (2 ^ 1073)) initial)
    = PStr (new_id 1761000000000).
Proof.
  split; [exact unit_interval_zero|]. split; [exact unit_interval_half|].
  destruct (addNode_spec (lit " Idea A ") 1761000000000 (Fin 0)
              (Fin (2 ^ 1073)) initial unit_interval_zero
              unit_interval_half) as [_ H].
  destruct H as (x & y & Hx & Hy & Hn & Hs & _).
  - vm_compute. discriminate.
  - exists x, y. repeat split; try apply Hx; try apply Hy; assumption.
Defined.

(** Two nodes [A] (id 1) and [B] (id 2), [A] selected. *)
Definition two_nodes : state :=
  {| nodes :=
       [make_node (vstr (lit "1")) (vstr (lit "A"))
          (vnum (of_int 50)) (vnum (of_int 60));
        make_node (vstr (lit "2")) (vstr (lit "B"))
          (vnum (of_int 70)) (vnum (of_int 80))];
     selectedId := PStr (lit "1");
     queryingAI := false;
     alerts := [] |}.

(** Three nodes, two of which carry the id 7 (as after an import). *)
Definition twin_nodes : state :=
  {| nodes :=
       [make_node (vnum (of_int 7)) (vstr (lit "A"))
          (vnum (of_int 50)) (vnum (of_int 60));
        make_node (vstr (lit "2")) (vstr (lit "B"))
          (vnum (of_int 70)) (vnum (of_int 80));
        make_node (vnum (of_int 7)) (vstr (lit "C"))
          (vnum (of_int 90)) (vnum (of_int 10))];
     selectedId := PNull;
     queryingAI := false;
     alerts := [] |}.

(** Removing the selected node [A] leaves [B] and no selection. *)
Lemma removeNode_spec_witness :
  forallb (fun n => negb (nullish n)) (nodes two_nodes) = true /\
  exists st',
    removeNode (PStr (lit "1")) two_nodes = Some st' /\
    nodes st' = [make_node (vstr (lit "2")) (vstr (lit "B"))
                   (vnum (of_int 70)) (vnum (of_int 80))] /\
    selectedId st' = PNull.
Proof.
  split; [reflexivity|].
  destruct (removeNode_spec (PStr (lit "1")) two_nodes eq_refl)
    as (st' & E & F & _ & S & _).
  exists st'. split; [exact E|]. split.
  - rewrite F. reflexivity.
  - apply S. reflexivity.
Defined.

(** Removing the id 7 removes both nodes that carry it. *)
Lemma removeNode_removes_all_witness :
  forallb (fun n => negb (nullish n)) (nodes twin_nodes) = true /\
  exists st',
    removeNode (PNum (of_int 7)) twin_nodes = Some st' /\
    List.length (nodes st') = 1%nat.
Proof.
  split; [reflexivity|].
  destruct (removeNode_removes_all (PNum (of_int 7)) twin_nodes eq_refl)
    as (st' & E & _ & L).
  exists st'. split; [exact E|].
  replace (List.length (filter (matches (PNum (of_int 7)))
                          (nodes twin_nodes))) with 2%nat in L
    by (vm_compute; reflexivity).
  simpl in L. lia.
Defined.

(** Patching the content of [B] to the empty string. *)
Lemma updateNode_spec_witness :
  is_patch (VObj [(lit "content", vstr [])]) = true /\
  forallb is_node (nodes two_nodes) = true /\
  exists st',
    updateNode (PStr (lit "2")) (VObj [(lit "content", vstr [])]) two_nodes
    = Some st' /\
    forall n', In n' (nodes st') -> matches (PStr (lit "2")) n' = true ->
      get n' (lit "content") = Some (vstr []).
Proof.
  split; [reflexivity|]. split; [reflexivity|].
  destruct (updateNode_spec (PStr (lit "2"))
              (VObj [(lit "content", vstr [])]) two_nodes eq_refl eq_refl)
    as (st' & p & Ep & E & _ & _ & _ & C).
  exists st'. split; [exact E|].
  apply C. injection Ep as <-. reflexivity.
Defined.

End StoreRuns.

(** ** Ids and the invariants of the store *)

Section Invariants.

Lemma representable_int t : Z.abs t < 2 ^ 53 -> representable (t * one_unit).
Proof.
  intros Ht. pose proof one_unit_pos as HU. unfold representable.
  rewrite Z.abs_mul, (Z.abs_eq one_unit) by lia.
  split.
  - apply Z.lt_trans with (2 ^ 53 * one_unit); [nia|].
    vm_compute. reflexivity.
  - destruct (Z.eq_dec (Z.abs t) 0) as [->|NZ]; [reflexivity|].
    assert (P : 0 < Z.abs t) by lia.
    assert (L : Z.log2 (Z.abs t) < 53) by (apply Z.log2_lt_pow2; lia).
    pose proof (Z.log2_nonneg (Z.abs t)) as L0.
    unfold shift_of, one_unit. rewrite Z.log2_mul_pow2 by lia.
    set (h := Z.max 0 (1074 + Z.log2 (Z.abs t) - 52)).
    assert (Hh : 0 <= h <= 1074) by (unfold h; lia).
    replace (2 ^ 1074) with (2 ^ (1074 - h) * 2 ^ h)
      by (rewrite <- Z.pow_add_r by lia; f_equal; lia).
    rewrite Z.mul_assoc. apply Z.mod_mul.
    apply Z.pow_nonzero; lia.
Qed.

Lemma of_int_exact t : Z.abs t < 2 ^ 53 -> of_int t = Fin (t * one_unit).
Proof.
  intros Ht. pose proof one_unit_pos as HU.
  destruct (representable_int t Ht) as [Hb Hm].
  unfold of_int, round_to_number.
  destruct (Z.ltb_spec (t * one_unit) 0) as [N|P].
  - rewrite Z.abs_neq in Hb, Hm by lia.
    replace (- (t * one_unit)) with (- (t * one_unit) * 1) at 1 by ring.
    rewrite round_ratio_exact by lia.
    rewrite pack_below by lia. f_equal. lia.
  - rewrite Z.abs_eq in Hb, Hm by lia.
    replace (t * one_unit) with (t * one_unit * 1) at 1 by ring.
    rewrite round_ratio_exact by lia.
    now rewrite pack_below by lia.
Qed.

Lemma time_value_small t : Z.abs t <= max_time -> Z.abs t < 2 ^ 53.
Proof. unfold max_time. intros H. change (2 ^ 53) with 9007199254740992. lia. Qed.

(** Two clock readings with the same text are the same reading. *)
Lemma new_id_injective a b :
  Z.abs a <= max_time -> Z.abs b <= max_time ->
  new_id a = new_id b -> a = b.
Proof.
  intros Ha Hb E. unfold new_id in E.
  apply time_value_small in Ha. apply time_value_small in Hb.
  rewrite (of_int_exact a Ha), (of_int_exact b Hb) in E.
  pose proof (number_roundtrip (a * one_unit) []
                (representable_int a Ha) eq_refl) as Pa.
  pose proof (number_roundtrip (b * one_unit) []
                (representable_int b Hb) eq_refl) as Pb.
  rewrite E, Pb in Pa. injection Pa as Pa.
  pose proof one_unit_pos. nia.
Qed.

Lemma has_key_match k o :
  has_key k o = match lookup k o with Some _ => true | None => false end.
Proof.
  induction o as [|[k' v] o IH]; simpl; [reflexivity|].
  destruct (str_eqb k' k); [reflexivity | exact IH].
Qed.

Lemma has_key_define_property k o k' v :
  has_key k (define_property o k' v) = str_eqb k' k || has_key k o.
Proof.
  rewrite !has_key_match, lookup_define_property.
  destruct (str_eqb k' k); reflexivity.
Qed.

Lemma has_key_replace k k' v o : has_key k (replace k' v o) = has_key k o.
Proof.
  induction o as [|[k0 v0] o IH]; simpl; [reflexivity|].
  destruct (str_eqb k0 k'); simpl; [reflexivity | now rewrite IH].
Qed.

Lemma distinct_replace k v o :
  distinct_keys (replace k v o) = distinct_keys o.
Proof.
  induction o as [|[k0 v0] o IH]; simpl; [reflexivity|].
  destruct (str_eqb k0 k); simpl; [reflexivity|].
  now rewrite has_key_replace, IH.
Qed.

Lemma has_key_insert_index k i k' v o :
  has_key k (insert_index i k' v o) = str_eqb k' k || has_key k o.
Proof.
  induction o as [|[k0 v0] o IH]; simpl; [reflexivity|].
  destruct (array_index k0) as [j|]; [|reflexivity].
  destruct (j <? i); [|reflexivity].
  simpl. rewrite IH.
  destruct (str_eqb k0 k), (str_eqb k' k); reflexivity.
Qed.

Lemma distinct_insert_index i k v o :
  has_key k o = false -> distinct_keys o = true ->
  distinct_keys (insert_index i k v o) = true.
Proof.
  induction o as [|[k0 v0] o IH]; simpl; intros H D; [reflexivity|].
  apply orb_false_iff in H. destruct H as [H0 H1].
  apply andb_true_iff in D. destruct D as [D0 D1].
  assert (G : distinct_keys ((k, v) :: (k0, v0) :: o) = true).
  { simpl. now rewrite H0, H1, D0, D1. }
  destruct (array_index k0) as [j|]; [|exact G].
  destruct (j <? i); [|exact G].
  simpl. rewrite has_key_insert_index, (IH H1 D1).
  rewrite (str_eqb_sym k k0), H0. simpl.
  now rewrite D0.
Qed.

Lemma has_key_app_one k k' v o :
  has_key k (o ++ [(k', v)]) = has_key k o || str_eqb k' k.
Proof.
  induction o as [|[k0 v0] o IH]; simpl; [now rewrite orb_false_r|].
  rewrite IH. now rewrite orb_assoc.
Qed.

Lemma distinct_app_one k v o :
  has_key k o = false -> distinct_keys o = true ->
  distinct_keys (o ++ [(k, v)]) = true.
Proof.
  induction o as [|[k0 v0] o IH]; simpl; intros H D; [reflexivity|].
  apply orb_false_iff in H. destruct H as [H0 H1].
  apply andb_true_iff in D. destruct D as [D0 D1].
  rewrite has_key_app_one, (IH H1 D1).
  apply negb_true_iff in D0.
  now rewrite D0, (str_eqb_sym k k0), H0.
Qed.

(** Defining a property keeps the keys of an object distinct. *)
Lemma distinct_define_property o k v :
  distinct_keys o = true -> distinct_keys (define_property o k v) = true.
Proof.
  intros D. unfold define_property.
  destruct (lookup k o) eqn:L.
  - now rewrite distinct_replace.
  - apply has_key_lookup in L.
    destruct (array_index k).
    + now apply distinct_insert_index.
    + now apply distinct_app_one.
Qed.

Lemma distinct_define_all kvs : forall o,
  distinct_keys o = true -> distinct_keys (define_all o kvs) = true.
Proof.
  induction kvs as [|[k v] kvs IH]; intros o D; [exact D|].
  unfold define_all in *. simpl. apply IH.
  now apply distinct_define_property.
Qed.

Lemma patch_has_no_id p :
  forallb (fun kv => patch_key (fst kv)) p = true ->
  lookup (lit "id") p = None.
Proof.
  intros K. apply has_key_lookup.
  induction p as [|[k v] p IH]; [reflexivity|].
  simpl in K. apply andb_true_iff in K. destruct K as [K1 K2].
  simpl. rewrite (IH K2), orb_false_r.
  destruct (str_eqb k (lit "id")) eqn:E; [|reflexivity].
  apply str_eqb_eq in E. subst k. discriminate.
Qed.

Lemma NoDup_map_filter {A B} (f : A -> B) (p : A -> bool) l :
  NoDup (map f l) -> NoDup (map f (filter p l)).
Proof.
  induction l as [|x l IH]; simpl; intros H; [constructor|].
  inversion H as [|? ? Hx Hl]; subst.
  destruct (p x); [|now apply IH].
  simpl. constructor; [|now apply IH].
  intros Hin. apply Hx. apply in_map_iff in Hin.
  destruct Hin as (y & E & Hy). apply filter_In in Hy.
  apply in_map_iff. exists y. tauto.
Qed.

(** A node made by [addNode] at a time value [t <= last], possibly
    patched since. *)
Definition stamped (last : Z) (n : value) : Prop :=
  exists o t,
    n = VObj o /\ distinct_keys o = true /\
    lookup (lit "id") o = Some (vstr (new_id t)) /\
    Z.abs t <= max_time /\ t <= last.

Definition invariant (last : Z) (st : state) : Prop :=
  - max_time - 1 <= last /\
  Forall (stamped last) (nodes st) /\
  NoDup (map node_id (nodes st)) /\
  selection_ok st.

Lemma stamped_later last last' n :
  last <= last' -> stamped last n -> stamped last' n.
Proof.
  intros H (o & t & E & D & L & T & B).
  exists o, t. repeat split; try assumption; lia.
Qed.

Lemma stamped_is_node last l :
  Forall (stamped last) l -> forallb is_node l = true.
Proof.
  intros F. apply forallb_forall. intros n Hn.
  rewrite Forall_forall in F.
  destruct (F n Hn) as (o & t & -> & D & _). exact D.
Qed.

Lemma invariant_add text now rx ry last st :
  invariant last st -> last < now <= max_time ->
  invariant now (addNode text now rx ry st).
Proof.
  intros (B & F & N & S) [H1 H2]. unfold addNode.
  destruct (is_empty text || is_empty (trim text)).
  - split; [lia|]. split; [|split; assumption].
    eapply Forall_impl; [|exact F]. intros n. apply stamped_later. lia.
  - cbn [nodes selectedId setNodes setSelectedId].
    split; [lia|]. split; [|split].
    + constructor.
      * eexists _, now. split; [reflexivity|].
        split; [reflexivity|]. split; [reflexivity|].
        unfold max_time in *. lia.
      * eapply Forall_impl; [|exact F]. intros n. apply stamped_later. lia.
    + cbn [map]. constructor; [|exact N].
      intros Hin. apply in_map_iff in Hin. destruct Hin as (n & E & Hn).
      rewrite Forall_forall in F.
      destruct (F n Hn) as (o & t & -> & _ & L & T & Bt).
      unfold node_id, get in E. rewrite L in E.
      change (Some (vstr (new_id t)) = Some (vstr (new_id now))) in E.
      injection E as E.
      apply new_id_injective in E; unfold max_time in *; lia.
    + right. eexists. split; [left; reflexivity | reflexivity].
Qed.

Lemma node_id_spread last n p :
  stamped last n ->
  distinct_keys p = true ->
  forallb (fun kv => patch_key (fst kv)) p = true ->
  stamped last (spread n (VObj p)) /\
  node_id (spread n (VObj p)) = node_id n.
Proof.
  intros (o & t & -> & D & L & T & B) Dp Kp.
  pose proof (patch_has_no_id p Kp) as NoId.
  assert (G : forall k, get (spread (VObj o) (VObj p)) k
              = patched p (VObj o) k) by (intros; now apply get_spread).
  split.
  - eexists _, t. split; [reflexivity|].
    split; [apply distinct_define_all, distinct_define_all; reflexivity|].
    split; [|split; assumption].
    specialize (G (lit "id")). unfold patched in G.
    rewrite NoId in G. unfold spread, get in G. rewrite L in G.
    cbn [own_properties] in *.
    destruct (lookup (lit "id") (define_all (define_all [] o) p));
      [now injection G as -> | discriminate].
  - unfold node_id. rewrite G. unfold patched. now rewrite NoId.
Qed.

Lemma invariant_update id patch last st :
  invariant last st -> is_patch patch = true ->
  exists st', updateNode id patch st = Some st' /\ invariant last st'.
Proof.
  intros (B & F & N & S) P.
  destruct patch as [| |p]; try discriminate.
  simpl in P. apply andb_true_iff in P. destruct P as [Dp Kp].
  unfold updateNode.
  rewrite (map_nodes_map id (VObj p) _
             (is_node_readable _ (stamped_is_node _ _ F))).
  eexists. split; [reflexivity|].
  set (f := fun n => if matches id n then spread n (VObj p) else n).
  assert (Hf : forall n, stamped last n ->
            stamped last (f n) /\ node_id (f n) = node_id n).
  { intros n Hn. unfold f. destruct (matches id n); [|now split].
    now apply node_id_spread. }
  assert (Hids : map node_id (map f (nodes st)) = map node_id (nodes st)).
  { rewrite map_map. apply map_ext_in. intros n Hn.
    rewrite Forall_forall in F. now apply Hf, F. }
  unfold invariant. cbn [nodes selectedId setNodes].
  split; [exact B|]. split; [|split].
  - apply Forall_forall. intros m Hm. apply in_map_iff in Hm.
    destruct Hm as (n & <- & Hn). rewrite Forall_forall in F.
    now apply Hf, F.
  - now rewrite Hids.
  - destruct S as [S|(n & Hn & E)]; [now left|]. right.
    exists (f n). split; [now apply in_map|].
    rewrite Forall_forall in F. destruct (Hf n (F n Hn)) as [_ ->].
    exact E.
Qed.

Lemma invariant_remove id last st :
  invariant last st ->
  exists st', removeNode id st = Some st' /\ invariant last st'.
Proof.
  intros (B & F & N & S).
  rewrite (removeNode_filter id st
             (is_node_readable _ (stamped_is_node _ _ F))).
  eexists. split; [reflexivity|].
  unfold invariant. cbn [nodes].
  split; [exact B|]. split; [|split].
  - apply Forall_forall. intros n Hn. apply filter_In in Hn.
    rewrite Forall_forall in F. now apply F.
  - now apply NoDup_map_filter.
  - unfold selection_ok. cbn [nodes selectedId].
    destruct (prim_strict_eq (selectedId st) id) eqn:E; [now left|].
    destruct S as [S|(n & Hn & En)]; [now left|]. right.
    exists n. split; [|exact En].
    apply filter_In. split; [exact Hn|].
    unfold matches, has_id. unfold node_id in En. rewrite En.
    cbn [strict_eq]. now rewrite E.
Qed.

Lemma invariant_run l : forall last st,
  invariant last st ->
  clock_increasing last l = true -> patches_ok l = true ->
  exists st' last', run l st = Some st' /\ invariant last' st'.
Proof.
  induction l as [|a l IH]; intros last st I C P.
  - exists st, last. split; [reflexivity | exact I].
  - destruct a as [text now rx ry|id patch|id]; cbn [run step].
    + cbn [clock_increasing] in C. apply andb_true_iff in C.
      destruct C as [C C2]. apply andb_true_iff in C.
      destruct C as [C0 C1]. apply Z.ltb_lt in C0. apply Z.leb_le in C1.
      apply (IH now); [|exact C2 | exact P].
      apply invariant_add with (last := last); [exact I | lia].
    + cbn [patches_ok] in P. apply andb_true_iff in P.
      destruct P as [P0 P1].
      destruct (invariant_update id patch last st I P0) as (st' & E & I').
      rewrite E. now apply (IH last).
    + destruct (invariant_remove id last st I) as (st' & E & I').
      rewrite E. now apply (IH last).
Qed.

Lemma invariant_initial : invariant (- max_time - 1) initial.
Proof.
  split; [lia|]. split; [constructor|]. split; [constructor|].
  now left.
Qed.

Lemma node_id_spread_node n p :
  is_node n = true ->
  distinct_keys p = true ->
  forallb (fun kv => patch_key (fst kv)) p = true ->
  is_node (spread n (VObj p)) = true /\
  node_id (spread n (VObj p)) = node_id n.
Proof.
  destruct n as [| |o]; try discriminate. cbn [is_node]. intros D Dp Kp.
  split.
  - unfold spread. cbn [is_node].
    apply distinct_define_all, distinct_define_all. reflexivity.
  - unfold node_id. rewrite (get_spread o p _ D Dp). unfold patched.
    now rewrite (patch_has_no_id p Kp).
Qed.

(** The selection stays in the collection along every sequence, whatever
    the clock reads. *)
Lemma selection_run l : forall st,
  forallb is_node (nodes st) = true -> selection_ok st ->
  patches_ok l = true ->
  exists st',
    run l st = Some st' /\ forallb is_node (nodes st') = true /\
    selection_ok st'.
Proof.
  induction l as [|a l IH]; intros st F S P.
  - exists st. now repeat split.
  - destruct a as [text now rx ry|id patch|id]; cbn [run step].
    + apply IH; [| |exact P]; unfold addNode;
        destruct (is_empty text || is_empty (trim text)); try assumption.
      right. eexists. split; [left; reflexivity | reflexivity].
    + cbn [patches_ok] in P. apply andb_true_iff in P.
      destruct P as [P0 P1].
      destruct patch as [| |p]; try discriminate.
      cbn [is_patch] in P0. apply andb_true_iff in P0.
      destruct P0 as [Dp Kp].
      unfold updateNode.
      rewrite (map_nodes_map id (VObj p) _ (is_node_readable _ F)).
      set (f := fun n => if matches id n then spread n (VObj p) else n).
      assert (Hf : forall n, is_node n = true ->
                is_node (f n) = true /\ node_id (f n) = node_id n).
      { intros n Hn. unfold f. destruct (matches id n); [|now split].
        now apply node_id_spread_node. }
      rewrite forallb_forall in F.
      apply IH; [| |exact P1]; cbn [nodes selectedId setNodes].
      * apply forallb_forall. intros m Hm. apply in_map_iff in Hm.
        destruct Hm as (n & <- & Hn). now apply Hf, F.
      * destruct S as [S|(n & Hn & E)]; [now left|]. right.
        exists (f n). split; [now apply in_map|].
        destruct (Hf n (F n Hn)) as [_ ->]. exact E.
    + rewrite (removeNode_filter id st (is_node_readable _ F)).
      rewrite forallb_forall in F.
      apply IH; [| |exact P]; cbn [nodes selectedId].
      * apply forallb_forall. intros n Hn. apply filter_In in Hn.
        now apply F.
      * unfold selection_ok. cbn [nodes selectedId].
        destruct (prim_strict_eq (selectedId st) id) eqn:E; [now left|].
        destruct S as [S|(n & Hn & En)]; [now left|]. right.
        exists n. split; [|exact En].
        apply filter_In. split; [exact Hn|].
        unfold matches, has_id. unfold node_id in En. rewrite En.
        cbn [strict_eq]. now rewrite E.
Qed.

(** C1, as amended: along every sequence of add, remove and update
    operations from the empty store (updates patching [content], [x],
    [y]), no operation throws and the selection is [null] or the id of a
    node of the collection; the ids of the nodes stay pairwise distinct
    when every add reads a later clock value than the add before it. *)
Theorem store_invariant l :
  patches_ok l = true ->
  exists st,
    run l initial = Some st /\
    selection_ok st /\
    (clock_increasing (- max_time - 1) l = true ->
     NoDup (map node_id (nodes st))).
Proof.
  intros P.
  destruct (selection_run l initial eq_refl (or_introl eq_refl) P)
    as (st & E & _ & S).
  exists st. split; [exact E|]. split; [exact S|].
  intros C.
  destruct (invariant_run l _ _ invariant_initial C P)
    as (st2 & last & E2 & _ & _ & N & _).
  rewrite E in E2. now injection E2 as <-.
Qed.

(** Two ideas added one millisecond apart, the first then patched to an
    empty content, the second removed. *)
Definition short_session : list action :=
  [Add (lit "A") 1 (Fin 0) (Fin 0);
   Add (lit "B") 2 (Fin 0) (Fin 0);
   Update (PStr (lit "1")) (VObj [(lit "content", vstr [])]);
   Remove (PStr (lit "2"))].

Lemma store_invariant_witness :
  patches_ok short_session = true /\
  clock_increasing (- max_time - 1) short_session = true /\
  exists st,
    run short_session initial = Some st /\
    selection_ok st /\
    NoDup (map node_id (nodes st)).
Proof.
  split; [reflexivity|]. split; [reflexivity|].
  destruct (store_invariant short_session eq_refl) as (st & E & S & N).
  exists st. split; [exact E|]. split; [exact S|].
  apply N. reflexivity.
Defined.

(** C1 as stated does not hold: two ideas added at the same clock reading
    get the same id. *)
Lemma same_clock_same_id :
  ~ (forall l st,
       run l initial = Some st ->
       NoDup (map node_id (nodes st)) /\ selection_ok st).
Proof.
  intros H.
  destruct (H [Add (lit "A") 5 (Fin 0) (Fin 0);
               Add (lit "B") 5 (Fin 0) (Fin 0)] _ eq_refl) as [N _].
  cbn [run step addNode nodes setNodes setSelectedId map] in N.
  inversion N as [|? ? Hnot _]. apply Hnot. left. reflexivity.
Qed.

End Invariants.

(** ** Import *)

Section Importing.

Definition invalid_format : jsstring :=
  lit "Invalid file format: expected an array of nodes".

(** What [importJSON] does with a text that parses to an array: the array
    becomes the collection as it is; nothing on this path touches the
    selection, the flag or the alerts. *)
Lemma importJSON_array text parsed st :
  JSON_parse text = Normal (VArr parsed) ->
  nodes (importJSON (Some text) st) = parsed /\
  selectedId (importJSON (Some text) st) = selectedId st /\
  queryingAI (importJSON (Some text) st) = queryingAI st /\
  alerts (importJSON (Some text) st) = alerts st.
Proof.
  intros E. unfold importJSON. rewrite E. repeat split.
Qed.

(** The store after one idea was added at clock reading 1. *)
Definition one_idea : state :=
  addNode (lit "A") 1 (Fin 0) (Fin 0) initial.

(** C2: [importJSON] replaces the collection and misses the selection.
    The file [[]] imported into a store whose one node is selected: the
    collection is empty afterwards and [selectedId] is still the id of the
    node that is gone, where [removeNode] (l.56) clears the selection of a
    node that goes. *)
Theorem importJSON_dangling_selection :
  JSON_parse (lit "[]") = Normal (VArr []) /\
  nodes one_idea <> [] /\
  selectedId one_idea = PStr (new_id 1) /\
  nodes (importJSON (Some (lit "[]")) one_idea) = [] /\
  selectedId (importJSON (Some (lit "[]")) one_idea) = PStr (new_id 1) /\
  ~ selection_ok (importJSON (Some (lit "[]")) one_idea).
Proof.
  split; [reflexivity|]. split; [discriminate|]. split; [reflexivity|].
  destruct (importJSON_array (lit "[]") [] one_idea eq_refl)
    as (N & S & _).
  split; [exact N|]. split; [exact S|].
  intros [H|(n & Hn & _)].
  - rewrite S in H. discriminate H.
  - rewrite N in Hn. exact Hn.
Qed.

(** Hence not every import of an array ends with nothing selected. *)
Lemma importJSON_selection_not_cleared :
  ~ (forall text parsed st,
       JSON_parse text = Normal (VArr parsed) ->
       nodes (importJSON (Some text) st) = parsed /\
       selectedId (importJSON (Some text) st) = PNull).
Proof.
  intros H.
  destruct (H (lit "[]") [] one_idea eq_refl) as [_ S].
  vm_compute in S. discriminate S.
Qed.

(** C6: a text that parses to something other than an array raises the
    invalid-format alert, a text that does not parse raises an alert with
    the message of the SyntaxError; in both cases the collection (and the
    selection) stay as they were. *)
Theorem importJSON_rejects text st :
  (forall v, JSON_parse text = Normal v -> (forall l, v <> VArr l) ->
     nodes (importJSON (Some text) st) = nodes st /\
     selectedId (importJSON (Some text) st) = selectedId st /\
     alerts (importJSON (Some text) st) = alerts st ++ [invalid_format]) /\
  (forall message, JSON_parse text = Throw message ->
     nodes (importJSON (Some text) st) = nodes st /\
     selectedId (importJSON (Some text) st) = selectedId st /\
     alerts (importJSON (Some text) st) =
       alerts st ++ [lit "Failed to import: " ++ message]).
Proof.
  unfold importJSON. split.
  - intros v E Hv. rewrite E.
    destruct v as [p|l|o]; [repeat split | | repeat split].
    exfalso. exact (Hv l eq_refl).
  - intros m E. rewrite E. repeat split.
Qed.

(** An object at top level, and a text that breaks off. *)
Lemma importJSON_rejects_witness :
  JSON_parse (lit "{}") = Normal (VObj []) /\
  JSON_parse (lit "[1,") = Throw unexpected_end /\
  nodes (importJSON (Some (lit "{}")) two_nodes) = nodes two_nodes /\
  alerts (importJSON (Some (lit "{}")) two_nodes) = [invalid_format] /\
  nodes (importJSON (Some (lit "[1,")) two_nodes) = nodes two_nodes /\
  alerts (importJSON (Some (lit "[1,")) two_nodes) =
    [lit "Failed to import: " ++ unexpected_end].
Proof.
  assert (E1 : JSON_parse (lit "{}") = Normal (VObj []))
    by (vm_compute; reflexivity).
  assert (E2 : JSON_parse (lit "[1,") = Throw unexpected_end)
    by (vm_compute; reflexivity).
  split; [exact E1|]. split; [exact E2|].
  destruct (importJSON_rejects (lit "{}") two_nodes) as [A _].
  destruct (importJSON_rejects (lit "[1,") two_nodes) as [_ B].
  destruct (A (VObj []) E1 ltac:(discriminate)) as (N1 & _ & A1).
  destruct (B unexpected_end E2) as (N2 & _ & A2).
  repeat split; assumption.
Defined.

End Importing.

(** ** Expansion *)

Section Expansion.

Lemma js_plus_numbers x y :
  js_plus (vnum x) (vnum y) = Some (vnum (num_add x y)).
Proof. reflexivity. Qed.

(** A value with a numeric field is an object, hence truthy. *)
Lemma numeric_field_truthy node k x :
  get node k = Some (vnum x) -> truthy node = true.
Proof.
  destruct node as [[| | | |]| |]; simpl; try discriminate; reflexivity.
Qed.

(** C8: when the expansion of a node at [(x, y)] is fulfilled with the
    suggestion [s], a node at [(x + 120, y + 20)] is put at the front of
    the collection and selected; its content is [s], or the placeholder
    when [s] is falsy (no suggestion); the in-progress flag is cleared. *)
Theorem onAskAI_fulfilled node x y s now st :
  get node (lit "x") = Some (vnum x) ->
  get node (lit "y") = Some (vnum y) ->
  let st' := onAskAI_resume node (Fulfilled s) now st in
  nodes st' =
    make_node (vstr (new_id now))
      (if truthy s then s else vstr no_suggestion)
      (vnum (num_add x (of_int 120))) (vnum (num_add y (of_int 20)))
    :: nodes st /\
  selectedId st' = PStr (new_id now) /\
  queryingAI st' = false /\
  alerts st' = alerts st.
Proof.
  intros Hx Hy. cbn zeta. unfold onAskAI_resume, expansion_node.
  rewrite (numeric_field_truthy node (lit "x") x Hx).
  rewrite Hx, Hy, !js_plus_numbers. repeat split.
Qed.

(** The node [{id: 5, content: "Cats", x: 10, y: 10}]. *)
Definition cats : value :=
  make_node (vnum (of_int 5)) (vstr (lit "Cats"))
    (vnum (of_int 10)) (vnum (of_int 10)).

Lemma onAskAI_fulfilled_witness :
  get cats (lit "x") = Some (vnum (of_int 10)) /\
  get cats (lit "y") = Some (vnum (of_int 10)) /\
  find_node (PNum (of_int 5)) [cats] = Some cats /\
  nodes (onAskAI_resume cats (Fulfilled (vstr (lit "Cats as pets"))) 2
           (onAskAI_call cats (setNodes [cats] initial)))
  = [make_node (vstr (lit "2")) (vstr (lit "Cats as pets"))
       (vnum (of_int 130)) (vnum (of_int 30)); cats] /\
  nodes (onAskAI_resume cats (Fulfilled (vstr [])) 2
           (onAskAI_call cats (setNodes [cats] initial)))
  = [make_node (vstr (lit "2")) (vstr no_suggestion)
       (vnum (of_int 130)) (vnum (of_int 30)); cats].
Proof.
  assert (Hx : get cats (lit "x") = Some (vnum (of_int 10)))
    by reflexivity.
  assert (Hy : get cats (lit "y") = Some (vnum (of_int 10)))
    by reflexivity.
  split; [exact Hx|]. split; [exact Hy|].
  split; [vm_compute; reflexivity|].
  split.
  - destruct (onAskAI_fulfilled cats (of_int 10) (of_int 10)
                (vstr (lit "Cats as pets")) 2
                (onAskAI_call cats (setNodes [cats] initial)) Hx Hy)
      as (N & _).
    rewrite N. vm_compute. reflexivity.
  - destruct (onAskAI_fulfilled cats (of_int 10) (of_int 10)
                (vstr []) 2
                (onAskAI_call cats (setNodes [cats] initial)) Hx Hy)
      as (N & _).
    rewrite N. vm_compute. reflexivity.
Defined.

(** C9: when the expansion call for a node is rejected, no node is
    created (the collection and the selection are as they were), the
    in-progress flag that the call had set is false again, and one alert
    is raised. *)
Theorem onAskAI_rejected node e now st :
  truthy node = true ->
  queryingAI (onAskAI_call node st) = true /\
  forall st1,
    let st' := onAskAI_resume node (Rejected e) now st1 in
    nodes st' = nodes st1 /\
    selectedId st' = selectedId st1 /\
    queryingAI st' = false /\
    alerts st' = alerts st1 ++ [lit "AI request failed: " ++ error_text e].
Proof.
  intros T. split.
  - unfold onAskAI_call. now rewrite T.
  - intros st1. cbn zeta. unfold onAskAI_resume. rewrite T. repeat split.
Qed.

(** The expansion of [cats] fails with a network error. *)
Lemma onAskAI_rejected_witness :
  truthy cats = true /\
  nodes (onAskAI_resume cats
           (Rejected (mkError (lit "TypeError") (lit "Failed to fetch"))) 2
           (onAskAI_call cats (setNodes [cats] initial))) = [cats] /\
  queryingAI (onAskAI_resume cats
           (Rejected (mkError (lit "TypeError") (lit "Failed to fetch"))) 2
           (onAskAI_call cats (setNodes [cats] initial))) = false /\
  alerts (onAskAI_resume cats
           (Rejected (mkError (lit "TypeError") (lit "Failed to fetch"))) 2
           (onAskAI_call cats (setNodes [cats] initial)))
  = [lit "AI request failed: Failed to fetch"].
Proof.
  split; [reflexivity|].
  destruct (onAskAI_rejected cats
              (mkError (lit "TypeError") (lit "Failed to fetch")) 2
              (setNodes [cats] initial) eq_refl) as [_ H].
  destruct (H (onAskAI_call cats (setNodes [cats] initial)))
    as (N & _ & Q & A).
  split; [rewrite N; reflexivity|]. split; [exact Q|].
  rewrite A. reflexivity.
Defined.

End Expansion.

(** ** Export followed by import *)

Section ExportImport.

(** C7, as amended: for every collection of JSON-safe values (strings,
    booleans, [null], finite Numbers, arrays and objects of these),
    importing the exported text gives back the collection, value for value
    and in the same order. *)
Theorem export_import st st' :
  all_safe (nodes st) = true ->
  nodes (importJSON (Some (exportJSON st)) st') = nodes st.
Proof.
  intros Hs. unfold importJSON, exportJSON.
  cbn [JSON_stringify is_undefined].
  now rewrite (JSON_roundtrip (VArr (nodes st)) Hs).
Qed.

Lemma export_import_witness :
  all_safe (nodes two_nodes) = true /\
  nodes (importJSON (Some (exportJSON two_nodes)) initial) = nodes two_nodes.
Proof.
  assert (H : all_safe (nodes two_nodes) = true) by (vm_compute; reflexivity).
  split; [exact H|]. exact (export_import two_nodes initial H).
Defined.

(** The store after [[{}]] was imported and the node [{}] was expanded at
    clock reading 2: the new node has [NaN] for [x] and [y]. *)
Definition expanded_blank : state :=
  onAskAI_resume (VObj []) (Fulfilled (vstr (lit "idea"))) 2
    (importJSON (Some (lit "[{}]")) initial).

(** C7 as stated does not hold: [NaN] is exported as [null]. *)
Lemma export_import_loses_NaN :
  ~ (forall st st',
       nodes (importJSON (Some (exportJSON st)) st') = nodes st).
Proof.
  intros H. specialize (H expanded_blank initial).
  vm_compute in H. discriminate H.
Qed.

End ExportImport.

(** ** Sessions that keep the store JSON-safe *)

Section SafeSessions.

(** The result of a rounding is a binary64 value. *)
Lemma round_ratio_representable n d :
  0 <= n -> 0 < d -> round_ratio n d mod 2 ^ shift_of (round_ratio n d) = 0.
Proof.
  intros Hn Hd.
  pose proof (round_ratio_nonneg n d Hn Hd) as R0.
  assert (V0 : 0 <= n / d) by (apply Z.div_pos; lia).
  pose proof (pow2_shift_pos (n / d)) as Hp.
  pose proof (shift_of_nonneg (n / d)) as Hs.
  assert (Top : round_ratio n d <= 2 ^ 53 * 2 ^ shift_of (n / d)).
  { apply round_ratio_le_grid; [lia | lia |].
    assert (V : n / d < 2 ^ 53 * 2 ^ shift_of (n / d)).
    { rewrite <- Z.pow_add_r by lia.
      destruct (Z.eq_dec (n / d) 0) as [Z0|NZ].
      - pose proof (Z.pow_pos_nonneg 2 (53 + shift_of (n / d))
                      ltac:(lia) ltac:(lia)). lia.
      - apply Z.lt_le_trans with (2 ^ Z.succ (Z.log2 (n / d))).
        + apply Z.log2_spec. lia.
        + apply Z.pow_le_mono_r; [lia|]. unfold shift_of. lia. }
    pose proof (Z.div_mod n d ltac:(lia)).
    pose proof (Z.mod_pos_bound n d Hd). nia. }
  assert (Grid : round_ratio n d mod 2 ^ shift_of (n / d) = 0).
  { unfold round_ratio. apply Z.mod_mul. lia. }
  set (R := round_ratio n d) in *. set (s := shift_of (n / d)) in *.
  destruct (Z.eq_dec R 0) as [->|RZ]; [reflexivity|].
  destruct (Z.eq_dec R (2 ^ 53 * 2 ^ s)) as [E|NE].
  - rewrite E at 2. rewrite <- Z.pow_add_r by lia.
    unfold shift_of. rewrite Z.log2_pow2 by lia.
    replace (Z.max 0 (53 + s - 52)) with (s + 1) by lia.
    rewrite E. replace (2 ^ 53) with (2 ^ 52 * 2 ^ 1) by reflexivity.
    rewrite <- Z.mul_assoc, <- Z.pow_add_r by lia.
    replace (1 + s) with (s + 1) by lia.
    apply Z.mod_mul. apply Z.pow_nonzero; lia.
  - assert (L : Z.log2 R < 53 + s).
    { apply Z.log2_lt_pow2; [lia|]. rewrite Z.pow_add_r by lia. lia. }
    pose proof (Z.log2_nonneg R) as L0.
    assert (S' : 0 <= shift_of R <= s) by (unfold shift_of; lia).
    apply Z.mod_divide; [apply Z.pow_nonzero; lia|].
    apply Z.mod_divide in Grid; [|lia].
    apply Z.divide_trans with (2 ^ s); [|exact Grid].
    exists (2 ^ (s - shift_of R)).
    rewrite <- Z.pow_add_r by lia. f_equal. lia.
Qed.

Lemma round_to_number_representable n d k :
  0 < d -> round_to_number n d = Fin k -> representableb k = true.
Proof.
  intros Hd. unfold round_to_number, pack, representableb.
  destruct (Z.ltb_spec n 0) as [N|P].
  - pose proof (round_ratio_nonneg (- n) d ltac:(lia) Hd) as R0.
    pose proof (round_ratio_representable (- n) d ltac:(lia) Hd) as M.
    destruct (Z.leb_spec overflow_bound (round_ratio (- n) d));
      [discriminate|].
    intros E. injection E as <-. rewrite Z.abs_neq by lia.
    rewrite Z.opp_involutive. apply andb_true_iff.
    split; [apply Z.ltb_lt; lia | apply Z.eqb_eq; exact M].
  - pose proof (round_ratio_nonneg n d ltac:(lia) Hd) as R0.
    pose proof (round_ratio_representable n d ltac:(lia) Hd) as M.
    destruct (Z.leb_spec overflow_bound (round_ratio n d)); [discriminate|].
    intros E. injection E as <-. rewrite Z.abs_eq by lia.
    apply andb_true_iff.
    split; [apply Z.ltb_lt; lia | apply Z.eqb_eq; exact M].
Qed.

(** A finite sum is a binary64 value. *)
Lemma num_add_representable a b k :
  num_add a b = Fin k -> representableb k = true.
Proof.
  destruct a as [| |x], b as [| |y]; simpl; try discriminate.
  - destruct (Bool.eqb neg neg0); discriminate.
  - apply round_to_number_representable. lia.
Qed.

Lemma unit_intervalb_true r : unit_intervalb r = true -> unit_interval r.
Proof.
  destruct r as [| |k]; simpl; try discriminate. intros H.
  apply andb_true_iff in H. destruct H as [H H2].
  apply andb_true_iff in H. destruct H as [H0 H1].
  exists k. split; [reflexivity|].
  split; [now apply representableb_true|].
  apply Z.leb_le in H1. apply Z.ltb_lt in H2. lia.
Qed.

Lemma spawn_json_safe r w top B B' :
  unit_interval r -> 0 < w ->
  of_int w = Fin (w * one_unit) ->
  round_ratio ((one_unit - 2 ^ 1021) * (w * one_unit)) one_unit = B ->
  round_ratio (40 * one_unit + B) 1 = B' ->
  B < overflow_bound ->
  B' < top * one_unit -> top * one_unit < overflow_bound ->
  json_safe (vnum (spawn r w)) = true.
Proof.
  intros Hr Hw Ew HB HB' Hov HB'' Htop.
  destruct (spawn_within r w top B B' Hr Hw Ew HB HB' Hov HB'' Htop)
    as (k & E & _).
  cbn [json_safe vnum]. rewrite E.
  apply (num_add_representable (of_int 40) (num_mul r (of_int w))).
  exact E.
Qed.

Lemma ordered_named o :
  forallb (fun kv => named_key (fst kv)) o = true -> ordered o = true.
Proof.
  induction o as [|[k v] o IH]; [reflexivity|].
  cbn [forallb ordered fst]. intros H.
  apply andb_true_iff in H. destruct H as [Hk Ho].
  rewrite (IH Ho), andb_true_r.
  apply forallb_forall. intros [k' v'] Hin.
  rewrite forallb_forall in Ho. specialize (Ho _ Hin).
  unfold key_precedes, named_key in *. cbn [fst] in *.
  destruct (array_index k); [discriminate|].
  destruct (array_index k'); [discriminate | reflexivity].
Qed.

Lemma safe_node_json_safe n : safe_node n = true -> json_safe n = true.
Proof.
  destruct n as [| |o]; try discriminate. cbn [safe_node]. intros H.
  apply andb_true_iff in H. destruct H as [H Hs].
  apply andb_true_iff in H. destruct H as [Hd Hn].
  rewrite json_safe_object. unfold canonical.
  now rewrite Hd, (ordered_named o Hn), Hs.
Qed.

Lemma safe_node_is_node l :
  forallb safe_node l = true -> forallb is_node l = true.
Proof.
  intros H. apply forallb_forall. intros n Hn.
  rewrite forallb_forall in H. specialize (H n Hn).
  destruct n as [| |o]; try discriminate. cbn [safe_node] in H.
  apply andb_true_iff in H. destruct H as [H _].
  apply andb_true_iff in H. tauto.
Qed.

Lemma all_safe_nodes l : forallb safe_node l = true -> all_safe l = true.
Proof.
  induction l as [|n l IH]; [reflexivity|].
  cbn [forallb all_safe]. intros H.
  apply andb_true_iff in H. destruct H as [Hn Hl].
  now rewrite (safe_node_json_safe n Hn), (IH Hl).
Qed.

(** Defining a property with a named key and a JSON-safe value keeps an
    object of named keys and JSON-safe values such an object. *)
Lemma define_property_safe o k v :
  named_key k = true -> json_safe v = true ->
  forallb (fun kv => named_key (fst kv)) o = true ->
  all_safe_members o = true ->
  forallb (fun kv => named_key (fst kv)) (define_property o k v) = true /\
  all_safe_members (define_property o k v) = true.
Proof.
  intros Hk Hv Hn Hs. unfold define_property.
  destruct (lookup k o) as [old|].
  - clear Hk. induction o as [|[k0 v0] o IH]; [now split|].
    cbn [forallb all_safe_members fst] in Hn, Hs.
    apply andb_true_iff in Hn. destruct Hn as [Hn0 Hn].
    apply andb_true_iff in Hs. destruct Hs as [Hs0 Hs].
    cbn [replace]. destruct (str_eqb k0 k).
    + cbn [forallb all_safe_members fst]. now rewrite Hn0, Hn, Hv, Hs.
    + destruct (IH Hn Hs) as [A B].
      cbn [forallb all_safe_members fst]. now rewrite Hn0, A, Hs0, B.
  - assert (E : array_index k = None).
    { unfold named_key in Hk.
      destruct (array_index k); [discriminate | reflexivity]. }
    rewrite E. split.
    + rewrite forallb_app, Hn. cbn [forallb fst]. now rewrite Hk.
    + clear Hn. induction o as [|[k0 v0] o IH].
      * cbn [app all_safe_members]. now rewrite Hv.
      * cbn [all_safe_members] in Hs. apply andb_true_iff in Hs.
        destruct Hs as [Hs0 Hs].
        cbn [app all_safe_members]. now rewrite Hs0, (IH Hs).
Qed.

Lemma define_all_safe kvs : forall o,
  forallb (fun kv => named_key (fst kv)) kvs = true ->
  all_safe_members kvs = true ->
  forallb (fun kv => named_key (fst kv)) o = true ->
  all_safe_members o = true ->
  forallb (fun kv => named_key (fst kv)) (define_all o kvs) = true /\
  all_safe_members (define_all o kvs) = true.
Proof.
  induction kvs as [|[k v] kvs IH]; intros o Kn Ks Hn Hs; [now split|].
  cbn [forallb all_safe_members fst] in Kn, Ks.
  apply andb_true_iff in Kn. destruct Kn as [Kn0 Kn].
  apply andb_true_iff in Ks. destruct Ks as [Ks0 Ks].
  destruct (define_property_safe o k v Kn0 Ks0 Hn Hs) as [A B].
  unfold define_all in *. cbn [fold_left fst snd]. now apply IH.
Qed.

Lemma patch_keys_named (p : object) :
  forallb (fun kv => patch_key (fst kv)) p = true ->
  forallb (fun kv => named_key (fst kv)) p = true.
Proof.
  intros H. apply forallb_forall. intros [k v] Hin.
  rewrite forallb_forall in H. specialize (H _ Hin). cbn [fst] in *.
  unfold patch_key in H. apply orb_true_iff in H.
  destruct H as [H|H]; [apply orb_true_iff in H; destruct H as [H|H]|];
    apply str_eqb_eq in H; subst k; reflexivity.
Qed.

Lemma spread_safe n patch :
  safe_node n = true -> is_patch patch = true -> json_safe patch = true ->
  safe_node (spread n patch) = true.
Proof.
  destruct n as [| |o]; try discriminate.
  destruct patch as [| |p]; try discriminate.
  cbn [safe_node is_patch]. intros Hn Hp Hs.
  apply andb_true_iff in Hn. destruct Hn as [Hn Hos].
  apply andb_true_iff in Hn. destruct Hn as [Hod Hon].
  apply andb_true_iff in Hp. destruct Hp as [Hpd Hpk].
  rewrite json_safe_object in Hs. apply andb_true_iff in Hs.
  destruct Hs as [_ Hps].
  destruct (define_all_safe o [] Hon Hos eq_refl eq_refl) as [A B].
  destruct (define_all_safe p _ (patch_keys_named p Hpk) Hps A B) as [C D].
  unfold spread. cbn [own_properties safe_node].
  rewrite C, D, !andb_true_r.
  apply distinct_define_all, distinct_define_all. reflexivity.
Qed.

Lemma safe_run l : forall st,
  forallb safe_node (nodes st) = true -> safe_session l = true ->
  exists st', run l st = Some st' /\ forallb safe_node (nodes st') = true.
Proof.
  induction l as [|a l IH]; intros st Hst Hl.
  - exists st. now split.
  - destruct a as [text now rx ry|id patch|id]; cbn [run step];
      cbn [safe_session] in Hl.
    + apply andb_true_iff in Hl. destruct Hl as [Hr Hl].
      apply andb_true_iff in Hr. destruct Hr as [Hx Hy].
      apply unit_intervalb_true in Hx. apply unit_intervalb_true in Hy.
      apply IH; [|exact Hl]. unfold addNode.
      destruct (is_empty text || is_empty (trim text)); [exact Hst|].
      cbn [nodes setNodes setSelectedId forallb]. rewrite Hst, andb_true_r.
      unfold make_node. cbn [safe_node distinct_keys all_safe_members].
      replace (json_safe (vnum (spawn rx 600))) with true.
      * replace (json_safe (vnum (spawn ry 300))) with true; [reflexivity|].
        symmetry.
        apply (spawn_json_safe ry 300 340 (300 * one_unit - 2 ^ 1030)
                 (340 * one_unit - 2 ^ 1030) Hy); vm_compute; reflexivity.
      * symmetry.
        apply (spawn_json_safe rx 600 640 (600 * one_unit - 2 ^ 1031)
                 (640 * one_unit - 2 ^ 1031) Hx); vm_compute; reflexivity.
    + apply andb_true_iff in Hl. destruct Hl as [Hp Hl].
      apply andb_true_iff in Hp. destruct Hp as [Hp Hs].
      unfold updateNode.
      rewrite (map_nodes_map id patch _
                 (is_node_readable _ (safe_node_is_node _ Hst))).
      apply IH; [|exact Hl]. cbn [nodes setNodes].
      apply forallb_forall. intros m Hm. apply in_map_iff in Hm.
      destruct Hm as (n & <- & Hn).
      rewrite forallb_forall in Hst. specialize (Hst n Hn).
      destruct (matches id n); [now apply spread_safe | exact Hst].
    + rewrite (removeNode_filter id st
                 (is_node_readable _ (safe_node_is_node _ Hst))).
      apply IH; [|exact Hl]. cbn [nodes].
      apply forallb_forall. intros n Hn. apply filter_In in Hn.
      rewrite forallb_forall in Hst. now apply Hst.
Qed.

(** X23: after every session of adds, removes and updates with JSON-safe
    patches from the empty store, importing the exported text gives back
    the collection. *)
Corollary session_export_import l :
  safe_session l = true ->
  exists st,
    run l initial = Some st /\
    forall st', nodes (importJSON (Some (exportJSON st)) st') = nodes st.
Proof.
  intros Hl. destruct (safe_run l initial eq_refl Hl) as (st & E & Hs).
  exists st. split; [exact E|]. intros st'.
  unfold importJSON, exportJSON. cbn [JSON_stringify is_undefined].
  now rewrite (JSON_roundtrip (VArr (nodes st)) (all_safe_nodes _ Hs)).
Qed.

End SafeSessions.

(** ** How the store operations compose *)

Section StoreAlgebra.

Lemma filter_nodes_readable id l l' :
  filter_nodes
    (fun n => match has_id id n with
              | Some b => Some (negb b)
              | None => None
              end) l = Some l' ->
  forallb (fun n => negb (nullish n)) l = true.
Proof.
  revert l'. induction l as [|n l IH]; simpl; intros l' H; [reflexivity|].
  destruct (has_id id n) eqn:E; [|discriminate].
  destruct (filter_nodes _ l) eqn:F; [|discriminate].
  rewrite (IH _ eq_refl), andb_true_r.
  destruct n as [[]| |]; simpl in *; try reflexivity; discriminate.
Qed.

Lemma removeNode_readable id st st' :
  removeNode id st = Some st' ->
  forallb (fun n => negb (nullish n)) (nodes st) = true.
Proof.
  unfold removeNode.
  destruct (filter_nodes _ (nodes st)) eqn:F; [|discriminate].
  intros _. exact (filter_nodes_readable _ _ _ F).
Qed.

Lemma forallb_kept {A} (f g : A -> bool) l :
  forallb f l = true -> forallb f (filter g l) = true.
Proof.
  intros H. apply forallb_forall. intros x Hx. apply filter_In in Hx.
  rewrite forallb_forall in H. now apply H.
Qed.

Lemma filter_twice {A} (f : A -> bool) l : filter f (filter f l) = filter f l.
Proof.
  apply filter_all_true. intros x Hx. now apply filter_In in Hx.
Qed.

Lemma filter_swap {A} (f g : A -> bool) l :
  filter f (filter g l) = filter g (filter f l).
Proof.
  induction l as [|x l IH]; simpl; [reflexivity|].
  destruct (g x) eqn:G, (f x) eqn:F; simpl; rewrite ?G, ?F, IH; reflexivity.
Qed.

Lemma filter_nodes_throws keep l n :
  In n l -> keep n = None -> filter_nodes keep l = None.
Proof.
  induction l as [|m l IH]; simpl; [tauto|].
  intros [->|H] E.
  - now rewrite E.
  - destruct (keep m); [|reflexivity]. now rewrite (IH H E).
Qed.

Lemma map_nodes_throws f l n :
  In n l -> f n = None -> map_nodes f l = None.
Proof.
  induction l as [|m l IH]; simpl; [tauto|].
  intros [->|H] E.
  - now rewrite E.
  - destruct (f m); [|reflexivity]. now rewrite (IH H E).
Qed.

Lemma has_id_nullish id n : nullish n = true -> has_id id n = None.
Proof. destruct n as [[]| |]; simpl; try discriminate; reflexivity. Qed.

Lemma prim_strict_eq_refl p :
  p <> PNum NaN -> prim_strict_eq p p = true.
Proof.
  destruct p as [| |b|[|s|k]|s]; simpl; intros H; try reflexivity.
  - now destruct b.
  - now elim H.
  - now destruct s.
  - apply Z.eqb_refl.
  - apply str_eqb_refl.
Qed.

(** X1: removing the same id a second time changes nothing: neither the
    collection nor the selection. *)
Theorem removeNode_idempotent id st st1 :
  removeNode id st = Some st1 -> removeNode id st1 = Some st1.
Proof.
  intros H. pose proof (removeNode_readable _ _ _ H) as R.
  rewrite (removeNode_filter id st R) in H. injection H as <-.
  rewrite removeNode_filter; cbn [nodes selectedId queryingAI alerts].
  - f_equal. f_equal.
    + apply filter_twice.
    + destruct (prim_strict_eq (selectedId st) id) eqn:E.
      * now destruct (prim_strict_eq PNull id).
      * now rewrite E.
  - now apply forallb_kept.
Qed.

Lemma removeNode_idempotent_witness :
  exists st1,
    removeNode (PStr (lit "1")) two_nodes = Some st1 /\
    removeNode (PStr (lit "1")) st1 = Some st1.
Proof.
  eexists. split; [reflexivity|].
  apply (removeNode_idempotent (PStr (lit "1")) two_nodes). reflexivity.
Defined.

(** X2: two removals give the same collection and the same selection in
    either order. *)
Theorem removeNode_commute a b st sa sab :
  removeNode a st = Some sa -> removeNode b sa = Some sab ->
  exists sb, removeNode b st = Some sb /\ removeNode a sb = Some sab.
Proof.
  intros Ha Hb. pose proof (removeNode_readable _ _ _ Ha) as R.
  rewrite (removeNode_filter a st R) in Ha. injection Ha as <-.
  rewrite removeNode_filter in Hb by (now apply forallb_kept).
  cbn [nodes selectedId queryingAI alerts] in Hb. injection Hb as <-.
  rewrite (removeNode_filter b st R). eexists. split; [reflexivity|].
  rewrite removeNode_filter by (now apply forallb_kept).
  cbn [nodes selectedId queryingAI alerts]. f_equal. f_equal.
  - apply filter_swap.
  - destruct (prim_strict_eq (selectedId st) a) eqn:A,
             (prim_strict_eq (selectedId st) b) eqn:B;
      rewrite ?A, ?B;
      destruct (prim_strict_eq PNull a), (prim_strict_eq PNull b);
      reflexivity.
Qed.

Lemma removeNode_commute_witness :
  exists sa sab sb,
    removeNode (PStr (lit "1")) two_nodes = Some sa /\
    removeNode (PStr (lit "2")) sa = Some sab /\
    removeNode (PStr (lit "2")) two_nodes = Some sb /\
    removeNode (PStr (lit "1")) sb = Some sab.
Proof.
  destruct (removeNode_commute (PStr (lit "1")) (PStr (lit "2")) two_nodes
              _ _ eq_refl eq_refl) as (sb & E1 & E2).
  eexists. eexists. exists sb.
  split; [reflexivity|]. split; [reflexivity|]. split; assumption.
Defined.

(** X3: removing the node that [addNode] has just added gives back the
    collection as it was, when no older node carries the same id; the
    selection is then [null], whatever it was before the add. *)
Theorem add_then_remove text now rx ry st :
  trim text <> [] ->
  (forall n, In n (nodes st) -> has_id (PStr (new_id now)) n = Some false) ->
  removeNode (PStr (new_id now)) (addNode text now rx ry st)
  = Some (setSelectedId PNull st).
Proof.
  intros Ht Hfresh. unfold addNode.
  assert (is_empty text || is_empty (trim text) = false) as ->.
  { destruct text as [|c text]; [now elim Ht|].
    destruct (trim (c :: text)); [now elim Ht|reflexivity]. }
  assert (forallb (fun n => negb (nullish n)) (nodes st) = true) as R.
  { apply forallb_forall. intros n Hn. specialize (Hfresh n Hn).
    destruct n as [[]| |]; simpl in *; try reflexivity; discriminate. }
  rewrite removeNode_filter; cbn [nodes selectedId queryingAI alerts
    setNodes setSelectedId forallb nullish make_node negb andb]; [|exact R].
  assert (matches (PStr (new_id now))
            (make_node (vstr (new_id now)) (vstr (trim text))
               (vnum (spawn rx 600)) (vnum (spawn ry 300))) = true) as M.
  { unfold matches, has_id. cbn [get make_node lookup].
    rewrite str_eqb_refl. cbn [vstr strict_eq prim_strict_eq].
    apply str_eqb_refl. }
  cbn [filter]. rewrite M. cbn [negb prim_strict_eq].
  rewrite str_eqb_refl, filter_all_true.
  - destruct st; reflexivity.
  - intros n Hn. unfold matches. now rewrite (Hfresh n Hn).
Qed.

Lemma add_then_remove_witness :
  removeNode (PStr (new_id 3)) (addNode (lit "C") 3 (Fin 0) (Fin 0) initial)
  = Some (setSelectedId PNull initial).
Proof.
  apply (add_then_remove (lit "C") 3 (Fin 0) (Fin 0) initial).
  - discriminate.
  - intros n [].
Defined.

(** X4: while the collection holds [null] or [undefined] (an import lets
    them in), every [removeNode] and every [updateNode] throws: the updater
    reads [n.id] of each element. *)
Theorem nullish_element_throws id patch st n :
  In n (nodes st) -> nullish n = true ->
  removeNode id st = None /\ updateNode id patch st = None.
Proof.
  intros Hin Hn. unfold removeNode, updateNode. split.
  - rewrite (filter_nodes_throws _ _ n Hin); [reflexivity|].
    now rewrite has_id_nullish.
  - rewrite (map_nodes_throws _ _ n Hin); [reflexivity|].
    now rewrite has_id_nullish.
Qed.

Lemma nullish_element_throws_witness :
  nodes (importJSON (Some (lit "[null]")) initial) = [VPrim PNull] /\
  removeNode (PStr (lit "1")) (importJSON (Some (lit "[null]")) initial)
  = None /\
  updateNode (PStr (lit "1")) (VObj []) (importJSON (Some (lit "[null]")) initial)
  = None.
Proof.
  split; [reflexivity|].
  apply (nullish_element_throws (PStr (lit "1")) (VObj [])
           (importJSON (Some (lit "[null]")) initial) (VPrim PNull)).
  - left. reflexivity.
  - reflexivity.
Defined.

(** X5: selecting an id and then removing it, in a collection without
    [null] or [undefined] elements and for every id but [NaN] (which is
    not equal to itself).  When a render separates the two calls, nothing
    is selected afterwards.  When both calls are made before the next
    render, [removeNode] still tests the [selectedId] of the last render:
    the selection is left at the removed id, unless that id was selected
    already.  Either way no node with the id is left. *)
Theorem select_then_remove id st :
  id <> PNum NaN ->
  forallb (fun n => negb (nullish n)) (nodes st) = true ->
  exists rendered batched,
    removeNode id (onSelect id st) = Some rendered /\
    selectedId rendered = PNull /\
    removeNode_captured (selectedId st) id (onSelect id st) = Some batched /\
    selectedId batched
    = (if prim_strict_eq (selectedId st) id then PNull else id) /\
    nodes batched = nodes rendered /\
    (forall n, In n (nodes rendered) -> In n (nodes st) /\ matches id n = false).
Proof.
  intros Hid R. rewrite removeNode_filter by exact R.
  unfold removeNode_captured. cbn [nodes selectedId onSelect setSelectedId].
  rewrite (filter_nodes_filter id _ R), (prim_strict_eq_refl id Hid).
  eexists. eexists. split; [reflexivity|]. split; [reflexivity|].
  split; [reflexivity|]. split.
  - now destruct (prim_strict_eq (selectedId st) id).
  - split; [now destruct (prim_strict_eq (selectedId st) id)|].
    cbn [nodes]. intros n Hn. apply filter_In in Hn. destruct Hn as [Hn Hm].
    split; [exact Hn|]. now destruct (matches id n).
Qed.

Lemma select_then_remove_witness :
  exists rendered batched,
    removeNode (PStr (lit "2")) (onSelect (PStr (lit "2")) two_nodes)
    = Some rendered /\
    selectedId rendered = PNull /\
    removeNode_captured (selectedId two_nodes) (PStr (lit "2"))
      (onSelect (PStr (lit "2")) two_nodes) = Some batched /\
    selectedId batched = PStr (lit "2") /\
    nodes batched = nodes rendered.
Proof.
  destruct (select_then_remove (PStr (lit "2")) two_nodes)
    as (rendered & batched & E1 & S1 & E2 & S2 & N & _).
  - discriminate.
  - reflexivity.
  - exists rendered, batched. repeat split; assumption.
Defined.

End StoreAlgebra.

(** ** Patches, drags and requests *)

Section Callbacks.

Lemma Forall2_maps {A B C} (R : B -> C -> Prop) (f : A -> B) (g : A -> C) l :
  (forall a, In a l -> R (f a) (g a)) -> Forall2 R (map f l) (map g l).
Proof.
  induction l as [|a l IH]; simpl; intros H; constructor.
  - apply H. now left.
  - apply IH. intros b Hb. apply H. now right.
Qed.

Lemma Forall2_map_r {A B} (R : A -> B -> Prop) (g : A -> B) l :
  (forall a, In a l -> R a (g a)) -> Forall2 R l (map g l).
Proof.
  intros H. rewrite <- (map_id l) at 1. now apply Forall2_maps.
Qed.

Lemma is_node_in n l : forallb is_node l = true -> In n l ->
  exists o, n = VObj o /\ distinct_keys o = true.
Proof.
  intros H Hn. rewrite forallb_forall in H. specialize (H n Hn).
  destruct n as [p|l'|o]; try discriminate. now exists o.
Qed.

Lemma is_node_spread o p :
  distinct_keys p = true -> exists o', spread (VObj o) (VObj p) = VObj o' /\
                                      distinct_keys o' = true.
Proof.
  intros Dp. eexists. split; [reflexivity|].
  apply distinct_define_all. now apply distinct_define_all.
Qed.

Lemma matches_get id n n' :
  get n' (lit "id") = get n (lit "id") -> matches id n' = matches id n.
Proof. unfold matches, has_id. now intros ->. Qed.

(** X6: [updateNode] merges whatever the patch holds: a patch with an [id]
    field gives that id to every node it is merged into. *)
Theorem updateNode_patch_id id p v st :
  forallb is_node (nodes st) = true ->
  distinct_keys p = true -> lookup (lit "id") p = Some v ->
  exists st',
    updateNode id (VObj p) st = Some st' /\
    Forall2 (fun n n' => if matches id n then node_id n' = Some v else n' = n)
      (nodes st) (nodes st').
Proof.
  intros Hn Dp Hv. unfold updateNode.
  rewrite (map_nodes_map id (VObj p) _ (is_node_readable _ Hn)).
  eexists. split; [reflexivity|]. cbn [nodes setNodes].
  apply Forall2_map_r. intros n Hin.
  destruct (matches id n); [|reflexivity].
  destruct (is_node_in n _ Hn Hin) as (o & -> & Do).
  unfold node_id. rewrite (get_spread o p _ Do Dp). unfold patched.
  now rewrite Hv.
Qed.

Lemma updateNode_patch_id_witness :
  exists st',
    updateNode (PStr (lit "1")) (VObj [(lit "id", vstr (lit "2"))]) two_nodes
    = Some st' /\
    map node_id (nodes st') = [Some (vstr (lit "2")); Some (vstr (lit "2"))].
Proof.
  destruct (updateNode_patch_id (PStr (lit "1")) [(lit "id", vstr (lit "2"))]
              (vstr (lit "2")) two_nodes eq_refl eq_refl eq_refl)
    as (st' & E & _).
  exists st'. split; [exact E|].
  vm_compute in E. injection E as <-. reflexivity.
Defined.

(** X7: a drag changes the [x] and the [y] of the nodes with the given id
    and nothing else: their other fields, the other nodes, the order and
    the selection stay. *)
Theorem onMove_spec id x y st :
  forallb is_node (nodes st) = true ->
  exists st',
    onMove id x y st = Some st' /\
    selectedId st' = selectedId st /\
    Forall2
      (fun n n' =>
         if matches id n
         then get n' (lit "x") = Some x /\ get n' (lit "y") = Some y /\
              forall k, str_eqb (lit "x") k = false ->
                        str_eqb (lit "y") k = false -> get n' k = get n k
         else n' = n)
      (nodes st) (nodes st').
Proof.
  intros Hn. unfold onMove, updateNode.
  rewrite (map_nodes_map id _ _ (is_node_readable _ Hn)).
  eexists. split; [reflexivity|]. split; [reflexivity|].
  cbn [nodes setNodes]. apply Forall2_map_r. intros n Hin.
  destruct (matches id n); [|reflexivity].
  destruct (is_node_in n _ Hn Hin) as (o & -> & Do).
  assert (forall k, get (spread (VObj o) (VObj [(lit "x", x); (lit "y", y)])) k
                    = patched [(lit "x", x); (lit "y", y)] (VObj o) k) as G.
  { intros k. now apply get_spread. }
  split; [|split].
  - now rewrite G.
  - now rewrite G.
  - intros k Hx Hy. rewrite G. unfold patched. cbn [lookup].
    now rewrite Hx, Hy.
Qed.

Lemma onMove_spec_witness :
  exists st',
    onMove (PStr (lit "2")) (vnum (of_int 5)) (vnum (of_int 6)) two_nodes
    = Some st' /\
    nodes st' =
      [make_node (vstr (lit "1")) (vstr (lit "A"))
         (vnum (of_int 50)) (vnum (of_int 60));
       make_node (vstr (lit "2")) (vstr (lit "B"))
         (vnum (of_int 5)) (vnum (of_int 6))].
Proof.
  destruct (onMove_spec (PStr (lit "2")) (vnum (of_int 5)) (vnum (of_int 6))
              two_nodes eq_refl) as (st' & E & _).
  exists st'. split; [exact E|].
  vm_compute in E. injection E as <-. vm_compute. reflexivity.
Defined.

(** X8: of two drags of the same id the last one wins: every field of
    every node reads as if only the second drag had happened. *)
Theorem onMove_last_wins id x1 y1 x2 y2 st :
  forallb is_node (nodes st) = true ->
  exists s1 s12 s2,
    onMove id x1 y1 st = Some s1 /\
    onMove id x2 y2 s1 = Some s12 /\
    onMove id x2 y2 st = Some s2 /\
    selectedId s12 = selectedId s2 /\
    Forall2 (fun n n' => forall k, get n k = get n' k) (nodes s12) (nodes s2).
Proof.
  intros Hn. pose proof (is_node_readable _ Hn) as R.
  set (p1 := [(lit "x", x1); (lit "y", y1)]).
  set (p2 := [(lit "x", x2); (lit "y", y2)]).
  set (f1 := fun n => if matches id n then spread n (VObj p1) else n).
  set (f2 := fun n => if matches id n then spread n (VObj p2) else n).
  assert (forallb is_node (map f1 (nodes st)) = true) as Hn1.
  { apply forallb_forall. intros n' Hin. apply in_map_iff in Hin.
    destruct Hin as (n & <- & Hin). unfold f1.
    destruct (is_node_in n _ Hn Hin) as (o & -> & Do).
    destruct (matches id (VObj o)); [|exact Do].
    now destruct (is_node_spread o p1 eq_refl) as (o' & -> & Do'). }
  exists (setNodes (map f1 (nodes st)) st),
         (setNodes (map f2 (map f1 (nodes st))) st),
         (setNodes (map f2 (nodes st)) st).
  unfold onMove, updateNode. fold p1 p2.
  rewrite (map_nodes_map id (VObj p1) _ R). cbn [nodes setNodes].
  rewrite (map_nodes_map id (VObj p2) _ (is_node_readable _ Hn1)).
  rewrite (map_nodes_map id (VObj p2) _ R).
  split; [reflexivity|]. split; [reflexivity|]. split; [reflexivity|].
  split; [reflexivity|]. rewrite map_map. apply Forall2_maps.
  intros n Hin k. destruct (is_node_in n _ Hn Hin) as (o & -> & Do).
  unfold f1, f2. destruct (matches id (VObj o)) eqn:M.
  - destruct (is_node_spread o p1 eq_refl) as (o' & E & Do').
    assert (matches id (spread (VObj o) (VObj p1)) = true) as ->.
    { rewrite <- M. apply matches_get.
      now rewrite (get_spread o p1 _ Do eq_refl). }
    rewrite E, (get_spread o' p2 k Do' eq_refl),
      (get_spread o p2 k Do eq_refl).
    unfold patched. destruct (lookup k p2) eqn:L; [reflexivity|].
    rewrite <- E, (get_spread o p1 k Do eq_refl). unfold patched.
    unfold p1, p2 in *. cbn [lookup] in *.
    destruct (str_eqb (lit "x") k); [discriminate|].
    destruct (str_eqb (lit "y") k); [discriminate|reflexivity].
  - now rewrite M.
Qed.

Lemma onMove_last_wins_witness :
  exists s1 s12 s2,
    onMove (PStr (lit "2")) (vnum (of_int 5)) (vnum (of_int 6)) two_nodes
    = Some s1 /\
    onMove (PStr (lit "2")) (vnum (of_int 7)) (vnum (of_int 8)) s1
    = Some s12 /\
    onMove (PStr (lit "2")) (vnum (of_int 7)) (vnum (of_int 8)) two_nodes
    = Some s2 /\
    Forall2 (fun n n' => forall k, get n k = get n' k) (nodes s12) (nodes s2).
Proof.
  destruct (onMove_last_wins (PStr (lit "2")) (vnum (of_int 5))
              (vnum (of_int 6)) (vnum (of_int 7)) (vnum (of_int 8))
              two_nodes eq_refl) as (s1 & s12 & s2 & E1 & E2 & E3 & _ & F).
  exists s1, s12, s2. repeat split; assumption.
Defined.

Lemma find_node_spec id l : forall node,
  find_node id l = Some node ->
  (node = undefined /\ forall n, In n l -> has_id id n = Some false) \/
  (exists l1 l2,
     l = l1 ++ node :: l2 /\ has_id id node = Some true /\
     forall n, In n l1 -> has_id id n = Some false).
Proof.
  induction l as [|m l IH]; simpl; intros node H.
  - injection H as <-. left. split; [reflexivity|]. intros n [].
  - destruct (has_id id m) as [[|]|] eqn:E; [| |discriminate].
    + injection H as <-. right. exists [], l.
      split; [reflexivity|]. split; [exact E|]. intros n [].
    + destruct (IH _ H) as [[-> Hall]|(l1 & l2 & -> & Hm & Hb)].
      * left. split; [reflexivity|]. intros n [<-|Hn]; [exact E|now apply Hall].
      * right. exists (m :: l1), l2. split; [reflexivity|].
        split; [exact Hm|]. intros n [<-|Hn]; [exact E|now apply Hb].
Qed.

Lemma find_node_none id l :
  (forall n, In n l -> has_id id n = Some false) ->
  find_node id l = Some undefined.
Proof.
  induction l as [|m l IH]; simpl; intros H; [reflexivity|].
  rewrite (H m (or_introl eq_refl)). apply IH. intros n Hn. apply H.
  now right.
Qed.

(** X9: asking for the expansion of an id that no node has does nothing:
    [find] gives [undefined], [onAskAI] returns at once, the in-progress
    flag is not set and nothing is pending afterwards. *)
Theorem askAI_click_unknown id st :
  (forall n, In n (nodes st) -> has_id id n = Some false) ->
  askAI_click id st = Some (undefined, st) /\
  forall outcome now st1, onAskAI_resume undefined outcome now st1 = st1.
Proof.
  intros H. unfold askAI_click. rewrite (find_node_none _ _ H).
  split; reflexivity.
Qed.

Lemma askAI_click_unknown_witness :
  askAI_click (PStr (lit "3")) two_nodes = Some (undefined, two_nodes).
Proof.
  apply (askAI_click_unknown (PStr (lit "3")) two_nodes).
  intros n [<-|[<-|[]]]; reflexivity.
Defined.

(** X10: the node that is expanded is the first one of the collection
    whose id is the given one (the newest, should two nodes share the id);
    the call sets the in-progress flag and changes nothing else. *)
Theorem askAI_click_first id st node st' :
  askAI_click id st = Some (node, st') -> truthy node = true ->
  exists l1 l2,
    nodes st = l1 ++ node :: l2 /\
    has_id id node = Some true /\
    (forall n, In n l1 -> has_id id n = Some false) /\
    st' = setQueryingAI true st.
Proof.
  unfold askAI_click. destruct (find_node id (nodes st)) as [m|] eqn:F;
    [|discriminate].
  intros H T. injection H as <- <-.
  destruct (find_node_spec _ _ _ F) as [[-> _]|(l1 & l2 & E & Hm & Hb)];
    [discriminate|].
  exists l1, l2. unfold onAskAI_call. rewrite T. auto.
Qed.

Lemma askAI_click_first_witness :
  exists l1 l2,
    nodes twin_nodes = l1 ++
      make_node (vnum (of_int 7)) (vstr (lit "A"))
        (vnum (of_int 50)) (vnum (of_int 60)) :: l2 /\
    l1 = [].
Proof.
  destruct (askAI_click_first (PNum (of_int 7)) twin_nodes
              (make_node (vnum (of_int 7)) (vstr (lit "A"))
                 (vnum (of_int 50)) (vnum (of_int 60)))
              (setQueryingAI true twin_nodes))
    as (l1 & l2 & E & _ & Hb & _).
  - vm_compute. reflexivity.
  - reflexivity.
  - exists l1, l2. split; [exact E|].
    destruct l1 as [|m l1]; [reflexivity|].
    exfalso. injection E as <- _.
    specialize (Hb _ (or_introl eq_refl)). vm_compute in Hb. discriminate.
Defined.

Lemma onAskAI_resume_cases node outcome now st :
  truthy node = true ->
  let st' := onAskAI_resume node outcome now st in
  queryingAI st' = false /\
  ((exists n,
      nodes st' = n :: nodes st /\ is_node n = true /\
      node_id n = Some (vstr (new_id now)) /\
      selectedId st' = PStr (new_id now) /\ alerts st' = alerts st) \/
   (exists message,
      nodes st' = nodes st /\ selectedId st' = selectedId st /\
      alerts st' = alerts st ++ [lit "AI request failed: " ++ message])).
Proof.
  intros T. unfold onAskAI_resume. rewrite T.
  destruct outcome as [result|e].
  - destruct (expansion_node node result now) as [n|] eqn:E.
    + split; [reflexivity|]. left. exists n.
      split; [reflexivity|].
      unfold expansion_node in E.
      destruct (get node (lit "x")) as [x|]; [|discriminate].
      destruct (get node (lit "y")) as [y|]; [|discriminate].
      destruct (js_plus x _); [|discriminate].
      destruct (js_plus y _); [|discriminate].
      injection E as <-. repeat split.
    + split; [reflexivity|]. right. eexists. repeat split.
  - split; [reflexivity|]. right. eexists. repeat split.
Qed.

(** X11: however the request settles, [onAskAI] ends with the in-progress
    flag cleared and has done exactly one of two things: put one new node,
    with the id of the clock reading, in front of the collection and
    selected it, or raised one alert and left nodes and selection alone. *)
Theorem onAskAI_settles node outcome now st :
  truthy node = true ->
  let st' := onAskAI_resume node outcome now st in
  queryingAI st' = false /\
  ((exists n,
      nodes st' = n :: nodes st /\
      node_id n = Some (vstr (new_id now)) /\
      selectedId st' = PStr (new_id now) /\ alerts st' = alerts st) \/
   (exists message,
      nodes st' = nodes st /\ selectedId st' = selectedId st /\
      alerts st' = alerts st ++ [lit "AI request failed: " ++ message])).
Proof.
  intros T.
  destruct (onAskAI_resume_cases node outcome now st T)
    as (Q & [(n & En & _ & Iid & Es & Ea)|(m & En & Es & Ea)]).
  - split; [exact Q|]. left. now exists n.
  - split; [exact Q|]. right. now exists m.
Qed.

Lemma onAskAI_settles_witness :
  queryingAI (onAskAI_resume cats (Fulfilled (vstr (lit "Cats as pets"))) 2
                (onAskAI_call cats (setNodes [cats] initial))) = false.
Proof.
  apply (onAskAI_settles cats (Fulfilled (vstr (lit "Cats as pets"))) 2
           (onAskAI_call cats (setNodes [cats] initial)) eq_refl).
Defined.

Lemma field_truthy node k v :
  get node k = Some v -> v <> undefined -> truthy node = true.
Proof.
  destruct node as [[]| |]; simpl; intros H N; try reflexivity;
    try discriminate; injection H as <-; now elim N.
Qed.

(** X12: coordinates that are strings (an import lets them in) are not
    added to but concatenated with: the new node's [x] is the text of
    [node.x] followed by [120], its [y] the text of [node.y] followed by
    [20]. *)
Theorem onAskAI_string_coordinates node s t result now st :
  get node (lit "x") = Some (vstr s) ->
  get node (lit "y") = Some (vstr t) ->
  nodes (onAskAI_resume node (Fulfilled result) now st) =
    make_node (vstr (new_id now))
      (if truthy result then result else vstr no_suggestion)
      (vstr (s ++ lit "120")) (vstr (t ++ lit "20"))
    :: nodes st.
Proof.
  intros Hx Hy. unfold onAskAI_resume, expansion_node.
  rewrite (field_truthy node _ _ Hx) by discriminate.
  rewrite Hx, Hy. unfold js_plus. cbn [vstr vnum to_primitive prim_to_string].
  replace (number_to_string (of_int 120)) with (lit "120")
    by (vm_compute; reflexivity).
  replace (number_to_string (of_int 20)) with (lit "20")
    by (vm_compute; reflexivity).
  reflexivity.
Qed.

Lemma onAskAI_string_coordinates_witness :
  nodes (onAskAI_resume
           (make_node (vstr (lit "1")) (vstr (lit "A"))
              (vstr (lit "10")) (vstr (lit "10")))
           (Fulfilled (vstr (lit "B"))) 2 initial) =
    [make_node (vstr (new_id 2)) (vstr (lit "B"))
       (vstr (lit "10120")) (vstr (lit "1020"))].
Proof.
  apply (onAskAI_string_coordinates
           (make_node (vstr (lit "1")) (vstr (lit "A"))
              (vstr (lit "10")) (vstr (lit "10")))
           (lit "10") (lit "10") (vstr (lit "B")) 2 initial eq_refl eq_refl).
Defined.

(** X13: a node without [x] and [y] is expanded into a node whose
    coordinates are both [NaN]; no alert is raised. *)
Theorem onAskAI_missing_coordinates node result now st :
  truthy node = true ->
  get node (lit "x") = Some undefined ->
  get node (lit "y") = Some undefined ->
  let st' := onAskAI_resume node (Fulfilled result) now st in
  nodes st' =
    make_node (vstr (new_id now))
      (if truthy result then result else vstr no_suggestion)
      (vnum NaN) (vnum NaN)
    :: nodes st /\
  alerts st' = alerts st.
Proof.
  intros T Hx Hy. unfold onAskAI_resume, expansion_node.
  rewrite T, Hx, Hy. split; reflexivity.
Qed.

Lemma onAskAI_missing_coordinates_witness :
  nodes (onAskAI_resume (VObj [(lit "content", vstr (lit "A"))])
           (Fulfilled (vstr (lit "B"))) 2 initial) =
    [make_node (vstr (new_id 2)) (vstr (lit "B")) (vnum NaN) (vnum NaN)].
Proof.
  apply (onAskAI_missing_coordinates (VObj [(lit "content", vstr (lit "A"))])
           (vstr (lit "B")) 2 initial eq_refl eq_refl eq_refl).
Defined.

(** X14: adds, updates and removes never raise an alert and never touch
    the in-progress flag. *)
Theorem run_frame l : forall st st',
  run l st = Some st' ->
  queryingAI st' = queryingAI st /\ alerts st' = alerts st.
Proof.
  induction l as [|a l IH]; simpl; intros st st' H.
  - injection H as <-. split; reflexivity.
  - destruct (step a st) as [s|] eqn:E; [|discriminate].
    destruct (IH _ _ H) as [-> ->]. clear H IH.
    destruct a as [text now rx ry|id patch|id]; simpl in E.
    + injection E as <-. unfold addNode.
      destruct (is_empty text || is_empty (trim text)); split; reflexivity.
    + unfold updateNode in E. destruct (map_nodes _ _); [|discriminate].
      injection E as <-. split; reflexivity.
    + unfold removeNode in E. destruct (filter_nodes _ _); [|discriminate].
      injection E as <-.
      destruct (prim_strict_eq (selectedId st) id); split; reflexivity.
Qed.

Lemma run_frame_witness :
  exists st',
    run [Update (PStr (lit "1")) (VObj [(lit "content", vstr (lit "Z"))]);
         Remove (PStr (lit "2"))] two_nodes = Some st' /\
    queryingAI st' = false /\ alerts st' = [].
Proof.
  eexists. split; [reflexivity|].
  eapply (run_frame
            [Update (PStr (lit "1")) (VObj [(lit "content", vstr (lit "Z"))]);
             Remove (PStr (lit "2"))] two_nodes).
  reflexivity.
Defined.

End Callbacks.

(** ** What [addNode] stores *)

Section AddedNodes.

Lemma trim_start_split s :
  exists a, s = a ++ trim_start s /\ forallb is_white_space a = true.
Proof.
  induction s as [|c s (a & E & Ha)]; simpl.
  - now exists [].
  - destruct (is_white_space c) eqn:W.
    + exists (c :: a). simpl. rewrite W, Ha. split; [now f_equal|reflexivity].
    + now exists [].
Qed.

Lemma trim_start_head s :
  is_white_space (hd 0%N (trim_start s)) = false.
Proof.
  induction s as [|c s IH]; simpl; [reflexivity|].
  destruct (is_white_space c) eqn:W; [exact IH|exact W].
Qed.

Lemma trim_start_fixed s :
  is_white_space (hd 0%N s) = false -> trim_start s = s.
Proof. destruct s as [|c s]; simpl; [reflexivity|]. now intros ->. Qed.

Lemma forallb_rev {A} (f : A -> bool) l :
  forallb f l = true -> forallb f (rev l) = true.
Proof.
  intros H. apply forallb_forall. intros x Hx. apply in_rev in Hx.
  rewrite forallb_forall in H. now apply H.
Qed.

Lemma last_hd_rev {A} (d : A) l : last l d = hd d (rev l).
Proof.
  induction l as [|x l IH] using rev_ind; [reflexivity|].
  now rewrite last_last, rev_app_distr.
Qed.

(** [trim] cuts white space off both ends and nothing else. *)
Lemma trim_spec s :
  exists a b,
    s = a ++ trim s ++ b /\
    forallb is_white_space a = true /\ forallb is_white_space b = true /\
    is_white_space (hd 0%N (trim s)) = false /\
    is_white_space (last (trim s) 0%N) = false.
Proof.
  destruct (trim_start_split s) as (a & Ea & Ha).
  destruct (trim_start_split (rev (trim_start s))) as (b & Eb & Hb).
  exists a, (rev b). unfold trim.
  set (m := trim_start s) in *. set (c := trim_start (rev m)) in *.
  assert (m = rev c ++ rev b) as Em.
  { rewrite <- rev_app_distr, <- Eb. symmetry. apply rev_involutive. }
  split; [now rewrite <- Em|]. split; [exact Ha|].
  split; [now apply forallb_rev|]. split.
  - destruct (rev c) as [|h r] eqn:R; [reflexivity|].
    pose proof (trim_start_head s) as H. fold m in H. rewrite Em in H.
    exact H.
  - rewrite last_hd_rev, rev_involutive. apply trim_start_head.
Qed.

Lemma trim_fixed c :
  is_white_space (hd 0%N c) = false -> is_white_space (last c 0%N) = false ->
  trim c = c.
Proof.
  intros Hh Hl. unfold trim. rewrite (trim_start_fixed c Hh).
  rewrite trim_start_fixed; [apply rev_involutive|].
  now rewrite <- last_hd_rev.
Qed.

(** X15: the content that [addNode] stores is the text without the white
    space at its two ends: it is not empty, it neither begins nor ends
    with white space (so trimming it again changes nothing), and what was
    cut off is white space only. *)
Theorem addNode_content text now rx ry st :
  trim text <> [] ->
  exists a c b node,
    nodes (addNode text now rx ry st) = node :: nodes st /\
    get node (lit "content") = Some (vstr c) /\
    text = a ++ c ++ b /\
    forallb is_white_space a = true /\ forallb is_white_space b = true /\
    c <> [] /\
    is_white_space (hd 0%N c) = false /\
    is_white_space (last c 0%N) = false /\
    trim c = c.
Proof.
  intros Ht. destruct (trim_spec text) as (a & b & E & Ha & Hb & Hh & Hl).
  exists a, (trim text), b. eexists. unfold addNode.
  assert (is_empty text || is_empty (trim text) = false) as ->.
  { destruct text as [|c text]; [now elim Ht|].
    destruct (trim (c :: text)); [now elim Ht|reflexivity]. }
  split; [reflexivity|]. split; [reflexivity|].
  repeat (split; [assumption|]). now apply trim_fixed.
Qed.

Lemma addNode_content_witness :
  exists node,
    nodes (addNode (lit "  Idea A ") 5 (Fin 0) (Fin 0) initial) = [node] /\
    get node (lit "content") = Some (vstr (lit "Idea A")).
Proof.
  destruct (addNode_content (lit "  Idea A ") 5 (Fin 0) (Fin 0) initial)
    as (a & c & b & node & E & G & _).
  - discriminate.
  - exists node. split; [exact E|].
    injection E as <-. reflexivity.
Defined.

Lemma newest_first_later last last' ts :
  last <= last' -> newest_first last ts -> newest_first last' ts.
Proof. destruct ts as [|t r]; simpl; [tauto|]. intros H [H1 H2]. split; [lia|exact H2]. Qed.

Definition clock_id (t : Z) : option value := Some (vstr (new_id t)).

Lemma newest_first_filter (f : value -> bool) l : forall ts last,
  map node_id l = map clock_id ts -> newest_first last ts ->
  exists ts',
    map node_id (filter f l) = map clock_id ts' /\ newest_first last ts'.
Proof.
  induction l as [|n l IH]; intros [|t ts] last E H; try discriminate.
  - now exists [].
  - simpl in E. injection E as En El. destruct H as [H1 H2].
    destruct (IH ts (t - 1) El H2) as (ts' & E' & H').
    simpl. destruct (f n).
    + exists (t :: ts'). simpl. rewrite En, E'. split; [reflexivity|].
      split; assumption.
    + exists ts'. split; [exact E'|].
      apply (newest_first_later (t - 1)); [lia|exact H'].
Qed.

Definition dated (last : Z) (st : state) : Prop :=
  forallb is_node (nodes st) = true /\
  exists ts, map node_id (nodes st) = map clock_id ts /\ newest_first last ts.

Lemma dated_run l : forall last st,
  dated last st ->
  clock_increasing last l = true -> patches_ok l = true ->
  exists st' last', run l st = Some st' /\ dated last' st'.
Proof.
  induction l as [|a l IH]; intros last st D Hc Hp.
  - exists st, last. split; [reflexivity|exact D].
  - destruct D as (Hn & ts & E & Hts).
    destruct a as [text now rx ry|id patch|id]; simpl in Hc, Hp |- *.
    + apply andb_true_iff in Hc. destruct Hc as [Hc Hl].
      apply andb_true_iff in Hc. destruct Hc as [H1 H2].
      apply Z.ltb_lt in H1. apply (IH now); [|exact Hl|exact Hp].
      unfold addNode.
      destruct (is_empty text || is_empty (trim text)).
      * split; [exact Hn|]. exists ts. split; [exact E|].
        apply (newest_first_later last); [lia|exact Hts].
      * unfold dated. cbn [nodes setNodes setSelectedId]. split.
        { cbn [forallb]. rewrite Hn. reflexivity. }
        exists (now :: ts). split.
        { cbn [map]. rewrite E. reflexivity. }
        split; [lia|]. apply (newest_first_later last); [lia|exact Hts].
    + apply andb_true_iff in Hp. destruct Hp as [Hpatch Hp].
      unfold updateNode.
      rewrite (map_nodes_map id patch _ (is_node_readable _ Hn)).
      apply (IH last); [|exact Hc|exact Hp].
      unfold dated. cbn [nodes setNodes].
      destruct patch as [| |p]; try discriminate. simpl in Hpatch.
      apply andb_true_iff in Hpatch. destruct Hpatch as [Dp Kp].
      assert (forall n, In n (nodes st) ->
                is_node (if matches id n then spread n (VObj p) else n) = true
                /\ node_id (if matches id n then spread n (VObj p) else n)
                   = node_id n) as Hs.
      { intros n Hin. rewrite forallb_forall in Hn. specialize (Hn n Hin).
        destruct (matches id n); [|now split].
        now apply node_id_spread_node. }
      split.
      * apply forallb_forall. intros n' Hin. apply in_map_iff in Hin.
        destruct Hin as (n & <- & Hin). now apply Hs.
      * exists ts. split; [|exact Hts]. rewrite <- E, map_map.
        apply map_ext_in. intros n Hin. now apply Hs.
    + rewrite (removeNode_filter id st (is_node_readable _ Hn)).
      apply (IH last); [|exact Hc|exact Hp].
      unfold dated. cbn [nodes]. split.
      * now apply forallb_kept.
      * now apply (newest_first_filter _ _ ts).
Qed.

(** X16: the collection is kept newest first.  After every sequence of
    adds, updates of [content], [x], [y] and removes from the empty store,
    with a clock that advances between adds, the ids along the collection
    are the ids of strictly decreasing clock readings. *)
Theorem newest_first_run l :
  patches_ok l = true ->
  clock_increasing (- max_time - 1) l = true ->
  exists st ts last,
    run l initial = Some st /\
    map node_id (nodes st) = map (fun t => Some (vstr (new_id t))) ts /\
    newest_first last ts.
Proof.
  intros Hp Hc.
  destruct (dated_run l (- max_time - 1) initial) as (st & last & E & D);
    [|exact Hc|exact Hp|].
  - split; [reflexivity|]. now exists [].
  - destruct D as (_ & ts & Ets & Hts). now exists st, ts, last.
Qed.

Lemma newest_first_run_witness :
  exists st ts last,
    run short_session initial = Some st /\
    map node_id (nodes st) = map (fun t => Some (vstr (new_id t))) ts /\
    newest_first last ts.
Proof.
  apply (newest_first_run short_session); reflexivity.
Defined.

End AddedNodes.

(** ** The ids that the clock gives *)

Section ClockIds.

Lemma undigits_cons d ds :
  undigits (d :: ds) = d * 10 ^ Z.of_nat (List.length ds) + undigits ds.
Proof.
  change (d :: ds) with ([d] ++ ds). rewrite undigits_app.
  replace (undigits [d]) with d; [reflexivity|].
  unfold undigits. cbn [fold_left]. lia.
Qed.

Lemma undigits_lt ds :
  Forall is_digit ds -> 0 <= undigits ds < 10 ^ Z.of_nat (List.length ds).
Proof.
  induction 1 as [|d ds Hd _ IH].
  - split; [reflexivity|]. reflexivity.
  - rewrite undigits_cons. cbn [List.length].
    rewrite Nat2Z.inj_succ, Z.pow_succ_r by lia.
    unfold is_digit in Hd.
    pose proof (pow10_pos (Z.of_nat (List.length ds)) (Nat2Z.is_nonneg _)).
    nia.
Qed.

Lemma undigits_ge d ds :
  Forall is_digit ds -> 0 < d ->
  10 ^ Z.of_nat (List.length ds) <= undigits (d :: ds).
Proof.
  intros Hds Hd. rewrite undigits_cons.
  pose proof (undigits_lt ds Hds).
  pose proof (pow10_pos (Z.of_nat (List.length ds)) (Nat2Z.is_nonneg _)).
  nia.
Qed.

Lemma undigits_inj ds : forall ds',
  Forall is_digit ds -> Forall is_digit ds' ->
  List.length ds = List.length ds' ->
  undigits ds = undigits ds' -> ds = ds'.
Proof.
  induction ds as [|d ds IH]; intros [|d' ds'] H H' L E; try discriminate;
    [reflexivity|].
  pose proof (Forall_inv H) as Hd. pose proof (Forall_inv_tail H) as Hds.
  pose proof (Forall_inv H') as Hd'. pose proof (Forall_inv_tail H') as Hds'.
  unfold is_digit in Hd, Hd'.
  injection L as L. rewrite !undigits_cons, <- L in E.
  pose proof (undigits_lt ds Hds) as B.
  pose proof (undigits_lt ds' Hds') as B'. rewrite <- L in B'.
  assert (d = d') as -> by nia.
  f_equal. apply IH; [assumption..|lia].
Qed.

Lemma digits_unique d ds :
  Forall is_digit (d :: ds) -> 0 < d -> digits (undigits (d :: ds)) = d :: ds.
Proof.
  intros H Hd. pose proof (Forall_inv_tail H) as Hds.
  pose proof (undigits_ge d ds Hds Hd) as G.
  pose proof (undigits_lt (d :: ds) H) as [_ U].
  pose proof (pow10_pos (Z.of_nat (List.length ds)) (Nat2Z.is_nonneg _)) as P.
  set (n := undigits (d :: ds)) in *.
  assert (0 < n) as Hn by lia.
  destruct (digits_head n Hn) as (d' & ds' & E & Hd').
  pose proof (digits_range n (Z.lt_le_incl _ _ Hn)) as R. rewrite E in R.
  pose proof (undigits_digits n (Z.lt_le_incl _ _ Hn)) as V. rewrite E in V.
  pose proof (Forall_inv_tail R) as Hds'.
  pose proof (undigits_ge d' ds' Hds' Hd') as G'.
  pose proof (undigits_lt (d' :: ds') R) as [_ U']. rewrite V in G', U'.
  cbn [List.length] in U, U'.
  assert (List.length ds = List.length ds') as L.
  { assert (Z.of_nat (List.length ds) < Z.of_nat (S (List.length ds'))) as A
      by (apply (Z.pow_lt_mono_r_iff 10); lia).
    assert (Z.of_nat (List.length ds') < Z.of_nat (S (List.length ds))) as B
      by (apply (Z.pow_lt_mono_r_iff 10); lia).
    lia. }
  rewrite E. apply undigits_inj; [assumption..| |].
  - cbn [List.length]. now rewrite L.
  - exact V.
Qed.

Lemma zeros_digits j : Forall is_digit (zeros j).
Proof.
  unfold zeros. induction (Z.to_nat j); simpl; constructor;
    [unfold is_digit; lia|assumption].
Qed.

(** The digits of [t * 10^j]: those of [t], then [j] zeros. *)
Lemma digits_shift t j :
  0 < t -> 0 <= j -> digits (t * 10 ^ j) = digits t ++ zeros j.
Proof.
  intros Ht Hj. destruct (digits_head t Ht) as (d & ds & E & Hd).
  pose proof (digits_range t (Z.lt_le_incl _ _ Ht)) as R.
  pose proof (undigits_digits t (Z.lt_le_incl _ _ Ht)) as V.
  rewrite E in *. cbn [app].
  rewrite <- (digits_unique d (ds ++ zeros j)); [|
    constructor; [exact (Forall_inv R)|
      apply Forall_app; split; [exact (Forall_inv_tail R)|apply zeros_digits]] |
    exact Hd].
  f_equal. change (d :: ds ++ zeros j) with ((d :: ds) ++ zeros j).
  now rewrite undigits_app, undigits_zeros, length_zeros, V, Z.add_0_r.
Qed.

Lemma digits_length_bound t m :
  0 < t < 10 ^ m -> 0 <= m -> Z.of_nat (List.length (digits t)) <= m.
Proof.
  intros [Ht Hm] M. destruct (digits_head t Ht) as (d & ds & E & Hd).
  pose proof (digits_range t (Z.lt_le_incl _ _ Ht)) as R.
  pose proof (undigits_digits t (Z.lt_le_incl _ _ Ht)) as V.
  rewrite E in *. pose proof (Forall_inv_tail R) as Hds.
  pose proof (undigits_ge d ds Hds Hd) as G. rewrite V in G.
  cbn [List.length].
  assert (Z.of_nat (List.length ds) < m)
    by (apply (Z.pow_lt_mono_r_iff 10); lia).
  lia.
Qed.

Lemma decimal_exponent_int t :
  0 < t -> decimal_exponent (t * one_unit) = Z.of_nat (List.length (digits t)).
Proof.
  intros Ht. unfold decimal_exponent.
  replace (t * one_unit * 10 ^ 324) with (t * 10 ^ 324 * one_unit) by ring.
  rewrite Z.div_mul by (pose proof one_unit_pos; lia).
  rewrite (digits_shift t 324 Ht) by lia.
  rewrite length_app, Nat2Z.inj_add, (length_zeros 324) by lia. lia.
Qed.

Lemma round_int t :
  0 <= t < 2 ^ 53 -> round_ratio (t * one_unit) 1 = t * one_unit.
Proof.
  intros Ht. pose proof one_unit_pos as U.
  destruct (representable_int t) as [_ M]; [lia|].
  rewrite Z.abs_eq in M by nia.
  rewrite <- (Z.mul_1_r (t * one_unit)) at 1.
  apply round_ratio_exact; [nia|lia|exact M].
Qed.

Lemma candidate_int_zero t :
  0 < t < 2 ^ 53 -> candidate (t * one_unit) 0 <> None.
Proof.
  intros Ht. pose proof one_unit_pos as U. unfold candidate.
  assert (scaled_floor (t * one_unit) 0 = t) as ->.
  { unfold scaled_floor. change (0 <=? 0) with true. cbv iota.
    rewrite Z.pow_0_r, Z.mul_1_r. apply Z.div_mul. lia. }
  assert (dec_round t 0 = t * one_unit) as ->.
  { unfold dec_round. change (0 <=? 0) with true. cbv iota.
    rewrite Z.pow_0_r, Z.mul_1_r. apply round_int. lia. }
  rewrite Z.eqb_refl.
  destruct (dec_round (t + 1) 0 =? t * one_unit); discriminate.
Qed.

Lemma shortest_from_int t :
  0 < t < 2 ^ 53 ->
  forall f e, 0 <= e < Z.of_nat f ->
    exists s e',
      shortest_from f (t * one_unit) e = (s, e') /\ 0 <= e' <= e /\
      candidate (t * one_unit) e' = Some s.
Proof.
  intros Ht. induction f as [|f IH]; intros e He; [lia|].
  cbn [shortest_from].
  destruct (candidate (t * one_unit) e) as [s|] eqn:C.
  - exists s, e. split; [reflexivity|]. split; [lia|exact C].
  - destruct (Z.eq_dec e 0) as [->|Hne].
    + now elim (candidate_int_zero t Ht).
    + destruct (IH (e - 1)) as (s & e' & E & He' & C'); [lia|].
      exists s, e'. split; [exact E|]. split; [lia|exact C'].
Qed.

Lemma candidate_int t e s :
  0 < t -> t + 1 < 2 ^ 53 -> 0 <= e ->
  candidate (t * one_unit) e = Some s -> s * 10 ^ e = t /\ 0 <= s.
Proof.
  intros Ht Ht' He C. pose proof one_unit_pos as U.
  destruct (candidate_ok (t * one_unit) e s) as [D Hs]; [nia|exact C|].
  split; [|exact Hs].
  unfold dec_round in D.
  destruct (Z.leb_spec 0 e) as [_|]; [|lia].
  pose proof (pow10_pos e He) as P.
  set (v := s * 10 ^ e) in *.
  assert (0 <= v) as Hv by (unfold v; nia).
  destruct (Z.lt_trichotomy v t) as [Hlt|[Heq|Hgt]]; [|exact Heq|].
  - assert (round_ratio (v * one_unit) 1
            <= round_ratio ((t - 1) * one_unit) 1) as M
      by (apply round_ratio_mono; [nia|lia]).
    rewrite D, (round_int (t - 1)) in M by lia. nia.
  - assert (round_ratio ((t + 1) * one_unit) 1
            <= round_ratio (v * one_unit) 1) as M
      by (apply round_ratio_mono; [nia|lia]).
    rewrite D, (round_int (t + 1)) in M by lia. nia.
Qed.

Lemma max_time_digits : max_time < 10 ^ 16.
Proof. reflexivity. Qed.

(** X17: the id of a node is the decimal numeral of the clock reading:
    [Date.now().toString()] writes the digits of the time value, without
    point or exponent. *)
Theorem new_id_digits now :
  0 <= now <= max_time -> new_id now = digit_chars (digits now).
Proof.
  intros Hn. pose proof one_unit_pos as U.
  pose proof (time_value_small now) as S53.
  rewrite Z.abs_eq in S53 by lia. specialize (S53 (proj2 Hn)).
  destruct (Z.eq_dec now 0) as [->|Hne]; [vm_compute; reflexivity|].
  assert (0 < now) as Hpos by lia.
  assert (now + 1 < 2 ^ 53) as S53'
    by (unfold max_time in Hn; change (2 ^ 53) with 9007199254740992; lia).
  unfold new_id. rewrite (of_int_exact now) by (rewrite Z.abs_eq; lia).
  unfold number_to_string.
  destruct (Z.eqb_spec (now * one_unit) 0) as [Z0|_]; [nia|].
  destruct (Z.ltb_spec (now * one_unit) 0) as [Z0|_]; [nia|].
  pose proof (digits_length_bound now 16) as L16.
  assert (0 < now < 10 ^ 16) as B16
    by (pose proof max_time_digits; lia).
  specialize (L16 B16 ltac:(lia)).
  assert (digits now <> []) as NE by apply digits_nonempty.
  assert (1 <= Z.of_nat (List.length (digits now))) as L1
    by (destruct (digits now); [congruence|cbn [List.length]; lia]).
  unfold positive_to_string, shortest.
  rewrite (decimal_exponent_int now Hpos).
  destruct (shortest_from_int now (conj Hpos S53) 17
              (Z.of_nat (List.length (digits now)) - 1))
    as (s & e & E & He & C); [lia|].
  rewrite E.
  destruct (candidate_int now e s Hpos S53' (proj1 He) C) as [V Hs].
  assert (exists s' e', (if s mod 10 =? 0 then (s / 10, e + 1) else (s, e))
                         = (s', e') /\ s' * 10 ^ e' = now /\ 0 <= e' /\ 0 < s')
    as (s' & e' & -> & V' & He' & Hs').
  { pose proof (pow10_pos e (proj1 He)) as P.
    destruct (Z.eqb_spec (s mod 10) 0) as [M|_].
    - exists (s / 10), (e + 1). split; [reflexivity|].
      pose proof (Z.div_mod s 10 ltac:(lia)) as DM. rewrite M in DM.
      rewrite Z.pow_add_r, Z.pow_1_r by lia.
      split; [|split]; [nia|lia|nia].
    - exists s, e. split; [reflexivity|]. split; [exact V|].
      split; [lia|nia]. }
  assert (digits now = digits s' ++ zeros e') as D.
  { rewrite <- V'. now apply digits_shift. }
  unfold format_decimal. cbv zeta.
  assert (Z.of_nat (List.length (digits now))
          = Z.of_nat (List.length (digits s')) + e') as L.
  { rewrite D, length_app, Nat2Z.inj_add, length_zeros; lia. }
  destruct (Z.leb_spec (Z.of_nat (List.length (digits s')))
              (Z.of_nat (List.length (digits s')) + e')) as [_|]; [|lia].
  destruct (Z.leb_spec (Z.of_nat (List.length (digits s')) + e') 21)
    as [_|]; [|lia].
  cbn [andb]. rewrite D. do 3 f_equal. lia.
Qed.

Lemma new_id_digits_witness :
  new_id 1761000000000 = digit_chars (digits 1761000000000).
Proof.
  apply (new_id_digits 1761000000000). unfold max_time. lia.
Defined.

End ClockIds.

(** ** What a JSON text keeps of a value *)

Section JsonImage.

Lemma value_induction (P : value -> Prop) :
  (forall p, P (VPrim p)) ->
  (forall l, (forall x, In x l -> P x) -> P (VArr l)) ->
  (forall o, (forall kv, In kv o -> P (snd kv)) -> P (VObj o)) ->
  forall v, P v.
Proof.
  intros HP HA HO.
  assert (forall d v, (nesting v <= d)%nat -> P v) as H.
  { induction d as [|d IH]; intros v Hd.
    - destruct v; simpl in Hd; lia.
    - destruct v as [p|l|o].
      + apply HP.
      + apply HA. intros x Hx. apply IH. rewrite nesting_array in Hd.
        pose proof (deepest_in x l Hx). lia.
      + apply HO. intros kv Hkv. apply IH. rewrite nesting_object in Hd.
        pose proof (deepest_member_in kv o Hkv). lia. }
  intros v. apply (H (nesting v)). lia.
Qed.

Lemma json_image_object o : json_image (VObj o) = VObj (image_members o).
Proof. reflexivity. Qed.

Lemma well_formed_array l : well_formed (VArr l) = all_well_formed l.
Proof. reflexivity. Qed.

Lemma well_formed_object o :
  well_formed (VObj o) = canonical o && all_well_formed_members o.
Proof. reflexivity. Qed.

Lemma image_defined x : is_undefined (json_image x) = false.
Proof. destruct x as [[| | |[| |]|]| |]; reflexivity. Qed.

Lemma has_key_image k o :
  has_key k (image_members o) = true -> has_key k o = true.
Proof.
  induction o as [|[k' x] o IH]; simpl; [congruence|].
  destruct (is_undefined x); simpl.
  - intros H. rewrite (IH H). apply orb_true_r.
  - destruct (str_eqb k' k); [reflexivity|exact IH].
Qed.

Lemma distinct_image o :
  distinct_keys o = true -> distinct_keys (image_members o) = true.
Proof.
  induction o as [|[k x] o IH]; simpl; [reflexivity|].
  intros H. apply andb_true_iff in H. destruct H as [Hk Ho].
  destruct (is_undefined x); [now apply IH|]. simpl.
  rewrite (IH Ho), andb_true_r.
  destruct (has_key k (image_members o)) eqn:E; [|reflexivity].
  apply has_key_image in E. now rewrite E in Hk.
Qed.

Lemma precedes_image k o :
  forallb (fun kv => key_precedes k (fst kv)) o = true ->
  forallb (fun kv => key_precedes k (fst kv)) (image_members o) = true.
Proof.
  induction o as [|[k' x] o IH]; simpl; [reflexivity|].
  intros H. apply andb_true_iff in H. destruct H as [Hk Ho].
  destruct (is_undefined x); [now apply IH|]. simpl.
  now rewrite Hk, (IH Ho).
Qed.

Lemma ordered_image o : ordered o = true -> ordered (image_members o) = true.
Proof.
  induction o as [|[k x] o IH]; simpl; [reflexivity|].
  intros H. apply andb_true_iff in H. destruct H as [Hk Ho].
  destruct (is_undefined x); [now apply IH|]. simpl.
  now rewrite (precedes_image k o Hk), (IH Ho).
Qed.

Lemma canonical_image o :
  canonical o = true -> canonical (image_members o) = true.
Proof.
  unfold canonical. intros H. apply andb_true_iff in H.
  destruct H as [D O]. now rewrite (distinct_image o D), (ordered_image o O).
Qed.

(** The image of a well-formed value is a value that JSON carries. *)
Lemma json_safe_image v :
  well_formed v = true -> json_safe (json_image v) = true.
Proof.
  induction v as [p|l IH|o IH] using value_induction.
  - destruct p as [| |b|[|s|k]|s]; simpl; auto.
  - rewrite well_formed_array. cbn [json_image]. rewrite json_safe_array.
    induction l as [|x l IHl]; [reflexivity|].
    cbn [all_well_formed map all_safe]. intros H.
    apply andb_true_iff in H. destruct H as [Hx Hl].
    rewrite (IH x (or_introl eq_refl) Hx). apply IHl; [|exact Hl].
    intros y Hy. apply IH. now right.
  - rewrite well_formed_object, json_image_object, json_safe_object.
    intros H. apply andb_true_iff in H. destruct H as [Hc Hw].
    rewrite (canonical_image o Hc). cbn [andb].
    clear Hc. induction o as [|[k x] o IHo]; [reflexivity|].
    cbn [all_well_formed_members] in Hw. apply andb_true_iff in Hw.
    destruct Hw as [Hx Ho]. cbn [image_members].
    assert (all_safe_members (image_members o) = true) as Hrec.
    { apply IHo; [|exact Ho]. intros kv Hkv. apply IH. now right. }
    destruct (is_undefined x); [exact Hrec|].
    cbn [all_safe_members]. rewrite Hrec, andb_true_r.
    exact (IH (k, x) (or_introl eq_refl) Hx).
Qed.

(** A value that JSON carries is its own image. *)
Lemma json_image_safe v : json_safe v = true -> json_image v = v.
Proof.
  induction v as [p|l IH|o IH] using value_induction.
  - destruct p as [| |b|[|s|k]|s]; simpl; congruence.
  - rewrite json_safe_array. cbn [json_image]. intros H. f_equal.
    induction l as [|x l IHl]; [reflexivity|].
    cbn [all_safe] in H. apply andb_true_iff in H. destruct H as [Hx Hl].
    cbn [map]. rewrite (IH x (or_introl eq_refl) Hx). f_equal.
    apply IHl; [|exact Hl]. intros y Hy. apply IH. now right.
  - rewrite json_safe_object, json_image_object. intros H.
    apply andb_true_iff in H. destruct H as [_ Hs]. f_equal.
    induction o as [|[k x] o IHo]; [reflexivity|].
    cbn [all_safe_members] in Hs. apply andb_true_iff in Hs.
    destruct Hs as [Hx Ho]. cbn [image_members].
    rewrite (json_safe_defined x Hx).
    pose proof (IH (k, x) (or_introl eq_refl) Hx) as Ex. cbn [snd] in Ex.
    rewrite Ex. f_equal.
    apply IHo; [|exact Ho]. intros kv Hkv. apply IH. now right.
Qed.

(** The indented text of a value is the text of its image. *)
Lemma to_json_image v : forall ind,
  to_json ind (json_image v) = to_json ind v.
Proof.
  induction v as [p|l IH|o IH] using value_induction; intros ind.
  - destruct p as [| |b|[|s|k]|s]; reflexivity.
  - cbn [json_image]. rewrite !to_json_array. f_equal.
    generalize true.
    induction l as [|x l IHl]; intros first; [reflexivity|].
    cbn [map elements_text]. rewrite (IH x (or_introl eq_refl)).
    do 3 f_equal. apply IHl. intros y Hy. apply IH. now right.
  - rewrite json_image_object, !to_json_object. f_equal.
    generalize true.
    induction o as [|[k x] o IHo]; intros first; [reflexivity|].
    assert (forall b, members_text ind b (image_members o)
                      = members_text ind b o) as Hrec.
    { apply IHo. intros kv Hkv. apply IH. now right. }
    cbn [image_members members_text].
    destruct (is_undefined x) eqn:U; [apply Hrec|].
    cbn [members_text]. rewrite image_defined.
    pose proof (IH (k, x) (or_introl eq_refl)) as Ex. cbn [snd] in Ex.
    now rewrite Ex, Hrec.
Qed.

End JsonImage.

(** ** Export, import and the page's record *)

Section Records.

Lemma forallb_well_formed l :
  forallb well_formed l = all_well_formed l.
Proof. induction l as [|x l IH]; simpl; [reflexivity|]. now rewrite IH. Qed.

(** X18: what an export and an import of the exported text do to any
    collection: the nodes come back with [null] for every [NaN], infinity
    and [undefined] element, without their [undefined] fields, and
    otherwise as they were; no alert is raised.  Exporting again gives the
    same text, and a second round trip changes nothing any more. *)
Theorem export_import_image st st' :
  forallb well_formed (nodes st) = true ->
  let st1 := importJSON (Some (exportJSON st)) st' in
  nodes st1 = map json_image (nodes st) /\
  alerts st1 = alerts st' /\
  exportJSON st1 = exportJSON st /\
  forall st2, nodes (importJSON (Some (exportJSON st1)) st2) = nodes st1.
Proof.
  intros Hw. rewrite forallb_well_formed in Hw.
  assert (json_safe (json_image (VArr (nodes st))) = true) as Hs
    by (apply json_safe_image; now rewrite well_formed_array).
  assert (importJSON (Some (exportJSON st)) st'
          = setNodes (map json_image (nodes st)) st') as E.
  { unfold importJSON, exportJSON. cbn [JSON_stringify is_undefined].
    rewrite <- (to_json_image (VArr (nodes st)) []).
    rewrite (JSON_roundtrip _ Hs). reflexivity. }
  cbv zeta. rewrite E. cbn [nodes alerts setNodes].
  split; [reflexivity|]. split; [reflexivity|]. split.
  - unfold exportJSON. cbn [JSON_stringify is_undefined nodes setNodes].
    apply (to_json_image (VArr (nodes st)) []).
  - intros st2. unfold importJSON, exportJSON.
    cbn [JSON_stringify is_undefined nodes setNodes].
    change (VArr (map json_image (nodes st)))
      with (json_image (VArr (nodes st))).
    rewrite (JSON_roundtrip _ Hs). reflexivity.
Qed.

Lemma export_import_image_witness :
  nodes (importJSON
           (Some (exportJSON
                    (setNodes
                       [make_node (vstr (lit "1")) undefined
                          (vnum NaN) (vnum (Inf false))] initial)))
           initial)
  = [VObj [(lit "id", vstr (lit "1")); (lit "x", VPrim PNull);
           (lit "y", VPrim PNull)]].
Proof.
  apply (export_import_image
           (setNodes
              [make_node (vstr (lit "1")) undefined
                 (vnum NaN) (vnum (Inf false))] initial) initial).
  reflexivity.
Defined.

Lemma to_json_compact_array l :
  to_json_compact (VArr l) = lit "[" ++ elements_compact true l.
Proof. reflexivity. Qed.

Lemma to_json_compact_object o :
  to_json_compact (VObj o) = lit "{" ++ members_compact true o.
Proof. reflexivity. Qed.

(** The compact text of a value is the text of its image. *)
Lemma compact_image v : to_json_compact (json_image v) = to_json_compact v.
Proof.
  induction v as [p|l IH|o IH] using value_induction.
  - destruct p as [| |b|[|s|k]|s]; reflexivity.
  - cbn [json_image]. rewrite !to_json_compact_array. f_equal.
    generalize true.
    induction l as [|x l IHl]; intros first; [reflexivity|].
    cbn [map elements_compact]. rewrite (IH x (or_introl eq_refl)).
    do 2 f_equal. apply IHl. intros y Hy. apply IH. now right.
  - rewrite json_image_object, !to_json_compact_object. f_equal.
    generalize true.
    induction o as [|[k x] o IHo]; intros first; [reflexivity|].
    assert (forall b, members_compact b (image_members o)
                      = members_compact b o) as Hrec.
    { apply IHo. intros kv Hkv. apply IH. now right. }
    cbn [image_members members_compact].
    destruct (is_undefined x) eqn:U; [apply Hrec|].
    cbn [members_compact]. rewrite image_defined.
    pose proof (IH (k, x) (or_introl eq_refl)) as Ex. cbn [snd] in Ex.
    now rewrite Ex, Hrec.
Qed.

Lemma compact_head v :
  json_safe v = true ->
  exists c r, to_json_compact v = c :: r /\ is_json_space c = false /\
              (c =? 93)%N = false /\ (c =? 125)%N = false.
Proof.
  intros S. destruct v as [p|l|o].
  - exact (to_json_head [] (VPrim p) S).
  - rewrite to_json_compact_array.
    eexists _, _; split; [reflexivity|]; repeat split.
  - rewrite to_json_compact_object.
    eexists _, _; split; [reflexivity|]; repeat split.
Qed.

Lemma elements_compact_cons first y l rest :
  elements_compact first (y :: l) ++ rest =
  (if first then [] else [44%N]) ++
  to_json_compact y ++ (elements_compact false l ++ rest).
Proof.
  cbn [elements_compact]. destruct first; now rewrite <- !app_assoc.
Qed.

Lemma members_compact_cons first k y o rest :
  json_safe y = true ->
  members_compact first ((k, y) :: o) ++ rest =
  (if first then [] else [44%N]) ++
  34%N :: (quote_body k ++ 34%N :: 58%N ::
           (to_json_compact y ++ (members_compact false o ++ rest))).
Proof.
  intros Hy. cbn [members_compact]. rewrite (json_safe_defined y Hy).
  unfold quote. destruct first; now rewrite <- !app_assoc.
Qed.

Lemma number_ends_elements_compact l rest :
  number_ends (elements_compact false l ++ rest) = true.
Proof. destruct l; reflexivity. Qed.

Lemma number_ends_members_compact o rest :
  all_safe_members o = true ->
  number_ends (members_compact false o ++ rest) = true.
Proof.
  destruct o as [|[k x] o]; [reflexivity|].
  cbn [all_safe_members members_compact]. intros H.
  apply andb_true_iff in H. destruct H as [H _].
  now rewrite (json_safe_defined x H).
Qed.

Definition reads_compact (pv : jsstring -> parsed value) (y : value)
    : Prop :=
  forall rest,
    number_ends rest = true -> pv (to_json_compact y ++ rest) = Parsed y rest.

Lemma parse_elements_compact pv rest :
  forall l n x,
    (forall y, In y (x :: l) -> reads_compact pv y) ->
    (List.length (x :: l) <= n)%nat ->
    parse_elements pv n
      (to_json_compact x ++ (elements_compact false l ++ rest))
    = Parsed (x :: l) rest.
Proof.
  induction l as [|y l IH]; intros n x Hpv Hn;
    (destruct n as [|n]; [simpl in Hn; lia|]); cbn [parse_elements];
    rewrite (Hpv x (or_introl eq_refl)) by apply number_ends_elements_compact.
  - reflexivity.
  - rewrite elements_compact_cons. cbn [app skip_space].
    change (is_json_space 44) with false.
    cbv iota. change (44 =? 44)%N with true. cbv iota.
    rewrite IH; [reflexivity | | simpl in *; lia].
    intros z Hz. apply Hpv. now right.
Qed.

Lemma parse_members_compact pv rest :
  forall o n k x,
    (forall kv, In kv ((k, x) :: o) -> reads_compact pv (snd kv)) ->
    all_safe_members ((k, x) :: o) = true ->
    (List.length ((k, x) :: o) <= n)%nat ->
    parse_members pv n
      (34%N :: (quote_body k ++ 34%N :: 58%N ::
                (to_json_compact x ++ (members_compact false o ++ rest))))
    = Parsed ((k, x) :: o) rest.
Proof.
  induction o as [|[k' y] o IH]; intros n k x Hpv Hs Hn;
    (destruct n as [|n]; [simpl in Hn; lia|]); cbn [parse_members];
    cbn [skip_space];
    change (is_json_space 34) with false; cbv iota;
    change (negb (34 =? 34)%N) with false; cbv iota;
    rewrite quote_parse; cbn [skip_space];
    change (is_json_space 58) with false; cbv iota;
    change (negb (58 =? 58)%N) with false; cbv iota;
    cbn [all_safe_members] in Hs; apply andb_true_iff in Hs;
    destruct Hs as [Hx Hs].
  - rewrite (Hpv (k, x) (or_introl eq_refl)); [|reflexivity].
    reflexivity.
  - rewrite (Hpv (k, x) (or_introl eq_refl));
      [|now apply number_ends_members_compact].
    cbn [snd]. pose proof Hs as Hs'. cbn [all_safe_members] in Hs'.
    apply andb_true_iff in Hs'. destruct Hs' as [Hy _].
    rewrite (members_compact_cons false k' y o rest Hy).
    cbn [app skip_space]. change (is_json_space 44) with false.
    cbv iota. change (44 =? 44)%N with true. cbv iota.
    rewrite IH; [reflexivity | | exact Hs | simpl in *; lia].
    intros z Hz. apply Hpv. now right.
Qed.

Lemma elements_compact_length l : forall first,
  all_safe l = true ->
  (List.length l <= List.length (elements_compact first l))%nat.
Proof.
  induction l as [|x l IH]; intros first Hs; [simpl; lia|].
  cbn [all_safe] in Hs. apply andb_true_iff in Hs. destruct Hs as [Hx Hs].
  cbn [elements_compact]. rewrite !length_app.
  destruct (compact_head x Hx) as (c & r & E & _). rewrite E.
  specialize (IH false Hs). cbn [List.length]. lia.
Qed.

Lemma members_compact_length o : forall first,
  all_safe_members o = true ->
  (List.length o <= List.length (members_compact first o))%nat.
Proof.
  induction o as [|[k x] o IH]; intros first Hs; [simpl; lia|].
  cbn [all_safe_members] in Hs. apply andb_true_iff in Hs.
  destruct Hs as [Hx Hs].
  cbn [members_compact]. rewrite (json_safe_defined x Hx), !length_app.
  destruct (compact_head x Hx) as (c & r & E & _). rewrite E.
  specialize (IH false Hs). unfold quote. rewrite !length_app.
  cbn [List.length]. lia.
Qed.

(** The parser reads every JSON-safe value back from its compact text. *)
Lemma parse_compact d : forall v,
  (nesting v <= d)%nat -> json_safe v = true ->
  reads_compact (parse_value d) v.
Proof.
  induction d as [|d IH]; intros v Hd Hs rest Hrest.
  - destruct v; simpl in Hd; lia.
  - destruct v as [p|l|o].
    + exact (parse_prim d p rest Hs Hrest).
    + rewrite to_json_compact_array. rewrite nesting_array in Hd.
      rewrite json_safe_array in Hs.
      change (lit "[") with [91%N]. cbn [parse_value app skip_space].
      change (is_json_space 91) with false. cbv iota.
      change (91 =? 91)%N with true. cbv iota.
      destruct l as [|x l]; [reflexivity|].
      pose proof (elements_compact_length (x :: l) true Hs) as Len.
      assert (Hx : json_safe x = true)
        by (apply (all_safe_in x (x :: l) Hs); now left).
      destruct (compact_head x Hx) as (c & r & E & C0 & C1 & _).
      assert (Sk : skip_space (elements_compact true (x :: l) ++ rest)
                   = c :: r ++ elements_compact false l ++ rest).
      { rewrite elements_compact_cons. cbn [app]. rewrite E.
        cbn [app]. now apply skip_space_head. }
      rewrite Sk, C1.
      rewrite (elements_compact_cons true x l rest) at 2. cbn [app].
      rewrite parse_elements_compact; [reflexivity | |].
      * intros y Hy. apply IH.
        -- pose proof (deepest_in y (x :: l) Hy). lia.
        -- now apply (all_safe_in y (x :: l)).
      * rewrite length_app. lia.
    + rewrite to_json_compact_object. rewrite nesting_object in Hd.
      rewrite json_safe_object in Hs. apply andb_true_iff in Hs.
      destruct Hs as [Hc Hs].
      change (lit "{") with [123%N]. cbn [parse_value app skip_space].
      change (is_json_space 123) with false. cbv iota.
      change (123 =? 91)%N with false. change (123 =? 123)%N with true.
      cbv iota.
      destruct o as [|[k x] o]; [reflexivity|].
      pose proof (members_compact_length ((k, x) :: o) true Hs) as Len.
      assert (Hx : json_safe x = true)
        by (apply (all_safe_members_in (k, x) ((k, x) :: o) Hs); now left).
      assert (Sk : skip_space (members_compact true ((k, x) :: o) ++ rest)
                   = 34%N :: (quote_body k ++ 34%N :: 58%N ::
                       (to_json_compact x ++
                        (members_compact false o ++ rest)))).
      { rewrite (members_compact_cons true k x o rest Hx). cbn [app].
        now apply skip_space_head. }
      rewrite Sk. change (34 =? 125)%N with false. cbv iota.
      rewrite (members_compact_cons true k x o rest Hx) at 2. cbn [app].
      rewrite parse_members_compact; [| | exact Hs |].
      * now rewrite (define_all_canonical ((k, x) :: o) [] Hc).
      * intros kv Hkv. apply IH.
        -- pose proof (deepest_member_in kv ((k, x) :: o) Hkv). lia.
        -- now apply (all_safe_members_in kv ((k, x) :: o)).
      * rewrite length_app. lia.
Qed.

Lemma nesting_le_compact n : forall v,
  (nesting v <= n)%nat -> json_safe v = true ->
  (nesting v <= List.length (to_json_compact v))%nat.
Proof.
  induction n as [|n IH]; intros v Hn Hs.
  - destruct v; simpl in Hn; lia.
  - destruct v as [p|l|o].
    + destruct (compact_head (VPrim p) Hs) as (c & r & E & _).
      rewrite E. simpl. lia.
    + rewrite to_json_compact_array, nesting_array in *.
      rewrite json_safe_array in Hs.
      change (lit "[") with [91%N]. cbn [app List.length].
      apply le_n_S.
      assert (G : forall first,
                (deepest l <= List.length (elements_compact first l))%nat).
      { induction l as [|x l IHl]; intros first; [simpl; lia|].
        cbn [all_safe] in Hs. apply andb_true_iff in Hs.
        destruct Hs as [Hx Hl]. cbn [deepest] in Hn.
        cbn [elements_compact deepest]. rewrite !length_app.
        specialize (IHl ltac:(lia) Hl false).
        specialize (IH x ltac:(lia) Hx). lia. }
      apply G.
    + rewrite to_json_compact_object, nesting_object in *.
      rewrite json_safe_object in Hs. apply andb_true_iff in Hs.
      destruct Hs as [_ Hs].
      change (lit "{") with [123%N]. cbn [app List.length].
      apply le_n_S.
      assert (G : forall first,
                (deepest_member o
                 <= List.length (members_compact first o))%nat).
      { induction o as [|[k x] o IHo]; intros first; [simpl; lia|].
        cbn [all_safe_members] in Hs. apply andb_true_iff in Hs.
        destruct Hs as [Hx Ho]. cbn [deepest_member] in Hn.
        cbn [members_compact deepest_member].
        rewrite (json_safe_defined x Hx), !length_app.
        specialize (IHo ltac:(lia) Ho false).
        specialize (IH x ltac:(lia) Hx). lia. }
      apply G.
Qed.

(** [JSON.parse(JSON.stringify(v))] is [v] for every JSON-safe value. *)
Lemma compact_roundtrip v :
  json_safe v = true -> JSON_parse (to_json_compact v) = Normal v.
Proof.
  intros Hs. unfold JSON_parse.
  pose proof (nesting_le_compact (nesting v) v (le_n _) Hs) as Hn.
  pose proof (parse_compact (S (List.length (to_json_compact v))) v
                ltac:(lia) Hs [] eq_refl) as P.
  rewrite app_nil_r in P. now rewrite P.
Qed.

Lemma getItem_setItem key value s :
  getItem key (setItem key value s) = Some value.
Proof.
  induction s as [|[k v] s IH]; simpl.
  - now rewrite str_eqb_refl.
  - destruct (str_eqb k key) eqn:E; simpl; now rewrite E.
Qed.

Lemma load_after_save v b :
  well_formed v = true -> is_undefined v = false ->
  load_effect (save_effect None v b)
  = (Some (json_image v), save_effect None v b).
Proof.
  intros Hw Hu. pose proof (json_safe_image v Hw) as Hs.
  unfold load_effect, save_effect at 1, JSON_stringify_compact.
  rewrite Hu. cbn [localStorage]. rewrite getItem_setItem.
  rewrite <- (compact_image v).
  destruct (compact_head _ Hs) as (c & r & E & _).
  rewrite E at 1. cbn [is_empty]. now rewrite (compact_roundtrip _ Hs).
Qed.

(** X19: a reload gives back what was saved.  The record that the save
    effect writes for a value reads back, in the load effect, as the image
    of that value: as the value itself when JSON can carry it, and whether
    or not it is an array. *)
Theorem reload_restores v b :
  well_formed v = true -> is_undefined v = false ->
  load_effect (save_effect None v b)
  = (Some (json_image v), save_effect None v b) /\
  (json_safe v = true -> json_image v = v).
Proof.
  intros Hw Hu. split; [now apply load_after_save|apply json_image_safe].
Qed.

Lemma reload_restores_witness :
  load_effect (save_effect None (VArr (nodes two_nodes)) (mkBrowser [] []))
  = (Some (json_image (VArr (nodes two_nodes))),
     save_effect None (VArr (nodes two_nodes)) (mkBrowser [] [])).
Proof.
  apply (reload_restores (VArr (nodes two_nodes)) (mkBrowser [] [])).
  - vm_compute. reflexivity.
  - reflexivity.
Defined.

(** X20: the save effect also runs in the first commit, when [nodes] is
    still [[]]: whatever the record was, it is [[]] afterwards.  A record
    that does not parse is therefore lost: nothing is loaded, a warning is
    logged and the record is replaced. *)
Theorem first_commit_overwrites b :
  getItem STORAGE_KEY (localStorage (snd (first_commit None b)))
  = Some (lit "[]") /\
  forall raw message,
    getItem STORAGE_KEY (localStorage b) = Some raw -> raw <> [] ->
    JSON_parse raw = Throw message ->
    fst (first_commit None b) = None /\
    console (snd (first_commit None b)) =
      console b ++ [(lit "Failed to parse saved nodes",
                     mkError (lit "SyntaxError") message)].
Proof.
  unfold first_commit. split.
  - destruct (load_effect b) as [loaded b1]. cbn [snd save_effect].
    cbn [localStorage]. apply getItem_setItem.
  - intros raw message Hraw Hne Hp. unfold load_effect. rewrite Hraw.
    destruct raw as [|c raw]; [now elim Hne|]. cbn [is_empty].
    rewrite Hp. split; reflexivity.
Qed.

Lemma first_commit_overwrites_witness :
  fst (first_commit None
         (mkBrowser [(STORAGE_KEY, lit "[{")] [])) = None /\
  getItem STORAGE_KEY
    (localStorage (snd (first_commit None
                          (mkBrowser [(STORAGE_KEY, lit "[{")] []))))
  = Some (lit "[]").
Proof.
  destruct (first_commit_overwrites (mkBrowser [(STORAGE_KEY, lit "[{")] []))
    as [H1 H2].
  split; [|exact H1].
  apply (H2 (lit "[{") unexpected_end); [reflexivity|discriminate|].
  vm_compute. reflexivity.
Defined.

End Records.

(** ** Sessions *)

Section Sessions.

(** X21: what a session leaves in the page's record is what the next page
    load restores: after every sequence of adds, removes and updates with
    JSON-safe patches from the empty store, the load effect reads the
    saved record back as the collection. *)
Theorem session_reload l :
  safe_session l = true ->
  exists st,
    run l initial = Some st /\
    forall b,
      fst (load_effect (save_effect None (VArr (nodes st)) b))
      = Some (VArr (nodes st)).
Proof.
  intros Hl. destruct (safe_run l initial eq_refl Hl) as (st & E & Hs).
  exists st. split; [exact E|]. intros b.
  pose proof (all_safe_nodes _ Hs) as Ha.
  assert (json_safe (VArr (nodes st)) = true) as Hj
    by now rewrite json_safe_array.
  unfold load_effect, save_effect, JSON_stringify_compact.
  cbn [is_undefined localStorage]. rewrite getItem_setItem.
  destruct (compact_head _ Hj) as (c & r & Ec & _).
  rewrite Ec at 1. cbn [is_empty]. now rewrite (compact_roundtrip _ Hj).
Qed.

Lemma session_reload_witness :
  exists st,
    run short_session initial = Some st /\
    forall b,
      fst (load_effect (save_effect None (VArr (nodes st)) b))
      = Some (VArr (nodes st)).
Proof.
  apply (session_reload short_session). vm_compute. reflexivity.
Defined.

Lemma selection_occur e st :
  forallb is_node (nodes st) = true -> selection_ok st ->
  session_patches_ok [e] = true ->
  exists st',
    occur e st = Some st' /\ forallb is_node (nodes st') = true /\
    selection_ok st'.
Proof.
  intros Hn Hs Hp. destruct e as [a|node|node outcome now]; cbn [occur].
  - destruct (selection_run [a] st Hn Hs) as (st' & E & Hn' & Hs').
    { destruct a as [? ? ? ?|id patch|id]; simpl in *; auto. }
    simpl in E. destruct (step a st) as [s|]; [|discriminate].
    injection E as ->. now exists st'.
  - eexists. split; [reflexivity|]. unfold onAskAI_call.
    destruct (truthy node); [|now split]. split; [exact Hn|exact Hs].
  - eexists. split; [reflexivity|].
    destruct (truthy node) eqn:T;
      [|unfold onAskAI_resume; rewrite T; now split].
    destruct (onAskAI_resume_cases node outcome now st T)
      as (_ & [(n & En & In & Iid & Es & _)|(m & En & Es & _)]).
    + split.
      * rewrite En. cbn [forallb]. now rewrite In, Hn.
      * right. exists n. rewrite En, Es. split; [now left|exact Iid].
    + split; [now rewrite En|].
      destruct Hs as [Hs|(n & Hin & Hid)].
      * left. now rewrite Es.
      * right. exists n. rewrite En, Es. now split.
Qed.

(** X22: the selection never dangles, expansions included.  After every
    sequence of adds, updates of [content], [x], [y], removes, calls of
    [onAskAI] and settlings of such calls, in any order, from the empty
    store, [selectedId] is [null] or the id of a node of the
    collection. *)
Theorem session_selection l :
  session_patches_ok l = true ->
  exists st, session l initial = Some st /\ selection_ok st.
Proof.
  assert (forall l st,
            forallb is_node (nodes st) = true -> selection_ok st ->
            session_patches_ok l = true ->
            exists st', session l st = Some st' /\ selection_ok st') as G.
  { clear l. induction l as [|e l IH]; intros st Hn Hs Hp.
    - now exists st.
    - destruct (selection_occur e st Hn Hs) as (s & E & Hn' & Hs').
      { destruct e as [[? ? ? ?|id patch|id]| |]; simpl in *; auto.
        apply andb_true_iff in Hp. now rewrite (proj1 Hp). }
      cbn [session]. rewrite E. apply IH; [exact Hn'|exact Hs'|].
      destruct e as [[? ? ? ?|id patch|id]| |]; simpl in *; auto.
      now apply andb_true_iff in Hp. }
  intros Hp. apply G; [reflexivity|now left|exact Hp].
Qed.

Lemma session_selection_witness :
  exists st,
    session [Store (Add (lit "A") 1 (Fin 0) (Fin 0));
             Call cats;
             Store (Remove (PStr (new_id 1)));
             Settle cats (Fulfilled (vstr (lit "B"))) 2] initial = Some st /\
    selection_ok st.
Proof.
  apply (session_selection
           [Store (Add (lit "A") 1 (Fin 0) (Fin 0));
            Call cats;
            Store (Remove (PStr (new_id 1)));
            Settle cats (Fulfilled (vstr (lit "B"))) 2]).
  reflexivity.
Defined.

Lemma session_export_import_witness :
  exists st,
    run short_session initial = Some st /\
    forall st', nodes (importJSON (Some (exportJSON st)) st') = nodes st.
Proof.
  apply (session_export_import short_session). vm_compute. reflexivity.
Defined.

End Sessions.

(** ** The states that the app can reach *)

Section Reachable.

Lemma char_digit_inv c d :
  char_digit c = Some d -> c = digit_char d /\ is_digit d.
Proof.
  unfold char_digit, digit_char, is_digit.
  destruct ((48 <=? c) && (c <=? 57))%N eqn:E; [|discriminate].
  apply andb_true_iff in E. destruct E as [A B].
  apply N.leb_le in A, B. intros H. injection H as <-. split; lia.
Qed.

Lemma all_digits_inv k : forall l,
  all_digits k = Some l -> k = digit_chars l /\ Forall is_digit l.
Proof.
  induction k as [|c k IH]; simpl; intros l H.
  - injection H as <-. split; [reflexivity|constructor].
  - destruct (char_digit c) as [d|] eqn:C; [|discriminate].
    destruct (all_digits k) as [ds|]; [|discriminate].
    injection H as <-. destruct (char_digit_inv c d C) as [-> Hd].
    destruct (IH ds eq_refl) as [-> Hds].
    split; [reflexivity|now constructor].
Qed.

Lemma array_index_inv k i :
  array_index k = Some i ->
  exists d ds,
    k = digit_chars (d :: ds) /\ Forall is_digit (d :: ds) /\
    i = undigits (d :: ds) /\ (0 < d \/ (d = 0 /\ ds = [])).
Proof.
  unfold array_index. destruct (all_digits k) as [[|d ds]|] eqn:A;
    try discriminate.
  destruct (all_digits_inv k _ A) as [-> Hl].
  destruct ((negb (d =? 0) || match ds with [] => true | _ => false end)
            && (undigits (d :: ds) <? 2 ^ 32 - 1)) eqn:C; [|discriminate].
  intros H. injection H as <-. exists d, ds.
  split; [reflexivity|]. split; [exact Hl|]. split; [reflexivity|].
  apply andb_true_iff in C. destruct C as [C _].
  pose proof (Forall_inv Hl) as Hd. unfold is_digit in Hd.
  destruct (Z.eqb_spec d 0) as [->|N]; [|left; lia].
  right. split; [reflexivity|]. destruct ds; [reflexivity|discriminate].
Qed.

(** An array index has one spelling. *)
Lemma array_index_inj k k' i :
  array_index k = Some i -> array_index k' = Some i -> k = k'.
Proof.
  intros H H'.
  destruct (array_index_inv k i H) as (d & ds & -> & Hl & E & C).
  destruct (array_index_inv k' i H') as (d' & ds' & -> & Hl' & E' & C').
  f_equal.
  pose proof (Forall_inv_tail Hl) as Hds.
  pose proof (Forall_inv_tail Hl') as Hds'.
  pose proof (pow10_pos (Z.of_nat (List.length ds)) (Nat2Z.is_nonneg _)).
  pose proof (pow10_pos (Z.of_nat (List.length ds')) (Nat2Z.is_nonneg _)).
  destruct C as [P|[-> ->]], C' as [P'|[-> ->]].
  - rewrite <- (digits_unique d ds Hl P), <- (digits_unique d' ds' Hl' P').
    now rewrite <- E, <- E'.
  - pose proof (undigits_ge d ds Hds P). rewrite <- E, E' in *.
    change (undigits [0]) with 0 in *. lia.
  - pose proof (undigits_ge d' ds' Hds' P'). rewrite <- E', E in *.
    change (undigits [0]) with 0 in *. lia.
  - reflexivity.
Qed.

Lemma forallb_insert_index (P : jsstring * value -> bool) i k v o :
  forallb P (insert_index i k v o) = P (k, v) && forallb P o.
Proof.
  induction o as [|[k' v'] o IH]; simpl; [reflexivity|].
  destruct (array_index k') as [j|]; [|reflexivity].
  destruct (j <? i); [|reflexivity]. simpl. rewrite IH.
  now destruct (P (k', v')), (P (k, v)).
Qed.

Lemma ordered_insert_index i k v o :
  array_index k = Some i -> has_key k o = false -> ordered o = true ->
  ordered (insert_index i k v o) = true.
Proof.
  intros Hk. induction o as [|[k' v'] o IH]; simpl; intros Hn Ho;
    [reflexivity|].
  apply orb_false_iff in Hn. destruct Hn as [Hne Hn].
  apply andb_true_iff in Ho. destruct Ho as [Hp Ho].
  assert (forall j, array_index k' = Some j -> j <> i) as Hji.
  { intros j Hj ->. apply str_eqb_neq in Hne. apply Hne.
    now apply (array_index_inj k' k i). }
  assert ((match array_index k' with Some j => i <? j | None => true end)
          = true ->
          forallb (fun kv => key_precedes k (fst kv)) ((k', v') :: o) = true)
    as Hfront.
  { intros Hlt. cbn [forallb fst]. apply andb_true_iff. split.
    - unfold key_precedes. rewrite Hk. exact Hlt.
    - apply forallb_forall. intros [k2 v2] Hin. rewrite forallb_forall in Hp.
      specialize (Hp _ Hin). cbn [fst] in *. unfold key_precedes in *.
      rewrite Hk. destruct (array_index k') as [j|],
        (array_index k2) as [j2|]; try reflexivity; try discriminate.
      apply Z.ltb_lt in Hlt, Hp. apply Z.ltb_lt. lia. }
  destruct (array_index k') as [j|] eqn:Hj.
  - destruct (Z.ltb_spec j i) as [Lt|Ge].
    + cbn [ordered]. rewrite forallb_insert_index, Hp, (IH Hn Ho).
      cbn [fst]. unfold key_precedes. rewrite Hj, Hk.
      now apply Z.ltb_lt in Lt as ->.
    + cbn [ordered]. rewrite Hfront, Hp, Ho; [reflexivity|].
      apply Z.ltb_lt. specialize (Hji j eq_refl). lia.
  - cbn [ordered]. now rewrite Hfront, Hp, Ho.
Qed.

Lemma ordered_app_one k v o :
  array_index k = None -> ordered o = true ->
  ordered (o ++ [(k, v)]) = true.
Proof.
  intros Hk. induction o as [|[k' v'] o IH]; simpl; [reflexivity|].
  intros H. apply andb_true_iff in H. destruct H as [Hp Ho].
  rewrite forallb_app, Hp, (IH Ho). cbn [forallb fst].
  unfold key_precedes. rewrite Hk. now destruct (array_index k').
Qed.

Lemma forallb_replace (P : jsstring -> bool) k v o :
  forallb (fun kv => P (fst kv)) (replace k v o)
  = forallb (fun kv => P (fst kv)) o.
Proof.
  induction o as [|[k' v'] o IH]; simpl; [reflexivity|].
  destruct (str_eqb k' k); simpl; [reflexivity|now rewrite IH].
Qed.

Lemma ordered_replace k v o : ordered (replace k v o) = ordered o.
Proof.
  induction o as [|[k' v'] o IH]; simpl; [reflexivity|].
  destruct (str_eqb k' k); simpl; [reflexivity|].
  now rewrite (forallb_replace (key_precedes k')), IH.
Qed.

(** CreateDataProperty keeps property order. *)
Lemma canonical_define_property o k v :
  canonical o = true -> canonical (define_property o k v) = true.
Proof.
  unfold canonical. intros H. apply andb_true_iff in H.
  destruct H as [D O]. rewrite (distinct_define_property o k v D).
  cbn [andb]. unfold define_property.
  destruct (lookup k o) eqn:L.
  - now rewrite ordered_replace.
  - apply has_key_lookup in L. destruct (array_index k) as [i|] eqn:A.
    + now apply ordered_insert_index.
    + now apply ordered_app_one.
Qed.

Lemma canonical_define_all kvs : forall o,
  canonical o = true -> canonical (define_all o kvs) = true.
Proof.
  unfold define_all.
  induction kvs as [|[k v] kvs IH]; intros o H; [exact H|].
  cbn [fold_left fst snd]. apply IH. now apply canonical_define_property.
Qed.

Lemma wf_members_app a b :
  all_well_formed_members (a ++ b)
  = all_well_formed_members a && all_well_formed_members b.
Proof.
  induction a as [|[k x] a IH]; simpl; [reflexivity|].
  now rewrite IH, andb_assoc.
Qed.

Lemma wf_define_property o k v :
  all_well_formed_members o = true -> well_formed v = true ->
  all_well_formed_members (define_property o k v) = true.
Proof.
  intros Ho Hv. unfold define_property. destruct (lookup k o).
  - clear -Ho Hv. induction o as [|[k' v'] o IH]; simpl; [reflexivity|].
    simpl in Ho. apply andb_true_iff in Ho. destruct Ho as [H1 H2].
    destruct (str_eqb k' k); simpl.
    + now rewrite Hv, H2.
    + now rewrite H1, (IH H2).
  - destruct (array_index k) as [i|].
    + clear -Ho Hv. induction o as [|[k' v'] o IH]; simpl.
      * now rewrite Hv.
      * simpl in Ho. apply andb_true_iff in Ho. destruct Ho as [H1 H2].
        destruct (array_index k') as [j|]; [destruct (j <? i)|]; simpl;
          rewrite ?Hv, ?H1, ?H2, ?(IH H2); reflexivity.
    + rewrite wf_members_app, Ho. simpl. now rewrite Hv.
Qed.

Lemma wf_define_all kvs : forall o,
  all_well_formed_members o = true -> all_well_formed_members kvs = true ->
  all_well_formed_members (define_all o kvs) = true.
Proof.
  unfold define_all.
  induction kvs as [|[k v] kvs IH]; intros o Ho Hk; [exact Ho|].
  simpl in Hk. apply andb_true_iff in Hk. destruct Hk as [Hv Hk].
  cbn [fold_left fst snd]. apply IH; [|exact Hk].
  now apply wf_define_property.
Qed.

Lemma wf_indexed l : forall i,
  all_well_formed l = true -> all_well_formed_members (indexed i l) = true.
Proof.
  induction l as [|x l IH]; intros i H; [reflexivity|].
  simpl in H. apply andb_true_iff in H. destruct H as [Hx Hl].
  cbn [indexed all_well_formed_members]. now rewrite Hx, (IH _ Hl).
Qed.

Lemma wf_own_properties v :
  well_formed v = true -> all_well_formed_members (own_properties v) = true.
Proof.
  destruct v as [p|l|o]; intros H.
  - destruct p as [| |b|x|s]; try reflexivity.
    cbn [own_properties]. apply wf_indexed.
    clear. induction s as [|c s IH]; [reflexivity|exact IH].
  - cbn [own_properties]. apply wf_indexed. now rewrite <- well_formed_array.
  - rewrite well_formed_object in H. apply andb_true_iff in H. tauto.
Qed.

(** Object spread builds a well-formed object from well-formed values. *)
Lemma wf_spread a b :
  well_formed a = true -> well_formed b = true ->
  well_formed (spread a b) = true.
Proof.
  intros Ha Hb. unfold spread. rewrite well_formed_object.
  apply andb_true_iff. split.
  - apply canonical_define_all. now apply canonical_define_all.
  - apply wf_define_all; [apply wf_define_all; [reflexivity|]|];
      now apply wf_own_properties.
Qed.

Lemma wf_js_plus a b r : js_plus a b = Some r -> well_formed r = true.
Proof.
  unfold js_plus.
  destruct (to_primitive a) as [p|]; [|discriminate].
  destruct (to_primitive b) as [q|]; [|destruct p; discriminate].
  assert (forall x y, well_formed (vnum (num_add x y)) = true) as N.
  { intros x y. cbn [vnum well_formed]. destruct (num_add x y) eqn:E;
      [reflexivity..|]. exact (num_add_representable _ _ _ E). }
  destruct p as [| |bp|xp|sp], q as [| |bq|xq|sq]; intros H;
    cbv beta iota in H;
    lazymatch type of H with
    | Some (vnum (num_add ?x ?y)) = _ => injection H as <-; exact (N x y)
    | _ => injection H as <-; reflexivity
    end.
Qed.

Lemma take_digits_range s : forall ds rest,
  take_digits s = (ds, rest) -> Forall is_digit ds.
Proof.
  induction s as [|c s IH]; simpl; intros ds rest H.
  - injection H as <- _. constructor.
  - destruct (char_digit c) as [d|] eqn:C.
    + destruct (take_digits s) as [ds' rest']. injection H as <- _.
      constructor; [exact (proj2 (char_digit_inv c d C))|].
      now apply (IH ds' rest').
    + injection H as <- _. constructor.
Qed.

Lemma dec_to_number_wf neg m e :
  0 <= m -> well_formed (vnum (dec_to_number neg m e)) = true.
Proof.
  intros Hm. pose proof one_unit_pos as U. unfold dec_to_number.
  assert (exists n d, 0 <= n /\ 0 < d /\ dec_round m e = round_ratio n d)
    as (n & d & Hn & Hd & ->).
  { unfold dec_round. destruct (Z.leb_spec 0 e).
    - exists (m * 10 ^ e * one_unit), 1. pose proof (pow10_pos e H).
      split; [nia|]. split; [lia|reflexivity].
    - exists (m * one_unit), (10 ^ (- e)).
      split; [nia|]. split; [apply pow10_pos; lia|reflexivity]. }
  unfold pack. cbn [vnum well_formed].
  pose proof (round_ratio_nonneg n d Hn Hd) as R0.
  pose proof (round_ratio_representable n d Hn Hd) as M.
  destruct (Z.leb_spec overflow_bound (round_ratio n d)); [reflexivity|].
  unfold representableb. destruct neg.
  - rewrite Z.abs_neq by lia. rewrite Z.opp_involutive.
    apply andb_true_iff. split; [apply Z.ltb_lt; lia|now apply Z.eqb_eq].
  - rewrite Z.abs_eq by lia.
    apply andb_true_iff. split; [apply Z.ltb_lt; lia|now apply Z.eqb_eq].
Qed.

Lemma parse_number_wf s x rest :
  parse_number s = Parsed x rest -> well_formed (vnum x) = true.
Proof.
  unfold parse_number.
  set (p := match s with
            | c :: r => if (c =? 45)%N then (true, r) else (false, s)
            | [] => (false, s)
            end).
  destruct p as [neg s1].
  destruct (parse_int s1) as [ds s2|] eqn:I; [|discriminate].
  destruct (parse_frac s2) as [fs s3|] eqn:F; [|discriminate].
  destruct (parse_exp s3) as [ex s4|]; [|discriminate].
  intros H. injection H as <- _. apply dec_to_number_wf.
  apply undigits_nonneg. apply Forall_app. split.
  - unfold parse_int in I. destruct s1 as [|c r]; [discriminate|].
    destruct (c =? 48)%N.
    + injection I as <- _. repeat constructor; unfold is_digit; lia.
    + destruct (take_digits (c :: r)) as [[|d l] rest'] eqn:T;
        [discriminate|].
      injection I as <- _. exact (take_digits_range _ _ _ T).
  - unfold parse_frac in F. destruct s2 as [|c r].
    + injection F as <- _. constructor.
    + destruct (c =? 46)%N.
      * destruct (take_digits r) as [[|d l] rest'] eqn:T; [discriminate|].
        injection F as <- _. exact (take_digits_range _ _ _ T).
      * injection F as <- _. constructor.
Qed.

Lemma parse_literal_wf s v rest :
  parse_literal s = Parsed v rest -> well_formed v = true.
Proof.
  unfold parse_literal.
  destruct (strip_prefix (lit "true") s);
    [intros H; injection H as <- _; reflexivity|].
  destruct (strip_prefix (lit "false") s);
    [intros H; injection H as <- _; reflexivity|].
  destruct (strip_prefix (lit "null") s);
    [intros H; injection H as <- _; reflexivity|discriminate].
Qed.

Definition yields_well_formed (pv : jsstring -> parsed value) : Prop :=
  forall s v rest, pv s = Parsed v rest -> well_formed v = true.

Lemma parse_elements_wf pv :
  yields_well_formed pv ->
  forall n s vs rest,
    parse_elements pv n s = Parsed vs rest -> all_well_formed vs = true.
Proof.
  intros Hpv. induction n as [|n IH]; intros s vs rest; [discriminate|].
  cbn [parse_elements]. destruct (pv s) as [v r|] eqn:E; [|discriminate].
  pose proof (Hpv _ _ _ E) as Hv.
  destruct (skip_space r) as [|c r']; [discriminate|].
  destruct (c =? 44)%N.
  - destruct (parse_elements pv n r') as [vs' rest'|] eqn:P; [|discriminate].
    intros H. injection H as <- _. cbn [all_well_formed].
    now rewrite Hv, (IH _ _ _ P).
  - destruct (c =? 93)%N; [|discriminate].
    intros H. injection H as <- _. cbn [all_well_formed]. now rewrite Hv.
Qed.

Lemma parse_members_wf pv :
  yields_well_formed pv ->
  forall n s kvs rest,
    parse_members pv n s = Parsed kvs rest ->
    all_well_formed_members kvs = true.
Proof.
  intros Hpv. induction n as [|n IH]; intros s kvs rest; [discriminate|].
  cbn [parse_members]. destruct (skip_space s) as [|q r0]; [discriminate|].
  destruct (negb (q =? 34)%N); [discriminate|].
  destruct (parse_string_body r0) as [k rest0|]; [|discriminate].
  destruct (skip_space rest0) as [|c0 r1]; [discriminate|].
  destruct (negb (c0 =? 58)%N); [discriminate|].
  destruct (pv r1) as [v r|] eqn:E; [|discriminate].
  pose proof (Hpv _ _ _ E) as Hv.
  destruct (skip_space r) as [|c r']; [discriminate|].
  destruct (c =? 44)%N.
  - destruct (parse_members pv n r') as [kvs' rest'|] eqn:P; [|discriminate].
    intros H. injection H as <- _. cbn [all_well_formed_members].
    now rewrite Hv, (IH _ _ _ P).
  - destruct (c =? 125)%N; [|discriminate].
    intros H. injection H as <- _. cbn [all_well_formed_members].
    now rewrite Hv.
Qed.

Lemma parse_value_wf d : yields_well_formed (parse_value d).
Proof.
  induction d as [|d IH]; intros s v rest; [discriminate|].
  cbn [parse_value]. destruct (skip_space s) as [|c r]; [discriminate|].
  destruct (c =? 91)%N.
  { destruct (skip_space r) as [|c' r']; [discriminate|].
    destruct (c' =? 93)%N; [intros H; injection H as <- _; reflexivity|].
    destruct (parse_elements (parse_value d) (List.length r) r)
      as [vs rest'|] eqn:P; [|discriminate].
    intros H. injection H as <- _. rewrite well_formed_array.
    exact (parse_elements_wf _ IH _ _ _ _ P). }
  destruct (c =? 123)%N.
  { destruct (skip_space r) as [|c' r']; [discriminate|].
    destruct (c' =? 125)%N; [intros H; injection H as <- _; reflexivity|].
    destruct (parse_members (parse_value d) (List.length r) r)
      as [kvs rest'|] eqn:P; [|discriminate].
    intros H. injection H as <- _. rewrite well_formed_object.
    apply andb_true_iff. split.
    - now apply canonical_define_all.
    - apply wf_define_all; [reflexivity|].
      exact (parse_members_wf _ IH _ _ _ _ P). }
  destruct (c =? 34)%N.
  { destruct (parse_string_body r); [|discriminate].
    intros H. injection H as <- _. reflexivity. }
  destruct (starts_number c).
  { destruct (parse_number (c :: r)) as [x rest'|] eqn:P; [|discriminate].
    intros H. injection H as <- _. exact (parse_number_wf _ _ _ P). }
  apply parse_literal_wf.
Qed.

(** Whatever [JSON.parse] returns is well-formed. *)
Lemma JSON_parse_well_formed text v :
  JSON_parse text = Normal v -> well_formed v = true.
Proof.
  unfold JSON_parse.
  destruct (parse_value (S (List.length text)) text) as [w rest|] eqn:P;
    [|discriminate].
  destruct (skip_space rest); [|discriminate].
  intros H. injection H as <-. exact (parse_value_wf _ _ _ _ P).
Qed.

Lemma wf_in x l : forallb well_formed l = true -> In x l -> well_formed x = true.
Proof. intros H. rewrite forallb_forall in H. apply H. Qed.

Lemma wf_map_nodes id patch l l' :
  well_formed patch = true -> forallb well_formed l = true ->
  map_nodes
    (fun n => match has_id id n with
              | Some true => Some (spread n patch)
              | Some false => Some n
              | None => None
              end) l = Some l' ->
  forallb well_formed l' = true.
Proof.
  intros Hp. revert l'. induction l as [|n l IH]; simpl; intros l' Hl H.
  - injection H as <-. reflexivity.
  - apply andb_true_iff in Hl. destruct Hl as [Hn Hl].
    destruct (has_id id n) as [[|]|]; [| |discriminate];
      (destruct (map_nodes _ l) as [r|]; [|discriminate]);
      injection H as <-; cbn [forallb]; rewrite (IH r Hl eq_refl).
    + now rewrite wf_spread.
    + now rewrite Hn.
Qed.

Lemma wf_filter_nodes keep l l' :
  forallb well_formed l = true -> filter_nodes keep l = Some l' ->
  forallb well_formed l' = true.
Proof.
  revert l'. induction l as [|n l IH]; simpl; intros l' Hl H.
  - injection H as <-. reflexivity.
  - apply andb_true_iff in Hl. destruct Hl as [Hn Hl].
    destruct (keep n) as [b|]; [|discriminate].
    destruct (filter_nodes keep l) as [r|]; [|discriminate].
    injection H as <-. destruct b; cbn [forallb];
      rewrite ?Hn; now apply IH.
Qed.

Lemma wf_new_node id content x y :
  well_formed content = true -> well_formed x = true ->
  well_formed y = true ->
  well_formed (make_node (vstr id) content x y) = true.
Proof.
  intros Hc Hx Hy. unfold make_node. rewrite well_formed_object.
  cbn [all_well_formed_members]. rewrite Hc, Hx, Hy. reflexivity.
Qed.

Lemma wf_num_add a b : well_formed (vnum (num_add a b)) = true.
Proof.
  cbn [vnum well_formed]. destruct (num_add a b) eqn:E; [reflexivity..|].
  exact (num_add_representable _ _ _ E).
Qed.

Lemma wf_interact i st st' :
  inputs_well_formed [i] = true ->
  forallb well_formed (nodes st) = true ->
  interact i st = Some st' -> forallb well_formed (nodes st') = true.
Proof.
  intros Hi Hst. destruct i as [[a|node|node outcome now]|id|file];
    cbn [interact occur].
  - destruct a as [text now rx ry|id patch|id]; cbn [step].
    + intros H. injection H as <-. unfold addNode.
      destruct (is_empty text || is_empty (trim text)); [exact Hst|].
      cbn [nodes setNodes setSelectedId forallb]. rewrite Hst, andb_true_r.
      apply wf_new_node; [reflexivity|apply wf_num_add..].
    + unfold updateNode.
      destruct (map_nodes _ (nodes st)) as [l|] eqn:M; [|discriminate].
      intros H. injection H as <-. cbn [nodes setNodes].
      simpl in Hi. rewrite andb_true_r in Hi.
      exact (wf_map_nodes id patch _ _ Hi Hst M).
    + unfold removeNode.
      destruct (filter_nodes _ (nodes st)) as [l|] eqn:F; [|discriminate].
      intros H. injection H as <-.
      pose proof (wf_filter_nodes _ _ _ Hst F).
      now destruct (prim_strict_eq (selectedId st) id).
  - intros H. injection H as <-. unfold onAskAI_call.
    now destruct (truthy node).
  - intros H. injection H as <-. unfold onAskAI_resume.
    destruct (truthy node); [|exact Hst].
    destruct outcome as [result|e]; [|exact Hst].
    destruct (expansion_node node result now) as [n|] eqn:E; [|exact Hst].
    cbn [nodes setNodes setSelectedId setQueryingAI forallb].
    rewrite Hst, andb_true_r. unfold expansion_node in E.
    destruct (get node (lit "x")) as [x|]; [|discriminate].
    destruct (get node (lit "y")) as [y|]; [|discriminate].
    destruct (js_plus x _) as [x'|] eqn:Px; [|discriminate].
    destruct (js_plus y _) as [y'|] eqn:Py; [|discriminate].
    injection E as <-. simpl in Hi. rewrite andb_true_r in Hi.
    apply wf_new_node; [|exact (wf_js_plus _ _ _ Px)|
                         exact (wf_js_plus _ _ _ Py)].
    now destruct (truthy result).
  - intros H. injection H as <-. exact Hst.
  - intros H. injection H as <-. unfold importJSON.
    destruct file as [text|]; [|exact Hst].
    destruct (JSON_parse text) as [v|m] eqn:P; [|exact Hst].
    destruct v as [p|l|o]; try exact Hst.
    cbn [nodes setNodes]. rewrite forallb_well_formed, <- well_formed_array.
    exact (JSON_parse_well_formed _ _ P).
Qed.

Lemma wf_interactions l : forall st st',
  inputs_well_formed l = true ->
  forallb well_formed (nodes st) = true ->
  interactions l st = Some st' -> forallb well_formed (nodes st') = true.
Proof.
  induction l as [|i l IH]; intros st st' Hl Hst; cbn [interactions].
  - intros H. now injection H as <-.
  - destruct (interact i st) as [s|] eqn:E; [|discriminate].
    apply IH.
    + destruct i as [[[? ? ? ?|? ?|?]|?|? [?|?] ?]|?|?]; simpl in Hl;
        try exact Hl; now apply andb_true_iff in Hl.
    + apply (wf_interact i st s); [|exact Hst|exact E].
      destruct i as [[[? ? ? ?|? ?|?]|?|? [?|?] ?]|?|?]; simpl in Hl |- *;
        try reflexivity; apply andb_true_iff in Hl;
        now rewrite (proj1 Hl).
Qed.

(** X24: in every state that the app can reach, an export followed by an
    import of the exported text raises no alert and gives the collection
    back with [null] for every [NaN] and infinity and without [undefined]
    fields.  The states are those reached from the empty store by adds,
    updates, removes, selections, imports of any file, calls of [onAskAI]
    and their settlings, in any order, with well-formed patches and
    results. *)
Theorem reachable_export_import l st st' :
  inputs_well_formed l = true ->
  interactions l initial = Some st ->
  nodes (importJSON (Some (exportJSON st)) st') = map json_image (nodes st) /\
  alerts (importJSON (Some (exportJSON st)) st') = alerts st'.
Proof.
  intros Hl Hrun.
  pose proof (wf_interactions l initial st Hl eq_refl Hrun) as Hw.
  rewrite forallb_well_formed in Hw.
  assert (json_safe (json_image (VArr (nodes st))) = true) as Hs
    by (apply json_safe_image; now rewrite well_formed_array).
  unfold importJSON, exportJSON. cbn [JSON_stringify is_undefined].
  rewrite <- (to_json_image (VArr (nodes st)) []).
  rewrite (JSON_roundtrip _ Hs). split; reflexivity.
Qed.

Lemma reachable_export_import_witness :
  exists st,
    interactions
      [Import (Some (lit "[{}, 1e400]"));
       Happen (Store (Remove (PStr (lit "1"))));
       Select (PStr (lit "7"))] initial = Some st /\
    nodes (importJSON (Some (exportJSON st)) initial)
    = map json_image (nodes st).
Proof.
  eexists. split; [vm_compute; reflexivity|].
  apply (reachable_export_import
           [Import (Some (lit "[{}, 1e400]"));
            Happen (Store (Remove (PStr (lit "1"))));
            Select (PStr (lit "7"))]).
  - reflexivity.
  - vm_compute. reflexivity.
Defined.

(** X25: the page can always reload what it saved.  In every state that
    the app can reach, the record that the save effect writes is read back
    by the load effect without a warning, as the collection with [null] for
    every [NaN] and infinity and without [undefined] fields. *)
Theorem reachable_reload l st b :
  inputs_well_formed l = true ->
  interactions l initial = Some st ->
  load_effect (save_effect None (VArr (nodes st)) b)
  = (Some (VArr (map json_image (nodes st))),
     save_effect None (VArr (nodes st)) b).
Proof.
  intros Hl Hrun.
  pose proof (wf_interactions l initial st Hl eq_refl Hrun) as Hw.
  rewrite forallb_well_formed, <- well_formed_array in Hw.
  exact (load_after_save (VArr (nodes st)) b Hw eq_refl).
Qed.

Lemma reachable_reload_witness :
  exists st,
    interactions
      [Import (Some (lit "[{}, 1e400]"));
       Happen (Store (Remove (PStr (lit "1"))))]
      initial = Some st /\
    fst (load_effect (save_effect None (VArr (nodes st)) (mkBrowser [] [])))
    = Some (VArr (map json_image (nodes st))).
Proof.
  eexists. split; [vm_compute; reflexivity|].
  rewrite (reachable_reload
             [Import (Some (lit "[{}, 1e400]"));
              Happen (Store (Remove (PStr (lit "1"))))]
             _ (mkBrowser [] []) eq_refl); [reflexivity|].
  vm_compute. reflexivity.
Defined.

End Reachable.
